(** * Roulette betting strategies: a shallow embedding of
    [project/Project_functions.py] and the properties of its simulators.

    Python dictionaries are finite maps ([gmap]), Python lists are lists,
    Python integers are [Z].  A [KeyError] or [IndexError] is the [None] of
    the option monad, so that "the simulator returns" is a statement of its
    own ([= Some _]).  The pseudo-random generator behind [random.randint]
    is an explicit tape of raw draws together with a counter of the calls
    made so far.  What [plot_strategies_2x4] does to matplotlib is the list
    of the calls it makes. *)

From Stdlib Require Import ZArith Lia Ascii String.
From stdpp Require Import base option list strings pretty gmap.

Local Open Scope string_scope.
Local Open Scope list_scope.
Local Open Scope Z_scope.

(** ** Python primitives *)

(** [for x in xs: body], threading the mutable state and stopping at the
    first exception. *)
Fixpoint for_each {A S : Type} (body : A → S → option S) (xs : list A) (s : S)
  : option S :=
  match xs with
  | [] => Some s
  | x :: xs' => s' ← body x s; for_each body xs' s'
  end.

(** [enumerate(xs)], counting from [i]. *)
Fixpoint enumerate_from {A : Type} (i : Z) (xs : list A) : list (Z * A) :=
  match xs with
  | [] => []
  | x :: xs' => (i, x) :: enumerate_from (i + 1) xs'
  end.

Definition enumerate {A : Type} (xs : list A) : list (Z * A) :=
  enumerate_from 0 xs.

(** [l[i]] on a list: negative indices count from the end, anything out of
    range raises. *)
Definition getitem (l : list Z) (i : Z) : option Z :=
  if bool_decide (0 ≤ i) then l !! Z.to_nat i
  else if bool_decide (- i ≤ Z.of_nat (length l))
       then l !! Z.to_nat (Z.of_nat (length l) + i)
       else None.

(** [{k: f(k) for k in keys}]: a later duplicate of a key overwrites. *)
Definition dict_comprehension {K V : Type} `{Countable K}
    (f : K → V) (keys : list K) : gmap K V :=
  foldl (λ m k, <[k := f k]> m) ∅ keys.

(** [str.capitalize] on ASCII text. *)
Definition upper (c : ascii) : ascii :=
  let n := nat_of_ascii c in
  if (andb (97 <=? n) (n <=? 122))%nat then ascii_of_nat (n - 32) else c.

Definition lower (c : ascii) : ascii :=
  let n := nat_of_ascii c in
  if (andb (65 <=? n) (n <=? 90))%nat then ascii_of_nat (n + 32) else c.

Fixpoint lower_all (s : string) : string :=
  match s with
  | EmptyString => EmptyString
  | String c s' => String (lower c) (lower_all s')
  end.

Definition capitalize (s : string) : string :=
  match s with
  | EmptyString => EmptyString
  | String c s' => String (upper c) (lower_all s')
  end.

(** [random.randint(a, b)]: the generator is a tape [g] of raw draws and
    the number of calls made so far; the call returns an integer of
    [[a, b]] and advances the generator. *)
Definition randint (a b : Z) (g : nat → Z) (calls : nat) : Z * nat :=
  (a + Z.modulo (g calls) (b - a + 1), S calls).

(** ** Data model *)

(** One row of the DataFrame: the four outcome columns. *)
Record row := Row {
  Red_Bet_Win : Z;
  Black_Bet_Win : Z;
  Even_Bet_Win : Z;
  Odd_Bet_Win : Z
}.

(** [row[column]]. *)
Definition row_getitem (r : row) (column : string) : option Z :=
  if decide (column = "Red Bet Win") then Some (Red_Bet_Win r)
  else if decide (column = "Black Bet Win") then Some (Black_Bet_Win r)
  else if decide (column = "Even Bet Win") then Some (Even_Bet_Win r)
  else if decide (column = "Odd Bet Win") then Some (Odd_Bet_Win r)
  else None.

(** [row[f"{bet_type.capitalize()} Bet Win"]]. *)
Definition win_flag (r : row) (bet_type : string) : option Z :=
  row_getitem r (capitalize bet_type +:+ " Bet Win").

(** The keys of every per-bet-type dictionary, in insertion order. *)
Definition bet_types : list string := ["red"; "black"; "even"; "odd"].

(** [{"red": v, "black": v, "even": v, "odd": v}]. *)
Definition per_bet_type {V : Type} (v : V) : gmap string V :=
  dict_comprehension (λ _, v) bet_types.

(** ** no_strategy *)

(** One of the four [balances[t].append(...)] statements. *)
Definition no_strategy_append (bet : Z) (r : row) (bet_type column : string)
    (balances : gmap string (list Z)) : option (gmap string (list Z)) :=
  bal ← balances !! bet_type;
  prev ← getitem bal (-1);
  flag ← row_getitem r column;
  Some (<[bet_type := bal ++ [prev + (if bool_decide (flag = 1) then bet else - bet)]]>
          balances).

(** [bet = initial_bet if spin == 0 else random.randint(5, 20)]. *)
Definition no_strategy_bet (g : nat → Z) (initial_bet spin : Z) (calls : nat)
  : Z * nat :=
  if bool_decide (spin = 0) then (initial_bet, calls) else randint 5 20 g calls.

Definition no_strategy_body (g : nat → Z) (initial_bet : Z) (x : Z * row)
    (st : gmap string (list Z) * nat) : option (gmap string (list Z) * nat) :=
  let '(spin, r) := x in
  let '(balances, calls) := st in
  let '(bet, calls') := no_strategy_bet g initial_bet spin calls in
  b1 ← no_strategy_append bet r "red" "Red Bet Win" balances;
  b2 ← no_strategy_append bet r "black" "Black Bet Win" b1;
  b3 ← no_strategy_append bet r "even" "Even Bet Win" b2;
  b4 ← no_strategy_append bet r "odd" "Odd Bet Win" b3;
  Some (b4, calls').

(** The loop of [no_strategy] over rows numbered from [start]. *)
Definition no_strategy_loop (g : nat → Z) (initial_bet : Z) (start : Z)
    (rows : list row) (st : gmap string (list Z) * nat)
  : option (gmap string (list Z) * nat) :=
  for_each (no_strategy_body g initial_bet) (enumerate_from start rows) st.

Definition no_strategy (g : nat → Z) (data : list row) (initial_bet : Z)
  : option (gmap string (list Z)) :=
  fst <$> no_strategy_loop g initial_bet 0 data (per_bet_type [0], 0%nat).

(** ** martingale_strategy *)

Record martingale_state := MartingaleState {
  m_balances : gmap string (list Z);
  m_bets : gmap string Z
}.

Definition martingale_body (initial_bet : Z) (r : row) (bet_type : string)
    (st : martingale_state) : option martingale_state :=
  bet ← m_bets st !! bet_type;
  flag ← win_flag r bet_type;
  bal ← m_balances st !! bet_type;
  prev ← getitem bal (-1);
  if bool_decide (flag = 1) then
    Some (MartingaleState (<[bet_type := bal ++ [prev + bet]]> (m_balances st))
                          (<[bet_type := initial_bet]> (m_bets st)))
  else
    cur ← m_bets st !! bet_type;
    Some (MartingaleState (<[bet_type := bal ++ [prev - bet]]> (m_balances st))
                          (<[bet_type := cur * 2]> (m_bets st))).

Definition martingale_init (initial_bet : Z) : martingale_state :=
  MartingaleState (per_bet_type [0]) (per_bet_type initial_bet).

(** The state after the rows [rows] have been played. *)
Definition martingale_run (initial_bet : Z) (rows : list row)
  : option martingale_state :=
  for_each (λ r, for_each (martingale_body initial_bet r) bet_types)
           rows (martingale_init initial_bet).

Definition martingale_strategy (data : list row) (initial_bet : Z)
  : option (gmap string (list Z)) :=
  m_balances <$> martingale_run initial_bet data.

(** ** fibonacci_strategy *)

Record fibonacci_state := FibonacciState {
  f_balances : gmap string (list Z);
  f_sequences : gmap string (list Z);
  f_indices : gmap string Z
}.

(** The loss branch after the balance was appended: advance the index and
    extend the sequence when the index runs off its end. *)
Definition fibonacci_advance (bet_type : string)
    (sequences : gmap string (list Z)) (indices : gmap string Z)
  : option (gmap string (list Z) * gmap string Z) :=
  i ← indices !! bet_type;
  let indices' := <[bet_type := i + 1]> indices in
  i' ← indices' !! bet_type;
  s ← sequences !! bet_type;
  if bool_decide (Z.of_nat (length s) ≤ i') then
    s1 ← sequences !! bet_type;
    x1 ← getitem s1 (-1);
    s2 ← sequences !! bet_type;
    x2 ← getitem s2 (-2);
    Some (<[bet_type := s ++ [x1 + x2]]> sequences, indices')
  else Some (sequences, indices').

Definition fibonacci_body (initial_bet : Z) (r : row) (bet_type : string)
    (st : fibonacci_state) : option fibonacci_state :=
  current_index ← f_indices st !! bet_type;
  s ← f_sequences st !! bet_type;
  x ← getitem s current_index;
  let bet := x * initial_bet in
  flag ← win_flag r bet_type;
  bal ← f_balances st !! bet_type;
  prev ← getitem bal (-1);
  if bool_decide (flag = 1) then
    Some (FibonacciState (<[bet_type := bal ++ [prev + bet]]> (f_balances st))
                         (f_sequences st)
                         (<[bet_type := Z.max 0 (current_index - 2)]> (f_indices st)))
  else
    '(sequences', indices') ← fibonacci_advance bet_type (f_sequences st) (f_indices st);
    Some (FibonacciState (<[bet_type := bal ++ [prev - bet]]> (f_balances st))
                         sequences' indices').

Definition fibonacci_init : fibonacci_state :=
  FibonacciState (per_bet_type [0]) (per_bet_type [1; 1]) (per_bet_type 0).

Definition fibonacci_run (initial_bet : Z) (rows : list row)
  : option fibonacci_state :=
  for_each (λ r, for_each (fibonacci_body initial_bet r) bet_types)
           rows fibonacci_init.

Definition fibonacci_strategy (data : list row) (initial_bet : Z)
  : option (gmap string (list Z)) :=
  f_balances <$> fibonacci_run initial_bet data.

(** ** d_alembert_strategy *)

Record d_alembert_state := DAlembertState {
  d_balances : gmap string (list Z);
  d_bets : gmap string Z
}.

Definition d_alembert_body (initial_bet : Z) (r : row) (bet_type : string)
    (st : d_alembert_state) : option d_alembert_state :=
  bet ← d_bets st !! bet_type;
  flag ← win_flag r bet_type;
  bal ← d_balances st !! bet_type;
  prev ← getitem bal (-1);
  if bool_decide (flag = 1) then
    Some (DAlembertState (<[bet_type := bal ++ [prev + bet]]> (d_balances st))
                         (<[bet_type := Z.max initial_bet (bet - initial_bet)]> (d_bets st)))
  else
    cur ← d_bets st !! bet_type;
    Some (DAlembertState (<[bet_type := bal ++ [prev - bet]]> (d_balances st))
                         (<[bet_type := cur + initial_bet]> (d_bets st))).

Definition d_alembert_init (initial_bet : Z) : d_alembert_state :=
  DAlembertState (per_bet_type [0]) (per_bet_type initial_bet).

Definition d_alembert_run (initial_bet : Z) (rows : list row)
  : option d_alembert_state :=
  for_each (λ r, for_each (d_alembert_body initial_bet r) bet_types)
           rows (d_alembert_init initial_bet).

Definition d_alembert_strategy (data : list row) (initial_bet : Z)
  : option (gmap string (list Z)) :=
  d_balances <$> d_alembert_run initial_bet data.

(** ** martingale_strategy_with_table_limits *)

(** [{limit: {bet_type: [0] for bet_type in [...]} for limit in table_limits}]:
    one fresh inner dictionary per distinct limit. *)
Definition init_results (table_limits : list Z) : gmap Z (gmap string (list Z)) :=
  dict_comprehension (λ _, dict_comprehension (λ _, [0]) bet_types) table_limits.

Record martingale_limit_state := MartingaleLimitState {
  ml_results : gmap Z (gmap string (list Z));
  ml_bets : gmap string Z
}.

Definition martingale_limit_body (initial_bet table_limit : Z) (r : row)
    (bet_type : string) (st : martingale_limit_state)
  : option martingale_limit_state :=
  cur ← ml_bets st !! bet_type;
  let bet := Z.min cur table_limit in
  flag ← win_flag r bet_type;
  inner ← ml_results st !! table_limit;
  bal ← inner !! bet_type;
  prev ← getitem bal (-1);
  if bool_decide (flag = 1) then
    Some (MartingaleLimitState
            (<[table_limit := <[bet_type := bal ++ [prev + bet]]> inner]> (ml_results st))
            (<[bet_type := initial_bet]> (ml_bets st)))
  else
    cur' ← ml_bets st !! bet_type;
    Some (MartingaleLimitState
            (<[table_limit := <[bet_type := bal ++ [prev - bet]]> inner]> (ml_results st))
            (<[bet_type := Z.min (cur' * 2) table_limit]> (ml_bets st))).

(** The state of the simulation for [table_limit] after the rows [rows],
    started on the results accumulated so far. *)
Definition martingale_limit_run (initial_bet table_limit : Z) (rows : list row)
    (results : gmap Z (gmap string (list Z))) : option martingale_limit_state :=
  for_each (λ r, for_each (martingale_limit_body initial_bet table_limit r) bet_types)
           rows (MartingaleLimitState results (per_bet_type initial_bet)).

(** The body of [for table_limit in table_limits]. *)
Definition martingale_limit_pass (data : list row) (initial_bet table_limit : Z)
    (results : gmap Z (gmap string (list Z)))
  : option (gmap Z (gmap string (list Z))) :=
  ml_results <$> martingale_limit_run initial_bet table_limit data results.

Definition martingale_strategy_with_table_limits (data : list row)
    (initial_bet : Z) (table_limits : list Z)
  : option (gmap Z (gmap string (list Z))) :=
  for_each (martingale_limit_pass data initial_bet) table_limits
           (init_results table_limits).

(** ** fibonacci_strategy_with_table_limits *)

Record fibonacci_limit_state := FibonacciLimitState {
  fl_results : gmap Z (gmap string (list Z));
  fl_sequences : gmap string (list Z);
  fl_indices : gmap string Z
}.

Definition fibonacci_limit_body (initial_bet table_limit : Z) (r : row)
    (bet_type : string) (st : fibonacci_limit_state)
  : option fibonacci_limit_state :=
  current_index ← fl_indices st !! bet_type;
  s ← fl_sequences st !! bet_type;
  x ← getitem s current_index;
  let bet := Z.min (x * initial_bet) table_limit in
  flag ← win_flag r bet_type;
  inner ← fl_results st !! table_limit;
  bal ← inner !! bet_type;
  prev ← getitem bal (-1);
  if bool_decide (flag = 1) then
    Some (FibonacciLimitState
            (<[table_limit := <[bet_type := bal ++ [prev + bet]]> inner]> (fl_results st))
            (fl_sequences st)
            (<[bet_type := Z.max 0 (current_index - 2)]> (fl_indices st)))
  else
    '(sequences', indices') ← fibonacci_advance bet_type (fl_sequences st) (fl_indices st);
    Some (FibonacciLimitState
            (<[table_limit := <[bet_type := bal ++ [prev - bet]]> inner]> (fl_results st))
            sequences' indices').

Definition fibonacci_limit_run (initial_bet table_limit : Z) (rows : list row)
    (results : gmap Z (gmap string (list Z))) : option fibonacci_limit_state :=
  for_each (λ r, for_each (fibonacci_limit_body initial_bet table_limit r) bet_types)
           rows (FibonacciLimitState results (per_bet_type [1; 1]) (per_bet_type 0)).

Definition fibonacci_limit_pass (data : list row) (initial_bet table_limit : Z)
    (results : gmap Z (gmap string (list Z)))
  : option (gmap Z (gmap string (list Z))) :=
  fl_results <$> fibonacci_limit_run initial_bet table_limit data results.

Definition fibonacci_strategy_with_table_limits (data : list row)
    (initial_bet : Z) (table_limits : list Z)
  : option (gmap Z (gmap string (list Z))) :=
  for_each (fibonacci_limit_pass data initial_bet) table_limits
           (init_results table_limits).

(** ** plot_strategies_2x4 *)

(** The calls that reach matplotlib, in the order they are made.  An axes
    is named by its row and column in the grid of [plt.subplots]. *)
Inductive plot_call :=
  | subplots (nrows ncols : Z)
  | ax_plot (row col : Z) (ys : list Z) (label : string)
  | ax_set_title (row col : Z) (title : string)
  | ax_set_xlabel (row col : Z) (text : string)
  | ax_axhline (row col : Z) (y : Z) (label : string)
  | ax_set_ylabel (row col : Z) (text : string)
  | ax_legend (row col : Z)
  | tight_layout
  | show.

(** The body of [for table_limit in table_limits]: two dictionary lookups,
    either of which can raise [KeyError], and one line on the axes. *)
Definition plot_limit_line (row col : Z)
    (strategy_data : gmap Z (gmap string (list Z))) (bet_type : string)
    (table_limit : Z) (calls : list plot_call) : option (list plot_call) :=
  inner ← strategy_data !! table_limit;
  balances ← inner !! bet_type;
  Some (calls ++ [ax_plot row col balances ("Table Limit: $" +:+ pretty table_limit)]).

(** The body of [for col, bet_type in enumerate(bet_types)]. *)
Definition plot_axes (row : Z) (strategy_name : string)
    (strategy_data : gmap Z (gmap string (list Z))) (table_limits : list Z)
    (x : Z * string) (calls : list plot_call) : option (list plot_call) :=
  let '(col, bet_type) := x in
  calls1 ← for_each (plot_limit_line row col strategy_data bet_type) table_limits calls;
  let calls2 :=
    calls1 ++ [ax_set_title row col
                 (strategy_name +:+ " Strategy: Betting on " +:+ capitalize bet_type);
               ax_set_xlabel row col "Number of Spins";
               ax_axhline row col 0 "Starting Balance"] in
  let calls3 :=
    if bool_decide (col = 0)
    then calls2 ++ [ax_set_ylabel row col "Net profit ($)"]
    else calls2 in
  Some (calls3 ++ [ax_legend row col]).

(** The body of [for row, (strategy_name, strategy_data) in
    enumerate(strategies)]. *)
Definition plot_strategy_row (table_limits : list Z)
    (x : Z * (string * gmap Z (gmap string (list Z))))
    (calls : list plot_call) : option (list plot_call) :=
  let '(row, (strategy_name, strategy_data)) := x in
  for_each (plot_axes row strategy_name strategy_data table_limits)
           (enumerate bet_types) calls.

Definition plot_strategies_2x4
    (martingale_data fibonacci_data : gmap Z (gmap string (list Z)))
    (table_limits : list Z) : option (list plot_call) :=
  let strategies := [("Martingale", martingale_data); ("Fibonacci", fibonacci_data)] in
  calls ← for_each (plot_strategy_row table_limits) (enumerate strategies)
            [subplots 2 4];
  Some (calls ++ [tight_layout; show]).

(** ** Reference notions used in the statements *)

(** The classic Fibonacci sequence seeded 1, 1. *)
Fixpoint fib (n : nat) : Z :=
  match n with
  | O => 1
  | S m => match m with
           | O => 1
           | S k => fib m + fib k
           end
  end.

Definition fib_prefix (n : nat) : list Z := fib <$> seq 0 n.


(** The bet type loses on every row of [rows]. *)
Definition losing_streak (bet_type : string) (rows : list row) : Prop :=
  Forall (λ r, win_flag r bet_type ≠ Some 1) rows.

(** ** Per-bet-type views of the loop states

    Each loop body reads and writes the entries of one bet type only.  The
    views below project a state on one bet type, and the tracks are the
    loop bodies seen through that projection. *)

Definition flag_of (r : row) (bet_type : string) : Z :=
  default 0 (win_flag r bet_type).

Definition last_balance (bal : list Z) : Z := default 0 (last bal).

Definition clamp (cap : option Z) (x : Z) : Z :=
  match cap with
  | Some limit => Z.min x limit
  | None => x
  end.

Definition tracked {S T : Type} (view : string → S → option T)
    (inv : T → Prop) (s : S) (f : string → T) : Prop :=
  ∀ k, k ∈ bet_types → view k s = Some (f k) ∧ inv (f k).

Definition no_strategy_track (bet flag : Z) (bal : list Z) : list Z :=
  bal ++ [last_balance bal + (if bool_decide (flag = 1) then bet else - bet)].

(** The wager of [no_strategy] on spin number [spin], for a generator that
    had made no call when the simulation started. *)
Definition no_strategy_wager (g : nat → Z) (initial_bet : Z) (spin : nat) : Z :=
  match spin with
  | O => initial_bet
  | S j => 5 + Z.modulo (g j) 16
  end.

Fixpoint no_strategy_fold (g : nat → Z) (initial_bet : Z) (k : string)
    (spin : nat) (rows : list row) (bal : list Z) : list Z :=
  match rows with
  | [] => bal
  | r :: rows' =>
      no_strategy_fold g initial_bet k (S spin) rows'
        (no_strategy_track (no_strategy_wager g initial_bet spin) (flag_of r k) bal)
  end.

Definition martingale_view (k : string) (st : martingale_state)
  : option (list Z * Z) :=
  bal ← m_balances st !! k; bet ← m_bets st !! k; Some (bal, bet).

Definition martingale_limit_view (limit : Z) (k : string)
    (st : martingale_limit_state) : option (list Z * Z) :=
  inner ← ml_results st !! limit;
  bal ← inner !! k; bet ← ml_bets st !! k; Some (bal, bet).

Definition martingale_track (cap : option Z) (initial_bet flag : Z)
    (t : list Z * Z) : list Z * Z :=
  let wager := clamp cap t.2 in
  if bool_decide (flag = 1)
  then (t.1 ++ [last_balance t.1 + wager], initial_bet)
  else (t.1 ++ [last_balance t.1 - wager], clamp cap (t.2 * 2)).

Definition d_alembert_view (k : string) (st : d_alembert_state)
  : option (list Z * Z) :=
  bal ← d_balances st !! k; bet ← d_bets st !! k; Some (bal, bet).

Definition d_alembert_track (initial_bet flag : Z) (t : list Z * Z)
  : list Z * Z :=
  if bool_decide (flag = 1)
  then (t.1 ++ [last_balance t.1 + t.2], Z.max initial_bet (t.2 - initial_bet))
  else (t.1 ++ [last_balance t.1 - t.2], t.2 + initial_bet).

Definition fibonacci_view (k : string) (st : fibonacci_state)
  : option (list Z * (list Z * Z)) :=
  bal ← f_balances st !! k;
  s ← f_sequences st !! k; i ← f_indices st !! k; Some (bal, (s, i)).

Definition fibonacci_limit_view (limit : Z) (k : string)
    (st : fibonacci_limit_state) : option (list Z * (list Z * Z)) :=
  inner ← fl_results st !! limit;
  bal ← inner !! k;
  s ← fl_sequences st !! k; i ← fl_indices st !! k; Some (bal, (s, i)).

Definition fibonacci_extend (s : list Z) (i : Z) : list Z :=
  if bool_decide (Z.of_nat (length s) ≤ i)
  then s ++ [default 0 (getitem s (-1)) + default 0 (getitem s (-2))]
  else s.

(** The sequence and index of one bet type, which do not depend on the
    wager. *)
Definition fibonacci_progress (flag : Z) (p : list Z * Z) : list Z * Z :=
  if bool_decide (flag = 1)
  then (p.1, Z.max 0 (p.2 - 2))
  else (fibonacci_extend p.1 (p.2 + 1), p.2 + 1).

Definition fibonacci_track (cap : option Z) (initial_bet flag : Z)
    (t : list Z * (list Z * Z)) : list Z * (list Z * Z) :=
  let wager := clamp cap (default 0 (getitem t.2.1 t.2.2) * initial_bet) in
  (t.1 ++ [last_balance t.1 + (if bool_decide (flag = 1) then wager else - wager)],
   fibonacci_progress flag t.2).

Definition martingale_inv (cap : option Z) (initial_bet : Z) (t : list Z * Z)
  : Prop :=
  t.1 ≠ [] ∧ (cap = Some initial_bet → 0 ≤ initial_bet → t.2 = initial_bet).

Definition d_alembert_inv (initial_bet : Z) (t : list Z * Z) : Prop :=
  t.1 ≠ [] ∧ (0 ≤ initial_bet → initial_bet ≤ t.2).

Definition fibonacci_inv (t : list Z * (list Z * Z)) : Prop :=
  t.1 ≠ [] ∧ t.2.1 = fib_prefix (length t.2.1) ∧
  (2 ≤ length t.2.1)%nat ∧ 0 ≤ t.2.2 < Z.of_nat (length t.2.1).

(** The results of the table-limit variants hold, under [limit], a non-empty
    trajectory for each bet type. *)
Definition wf_results (results : gmap Z (gmap string (list Z))) (limit : Z)
  : Prop :=
  ∃ inner, results !! limit = Some inner ∧
    ∀ k, k ∈ bet_types → ∃ bal, inner !! k = Some bal ∧ bal ≠ [].

(** ** Notions used in the further properties *)

(** The number of rows that [bet_type] wins. *)
Definition wins (bet_type : string) (rows : list row) : nat :=
  length (filter (λ r, win_flag r bet_type = Some 1) rows).

(** The number of rows that [bet_type] has lost since its last win. *)
Definition losing_run (bet_type : string) (rows : list row) : nat :=
  foldl (λ n r, if bool_decide (win_flag r bet_type = Some 1) then O else S n)
        O rows.

(** Two data sets in which [bet_type] wins the same spins. *)
Definition same_outcomes (bet_type : string) (data data' : list row) : Prop :=
  Forall2 (λ r r', win_flag r bet_type = Some 1 ↔ win_flag r' bet_type = Some 1)
          data data'.

(** The number of steps by which the D'Alembert bet stands above the
    initial bet: one more after a loss, one less (not below none) after a
    win. *)
Definition d_alembert_level (bet_type : string) (rows : list row) : nat :=
  foldl (λ l r, if bool_decide (win_flag r bet_type = Some 1) then pred l else S l)
        O rows.

(** The rank in the Fibonacci sequence at which a bet type stands: one
    further after a loss, two back (not before the start) after a win. *)
Definition fibonacci_index (bet_type : string) (rows : list row) : nat :=
  foldl (λ i r, if bool_decide (win_flag r bet_type = Some 1) then (i - 2)%nat else S i)
        O rows.

(** [table_limits.count(limit)]. *)
Definition occurrences (limit : Z) (table_limits : list Z) : nat :=
  length (filter (λ l, l = limit) table_limits).

(** On every spin exactly one of the two bet types wins. *)
Definition opposite_outcomes (bet_type bet_type' : string) (data : list row) : Prop :=
  Forall (λ r, win_flag r bet_type = Some 1 ↔ win_flag r bet_type' ≠ Some 1) data.

(** The line that [plot_strategies_2x4] draws for [table_limit] on the axes
    of [bet_type]: the balances and the legend label. *)
Definition limit_line (strategy_data : gmap Z (gmap string (list Z)))
    (bet_type : string) (table_limit : Z) : option (list Z * string) :=
  balances ← strategy_data !! table_limit ≫= (.!! bet_type);
  Some (balances, "Table Limit: $" +:+ pretty table_limit).

(** The lines drawn on the axes at [row], [col], in the order drawn. *)
Definition lines_on (row col : Z) (calls : list plot_call) : list (list Z * string) :=
  omap (λ call,
          match call with
          | ax_plot r c ys label =>
              if bool_decide (r = row ∧ c = col) then Some (ys, label) else None
          | _ => None
          end) calls.

(** * Properties *)

(** ** The embedding on small runs *)

Example capitalize_red : capitalize "red" +:+ " Bet Win" = "Red Bet Win".
Proof. reflexivity. Qed.

Example getitem_negative : getitem [1; 1; 2] (-2) = Some 1 ∧ getitem [1; 1] (-3) = None.
Proof. split; reflexivity. Qed.

Example martingale_three_losses :
  martingale_strategy (replicate 3 (Row 0 0 0 0)) 5 ≫= (.!! "red")
  = Some [0; -5; -15; -35].
Proof. reflexivity. Qed.

Example fibonacci_three_losses :
  fibonacci_strategy (replicate 3 (Row 0 0 0 0)) 1 ≫= (.!! "red")
  = Some [0; -1; -2; -4].
Proof. reflexivity. Qed.

Example d_alembert_win_after_losses :
  d_alembert_strategy [Row 0 1 0 1; Row 0 1 0 1; Row 1 0 1 0; Row 1 0 1 0] 5
    ≫= (.!! "red")
  = Some [0; -5; -15; 0; 10].
Proof. reflexivity. Qed.

Example martingale_limit_three_losses :
  (martingale_strategy_with_table_limits (replicate 3 (Row 0 0 0 0)) 5 [10]
     ≫= λ res, res !! 10 ≫= (.!! "red"))
  = Some [0; -5; -15; -25].
Proof. reflexivity. Qed.

Example fibonacci_limit_five_losses :
  (fibonacci_strategy_with_table_limits (replicate 5 (Row 0 0 0 0)) 5 [10; 12]
     ≫= λ res, res !! 12 ≫= (.!! "red"))
  = Some [0; -5; -10; -20; -32; -44].
Proof. reflexivity. Qed.

(** ** Loops *)

Lemma for_each_app {A S : Type} (body : A → S → option S) (xs ys : list A) (s : S) :
  for_each body (xs ++ ys) s = for_each body xs s ≫= for_each body ys.
Proof.
  revert s. induction xs as [|x xs IH]; intros s; simpl; [done|].
  destruct (body x s) as [s1|]; simpl; [apply IH | done].
Qed.

Lemma for_each_cons {A S : Type} (body : A → S → option S) (x : A) (xs : list A) (s : S) :
  for_each body (x :: xs) s = body x s ≫= for_each body xs.
Proof. reflexivity. Qed.

Lemma for_each_preserves {A S : Type} (body : A → S → option S) (P : S → Prop) :
  (∀ x s s', body x s = Some s' → P s → P s') →
  ∀ xs s s', for_each body xs s = Some s' → P s → P s'.
Proof.
  intros Hbody xs. induction xs as [|x xs IH]; intros s s' Hrun HP; simpl in Hrun.
  - by simplify_eq.
  - destruct (body x s) as [s1|] eqn:Hx; simpl in Hrun; [|done].
    eapply IH; [done|]. by eapply Hbody.
Qed.

Lemma bet_types_NoDup : NoDup bet_types.
Proof. compute_done. Qed.

Lemma bet_type_cases (P : string → Prop) :
  P "red" → P "black" → P "even" → P "odd" → ∀ k, k ∈ bet_types → P k.
Proof.
  intros ???? k Hk. unfold bet_types in Hk.
  repeat (apply elem_of_cons in Hk as [->|Hk]; [done|]).
  by apply elem_of_nil in Hk.
Qed.

Lemma win_flag_bet_type (r : row) (k : string) :
  k ∈ bet_types → win_flag r k = Some (flag_of r k).
Proof. revert k. apply bet_type_cases; reflexivity. Qed.

Section bet_type_tracks.
Context {S T R : Type}.
Variable view : string → S → option T.
Variable body : R → string → S → option S.
Variable track : R → string → T → T.
Variable inv : T → Prop.

Hypothesis body_track : ∀ r k s t,
  k ∈ bet_types → view k s = Some t → inv t →
  ∃ s', body r k s = Some s' ∧ view k s' = Some (track r k t) ∧
        ∀ k', k' ≠ k → view k' s' = view k' s.
Hypothesis track_inv : ∀ r k t, inv t → inv (track r k t).

Lemma keys_loop (r : R) (ks : list string) (s : S) (f : string → T) :
  NoDup ks → (∀ k, k ∈ ks → k ∈ bet_types) →
  (∀ k, k ∈ ks → view k s = Some (f k) ∧ inv (f k)) →
  ∃ s', for_each (body r) ks s = Some s' ∧
        (∀ k, k ∈ ks → view k s' = Some (track r k (f k))) ∧
        (∀ k, k ∉ ks → view k s' = view k s).
Proof.
  revert s. induction ks as [|k ks IH]; intros s Hnd Hsub Hview; simpl.
  - exists s. split_and!; [done| |done]. intros k Hk. by apply elem_of_nil in Hk.
  - apply NoDup_cons in Hnd as [Hk Hnd].
    pose proof (Hview k ltac:(left)) as [Hv Hi].
    destruct (body_track r k s (f k)) as (s1 & Hbody & Hv1 & Hframe);
      [apply Hsub; left|done..|]. rewrite Hbody. simpl.
    destruct (IH s1) as (s' & Hrun & Hin & Hout); [done| | |].
    + intros k' Hk'. apply Hsub. by right.
    + intros k' Hk'. rewrite Hframe; [|by intros ->]. apply Hview. by right.
    + exists s'. split_and!; [done| |].
      * intros k' [->|Hk']%elem_of_cons; [|by apply Hin].
        by rewrite Hout.
      * intros k' Hk'. apply not_elem_of_cons in Hk' as [Hne Hk'].
        rewrite Hout; [|done]. by apply Hframe.
Qed.

Lemma row_step (r : R) (s : S) (f : string → T) :
  tracked view inv s f →
  ∃ s', for_each (body r) bet_types s = Some s' ∧
        tracked view inv s' (λ k, track r k (f k)).
Proof.
  intros Hs.
  destruct (keys_loop r bet_types s f) as (s' & Hrun & Hin & _);
    [apply bet_types_NoDup|done|done|].
  exists s'. split; [done|]. intros k Hk. split; [by apply Hin|].
  apply track_inv. by apply Hs.
Qed.

Lemma rows_loop (rows : list R) (s : S) (f : string → T) :
  tracked view inv s f →
  ∃ s', for_each (λ r, for_each (body r) bet_types) rows s = Some s' ∧
        tracked view inv s' (λ k, foldl (λ t r, track r k t) (f k) rows).
Proof.
  revert s f. induction rows as [|r rows IH]; intros s f Hs.
  - by exists s.
  - rewrite for_each_cons.
    destruct (row_step r s f Hs) as (s1 & -> & Hs1).
    by apply (IH s1 (λ k, track r k (f k))).
Qed.
End bet_type_tracks.

(** ** The loop bodies through the per-bet-type views *)

Lemma getitem_last (bal : list Z) :
  bal ≠ [] → getitem bal (-1) = Some (last_balance bal).
Proof.
  intros Hne. unfold getitem, last_balance.
  rewrite bool_decide_false by lia.
  destruct bal as [|b bal]; [done|].
  rewrite bool_decide_true by (simpl; lia).
  rewrite last_lookup.
  replace (Z.to_nat (Z.of_nat (length (b :: bal)) + -1)) with (pred (length (b :: bal)))
    by (simpl; lia).
  destruct (lookup_lt_is_Some_2 (b :: bal) (pred (length (b :: bal)))) as [x Hx];
    [simpl; lia|].
  by rewrite Hx.
Qed.

Lemma getitem_nonneg (s : list Z) (i : Z) :
  0 ≤ i → getitem s i = s !! Z.to_nat i.
Proof. intros Hi. unfold getitem. by rewrite bool_decide_true. Qed.

Lemma getitem_neg (s : list Z) (i : Z) :
  - Z.of_nat (length s) ≤ i < 0 →
  getitem s i = s !! Z.to_nat (Z.of_nat (length s) + i).
Proof.
  intros Hi. unfold getitem.
  rewrite bool_decide_false by lia. by rewrite bool_decide_true by lia.
Qed.

Lemma getitem_is_Some (s : list Z) (i : Z) :
  - Z.of_nat (length s) ≤ i < Z.of_nat (length s) → is_Some (getitem s i).
Proof.
  intros Hi. destruct (decide (0 ≤ i)).
  - rewrite getitem_nonneg by done. apply lookup_lt_is_Some_2. lia.
  - rewrite getitem_neg by lia. apply lookup_lt_is_Some_2. lia.
Qed.

Lemma getitem_default (s : list Z) (i : Z) :
  - Z.of_nat (length s) ≤ i < Z.of_nat (length s) →
  getitem s i = Some (default 0 (getitem s i)).
Proof. intros Hi. by destruct (getitem_is_Some s i Hi) as [x ->]. Qed.

Lemma martingale_body_track (ib : Z) (r : row) (k : string)
    (st : martingale_state) (t : list Z * Z) :
  k ∈ bet_types → martingale_view k st = Some t → martingale_inv None ib t →
  ∃ st', martingale_body ib r k st = Some st' ∧
         martingale_view k st' = Some (martingale_track None ib (flag_of r k) t) ∧
         ∀ k', k' ≠ k → martingale_view k' st' = martingale_view k' st.
Proof.
  intros Hk Hv [Hinv _]. destruct st as [bals bets].
  unfold martingale_view in *. simpl in *.
  destruct (bals !! k) as [bal|] eqn:Hbal; [|done].
  destruct (bets !! k) as [bet|] eqn:Hbet; [|done].
  simpl in Hv. injection Hv as <-. simpl in Hinv.
  unfold martingale_body, martingale_track. simpl.
  rewrite Hbet, Hbal, (win_flag_bet_type r k Hk). simpl.
  rewrite (getitem_last _ Hinv). simpl.
  case_bool_decide; simpl; eexists; (split_and!; [done| |]); simpl.
  - by rewrite !lookup_insert_eq.
  - intros k' Hne. by rewrite !lookup_insert_ne.
  - by rewrite !lookup_insert_eq.
  - intros k' Hne. by rewrite !lookup_insert_ne.
Qed.

Lemma martingale_track_inv (cap : option Z) (ib flag : Z) (t : list Z * Z) :
  martingale_inv cap ib t → martingale_inv cap ib (martingale_track cap ib flag t).
Proof.
  intros [Hne Hflat]. unfold martingale_track.
  case_bool_decide; (split; simpl; [by destruct t.1|]); [done|].
  intros -> Hib. rewrite (Hflat eq_refl Hib). simpl. lia.
Qed.

Lemma martingale_limit_body_track (ib limit : Z) (r : row) (k : string)
    (st : martingale_limit_state) (t : list Z * Z) :
  k ∈ bet_types → martingale_limit_view limit k st = Some t →
  martingale_inv (Some limit) ib t →
  ∃ st', martingale_limit_body ib limit r k st = Some st' ∧
         martingale_limit_view limit k st'
           = Some (martingale_track (Some limit) ib (flag_of r k) t) ∧
         ∀ k', k' ≠ k →
           martingale_limit_view limit k' st' = martingale_limit_view limit k' st.
Proof.
  intros Hk Hv [Hinv _]. destruct st as [res bets].
  unfold martingale_limit_view in *. simpl in *.
  destruct (res !! limit) as [inner|] eqn:Hres; [|done]. simpl in Hv.
  destruct (inner !! k) as [bal|] eqn:Hbal; [|done].
  destruct (bets !! k) as [bet|] eqn:Hbet; [|done].
  simpl in Hv. injection Hv as <-. simpl in Hinv.
  unfold martingale_limit_body, martingale_track. simpl.
  rewrite Hbet, Hres, (win_flag_bet_type r k Hk). simpl.
  rewrite Hbal. simpl. rewrite (getitem_last _ Hinv). simpl.
  case_bool_decide; simpl; eexists; (split_and!; [done| |]); simpl.
  - by rewrite !lookup_insert_eq; simpl; rewrite !lookup_insert_eq.
  - intros k' Hne. rewrite lookup_insert_eq. simpl. by rewrite !lookup_insert_ne.
  - by rewrite !lookup_insert_eq; simpl; rewrite !lookup_insert_eq.
  - intros k' Hne. rewrite lookup_insert_eq. simpl. by rewrite !lookup_insert_ne.
Qed.

Lemma d_alembert_body_track (ib : Z) (r : row) (k : string)
    (st : d_alembert_state) (t : list Z * Z) :
  k ∈ bet_types → d_alembert_view k st = Some t → d_alembert_inv ib t →
  ∃ st', d_alembert_body ib r k st = Some st' ∧
         d_alembert_view k st' = Some (d_alembert_track ib (flag_of r k) t) ∧
         ∀ k', k' ≠ k → d_alembert_view k' st' = d_alembert_view k' st.
Proof.
  intros Hk Hv [Hinv _]. destruct st as [bals bets].
  unfold d_alembert_view in *. simpl in *.
  destruct (bals !! k) as [bal|] eqn:Hbal; [|done].
  destruct (bets !! k) as [bet|] eqn:Hbet; [|done].
  simpl in Hv. injection Hv as <-. simpl in Hinv.
  unfold d_alembert_body, d_alembert_track. simpl.
  rewrite Hbet, Hbal, (win_flag_bet_type r k Hk). simpl.
  rewrite (getitem_last _ Hinv). simpl.
  case_bool_decide; simpl; eexists; (split_and!; [done| |]); simpl.
  - by rewrite !lookup_insert_eq.
  - intros k' Hne. by rewrite !lookup_insert_ne.
  - by rewrite !lookup_insert_eq.
  - intros k' Hne. by rewrite !lookup_insert_ne.
Qed.

Lemma d_alembert_track_inv (ib flag : Z) (t : list Z * Z) :
  d_alembert_inv ib t → d_alembert_inv ib (d_alembert_track ib flag t).
Proof.
  intros [Hne Hlow]. unfold d_alembert_track.
  case_bool_decide; (split; simpl; [by destruct t.1|]); intros Hib;
    specialize (Hlow Hib); lia.
Qed.

(** ** The Fibonacci sequence and its extension *)

Lemma fib_SS (n : nat) : fib (S (S n)) = fib (S n) + fib n.
Proof. reflexivity. Qed.

Lemma fib_pos (n : nat) : 0 < fib n ∧ 0 < fib (S n).
Proof. induction n as [|n [IH1 IH2]]; [done|]. rewrite fib_SS. lia. Qed.

Lemma fib_mono (i j : nat) : (i ≤ j)%nat → fib i ≤ fib j.
Proof.
  induction 1 as [|j Hle IH]; [done|].
  etrans; [apply IH|]. destruct j as [|j]; [done|].
  rewrite fib_SS. pose proof (fib_pos j). lia.
Qed.

Lemma fib_ge (n : nat) : Z.of_nat n ≤ fib n ∧ Z.of_nat (S n) ≤ fib (S n).
Proof.
  induction n as [|n [IH1 IH2]]; [done|].
  split; [done|]. rewrite fib_SS. pose proof (fib_pos n). lia.
Qed.

Lemma length_fib_prefix (n : nat) : length (fib_prefix n) = n.
Proof. unfold fib_prefix. by rewrite length_fmap, length_seq. Qed.

Lemma fib_prefix_lookup (n i : nat) :
  (i < n)%nat → fib_prefix n !! i = Some (fib i).
Proof.
  intros Hi. unfold fib_prefix.
  by rewrite list_lookup_fmap, lookup_seq_lt.
Qed.

Lemma fib_prefix_S (n : nat) : fib_prefix (S n) = fib_prefix n ++ [fib n].
Proof. unfold fib_prefix. by rewrite seq_S, fmap_app. Qed.

Lemma fibonacci_extend_prefix (s : list Z) (i : Z) :
  s = fib_prefix (length s) → (2 ≤ length s)%nat → Z.of_nat (length s) ≤ i →
  fibonacci_extend s i = fib_prefix (S (length s)).
Proof.
  intros Hs Hlen Hi. unfold fibonacci_extend.
  rewrite bool_decide_true by done.
  rewrite !getitem_neg by lia.
  destruct (length s) as [|[|n]] eqn:Hn; [lia..|].
  rewrite Hs.
  rewrite !fib_prefix_lookup by lia. simpl default.
  rewrite (fib_prefix_S (S (S n))). f_equal. f_equal.
  replace (Z.to_nat (Z.of_nat (S (S n)) + -1)) with (S n) by lia.
  replace (Z.to_nat (Z.of_nat (S (S n)) + -2)) with n by lia.
  by rewrite fib_SS.
Qed.

Lemma fibonacci_extend_keep (s : list Z) (i : Z) :
  i < Z.of_nat (length s) → fibonacci_extend s i = s.
Proof. intros Hi. unfold fibonacci_extend. by rewrite bool_decide_false by lia. Qed.

Lemma fibonacci_advance_spec (k : string) (seqs : gmap string (list Z))
    (idxs : gmap string Z) (s : list Z) (i : Z) :
  seqs !! k = Some s → idxs !! k = Some i → (2 ≤ length s)%nat →
  fibonacci_advance k seqs idxs
    = Some (<[k := fibonacci_extend s (i + 1)]> seqs, <[k := i + 1]> idxs).
Proof.
  intros Hs Hi Hlen. unfold fibonacci_advance, fibonacci_extend.
  rewrite Hi. simpl. rewrite lookup_insert_eq. simpl. rewrite Hs. simpl.
  case_bool_decide.
  - rewrite (getitem_default s (-1)) by lia. simpl.
    by rewrite (getitem_default s (-2)) by lia.
  - by rewrite (insert_id seqs k s Hs).
Qed.

Lemma fibonacci_track_inv (cap : option Z) (ib flag : Z)
    (t : list Z * (list Z * Z)) :
  fibonacci_inv t → fibonacci_inv (fibonacci_track cap ib flag t).
Proof.
  destruct t as [bal [s i]]. unfold fibonacci_inv, fibonacci_track, fibonacci_progress.
  simpl. intros (Hne & Hs & Hlen & Hi).
  split; [by destruct bal|].
  case_bool_decide; simpl; [split_and!; [done|done|lia|lia]|].
  destruct (decide (Z.of_nat (length s) ≤ i + 1)).
  - rewrite fibonacci_extend_prefix by done.
    rewrite length_fib_prefix. split_and!; [done|lia|lia|lia].
  - rewrite fibonacci_extend_keep by lia. split_and!; [done|done|lia|lia].
Qed.

Lemma fibonacci_body_track (ib : Z) (r : row) (k : string)
    (st : fibonacci_state) (t : list Z * (list Z * Z)) :
  k ∈ bet_types → fibonacci_view k st = Some t → fibonacci_inv t →
  ∃ st', fibonacci_body ib r k st = Some st' ∧
         fibonacci_view k st' = Some (fibonacci_track None ib (flag_of r k) t) ∧
         ∀ k', k' ≠ k → fibonacci_view k' st' = fibonacci_view k' st.
Proof.
  intros Hk Hv (Hne & _ & Hlen & Hi). destruct st as [bals seqs idxs].
  unfold fibonacci_view in *. simpl in *.
  destruct (bals !! k) as [bal|] eqn:Hbal; [|done]. simpl in Hv.
  destruct (seqs !! k) as [s|] eqn:Hs; [|done]. simpl in Hv.
  destruct (idxs !! k) as [i|] eqn:Hidx; [|done].
  simpl in Hv. injection Hv as <-. simpl in *.
  unfold fibonacci_body, fibonacci_track, fibonacci_progress. simpl.
  rewrite Hidx, Hs, Hbal, (win_flag_bet_type r k Hk). simpl.
  rewrite (getitem_default s i) by lia. simpl.
  rewrite (getitem_last _ Hne). simpl.
  case_bool_decide; simpl.
  - eexists; (split_and!; [done| |]); simpl.
    + by rewrite !lookup_insert_eq, Hs.
    + intros k' Hne'. by rewrite !lookup_insert_ne.
  - rewrite (fibonacci_advance_spec k seqs idxs s i) by done. simpl.
    eexists; (split_and!; [done| |]); simpl.
    + by rewrite !lookup_insert_eq.
    + intros k' Hne'. by rewrite !lookup_insert_ne.
Qed.

Lemma fibonacci_limit_body_track (ib limit : Z) (r : row) (k : string)
    (st : fibonacci_limit_state) (t : list Z * (list Z * Z)) :
  k ∈ bet_types → fibonacci_limit_view limit k st = Some t → fibonacci_inv t →
  ∃ st', fibonacci_limit_body ib limit r k st = Some st' ∧
         fibonacci_limit_view limit k st'
           = Some (fibonacci_track (Some limit) ib (flag_of r k) t) ∧
         ∀ k', k' ≠ k →
           fibonacci_limit_view limit k' st' = fibonacci_limit_view limit k' st.
Proof.
  intros Hk Hv (Hne & _ & Hlen & Hi). destruct st as [res seqs idxs].
  unfold fibonacci_limit_view in *. simpl in *.
  destruct (res !! limit) as [inner|] eqn:Hres; [|done]. simpl in Hv.
  destruct (inner !! k) as [bal|] eqn:Hbal; [|done]. simpl in Hv.
  destruct (seqs !! k) as [s|] eqn:Hs; [|done]. simpl in Hv.
  destruct (idxs !! k) as [i|] eqn:Hidx; [|done].
  simpl in Hv. injection Hv as <-. simpl in *.
  unfold fibonacci_limit_body, fibonacci_track, fibonacci_progress. simpl.
  rewrite Hidx, Hs, Hres, (win_flag_bet_type r k Hk). simpl.
  rewrite (getitem_default s i) by lia. simpl.
  rewrite Hbal. simpl. rewrite (getitem_last _ Hne). simpl.
  case_bool_decide; simpl.
  - eexists; (split_and!; [done| |]); simpl.
    + rewrite !lookup_insert_eq. simpl. by rewrite !lookup_insert_eq, Hs.
    + intros k' Hne'. rewrite lookup_insert_eq. simpl. by rewrite !lookup_insert_ne.
  - rewrite (fibonacci_advance_spec k seqs idxs s i) by done. simpl.
    eexists; (split_and!; [done| |]); simpl.
    + rewrite !lookup_insert_eq. simpl. by rewrite !lookup_insert_eq.
    + intros k' Hne'. rewrite lookup_insert_eq. simpl. by rewrite !lookup_insert_ne.
Qed.

(** ** Reachable states *)

Lemma per_bet_type_lookup {V : Type} (v : V) (k : string) :
  k ∈ bet_types → per_bet_type v !! k = Some v.
Proof. revert k. apply bet_type_cases; reflexivity. Qed.

Lemma martingale_reach (ib : Z) (rows : list row) :
  ∃ st, martingale_run ib rows = Some st ∧
        tracked martingale_view (martingale_inv None ib) st
          (λ k, foldl (λ t r, martingale_track None ib (flag_of r k) t) ([0], ib) rows).
Proof.
  apply (rows_loop martingale_view (martingale_body ib)
           (λ r k, martingale_track None ib (flag_of r k)) (martingale_inv None ib)).
  - intros r k s t. apply martingale_body_track.
  - intros r k t. apply martingale_track_inv.
  - intros k Hk. unfold martingale_view, martingale_init. simpl.
    rewrite !per_bet_type_lookup by done. by split.
Qed.

Lemma d_alembert_reach (ib : Z) (rows : list row) :
  ∃ st, d_alembert_run ib rows = Some st ∧
        tracked d_alembert_view (d_alembert_inv ib) st
          (λ k, foldl (λ t r, d_alembert_track ib (flag_of r k) t) ([0], ib) rows).
Proof.
  apply (rows_loop d_alembert_view (d_alembert_body ib)
           (λ r k, d_alembert_track ib (flag_of r k)) (d_alembert_inv ib)).
  - intros r k s t. apply d_alembert_body_track.
  - intros r k t. apply d_alembert_track_inv.
  - intros k Hk. unfold d_alembert_view, d_alembert_init. simpl.
    rewrite !per_bet_type_lookup by done. split; [done|]. split; [done|]. simpl. lia.
Qed.

Lemma fibonacci_inv_init (bal : list Z) : bal ≠ [] → fibonacci_inv (bal, ([1; 1], 0)).
Proof. intros Hne. unfold fibonacci_inv. simpl. split_and!; [done|done|lia|lia|lia]. Qed.

Lemma fibonacci_reach (ib : Z) (rows : list row) :
  ∃ st, fibonacci_run ib rows = Some st ∧
        tracked fibonacci_view fibonacci_inv st
          (λ k, foldl (λ t r, fibonacci_track None ib (flag_of r k) t)
                      ([0], ([1; 1], 0)) rows).
Proof.
  apply (rows_loop fibonacci_view (fibonacci_body ib)
           (λ r k, fibonacci_track None ib (flag_of r k)) fibonacci_inv).
  - intros r k s t. apply fibonacci_body_track.
  - intros r k t. apply fibonacci_track_inv.
  - intros k Hk. unfold fibonacci_view, fibonacci_init. simpl.
    rewrite !per_bet_type_lookup by done. split; [done|].
    by apply fibonacci_inv_init.
Qed.

Lemma martingale_limit_reach (ib limit : Z) (rows : list row)
    (res : gmap Z (gmap string (list Z))) (inner : gmap string (list Z)) :
  res !! limit = Some inner →
  (∀ k, k ∈ bet_types → ∃ bal, inner !! k = Some bal ∧ bal ≠ []) →
  ∃ st, martingale_limit_run ib limit rows res = Some st ∧
        tracked (martingale_limit_view limit) (martingale_inv (Some limit) ib) st
          (λ k, foldl (λ t r, martingale_track (Some limit) ib (flag_of r k) t)
                      (default [] (inner !! k), ib) rows).
Proof.
  intros Hres Hinner.
  apply (rows_loop (martingale_limit_view limit) (martingale_limit_body ib limit)
           (λ r k, martingale_track (Some limit) ib (flag_of r k))
           (martingale_inv (Some limit) ib)).
  - intros r k s t. apply martingale_limit_body_track.
  - intros r k t. apply martingale_track_inv.
  - intros k Hk. unfold martingale_limit_view. simpl.
    destruct (Hinner k Hk) as (bal & Hbal & Hne).
    rewrite Hres. simpl. rewrite Hbal. simpl.
    rewrite per_bet_type_lookup by done. by split.
Qed.

Lemma fibonacci_limit_reach (ib limit : Z) (rows : list row)
    (res : gmap Z (gmap string (list Z))) (inner : gmap string (list Z)) :
  res !! limit = Some inner →
  (∀ k, k ∈ bet_types → ∃ bal, inner !! k = Some bal ∧ bal ≠ []) →
  ∃ st, fibonacci_limit_run ib limit rows res = Some st ∧
        tracked (fibonacci_limit_view limit) fibonacci_inv st
          (λ k, foldl (λ t r, fibonacci_track (Some limit) ib (flag_of r k) t)
                      (default [] (inner !! k), ([1; 1], 0)) rows).
Proof.
  intros Hres Hinner.
  apply (rows_loop (fibonacci_limit_view limit) (fibonacci_limit_body ib limit)
           (λ r k, fibonacci_track (Some limit) ib (flag_of r k)) fibonacci_inv).
  - intros r k s t. apply fibonacci_limit_body_track.
  - intros r k t. apply fibonacci_track_inv.
  - intros k Hk. unfold fibonacci_limit_view. simpl.
    destruct (Hinner k Hk) as (bal & Hbal & Hne).
    rewrite Hres. simpl. rewrite Hbal. simpl.
    rewrite !per_bet_type_lookup by done. split; [done|].
    by apply fibonacci_inv_init.
Qed.

(** ** Trajectories grow by one balance per spin *)

Section appending_tracks.
Context {T R : Type}.
Variable bal : T → list Z.
Variable step : R → T → T.
Hypothesis step_appends : ∀ r t, ∃ x, bal (step r t) = bal t ++ [x].

Lemma foldl_appends (rows : list R) (t0 : T) :
  ∃ more, bal (foldl (λ t r, step r t) t0 rows) = bal t0 ++ more ∧
          length more = length rows.
Proof.
  revert t0. induction rows as [|r rows IH]; intros t0; simpl.
  - exists []. by rewrite app_nil_r.
  - destruct (IH (step r t0)) as (more & -> & Hlen).
    destruct (step_appends r t0) as (x & ->).
    exists (x :: more). rewrite <- app_assoc. simpl. by rewrite Hlen.
Qed.

Lemma foldl_prefix (pre post : list R) (t0 : T) :
  bal (foldl (λ t r, step r t) t0 pre)
    `prefix_of` bal (foldl (λ t r, step r t) t0 (pre ++ post)).
Proof.
  rewrite foldl_app.
  destruct (foldl_appends post (foldl (λ t r, step r t) t0 pre)) as (more & -> & _).
  by eexists.
Qed.

Lemma foldl_length (rows : list R) (t0 : T) :
  length (bal (foldl (λ t r, step r t) t0 rows)) = (length (bal t0) + length rows)%nat.
Proof.
  destruct (foldl_appends rows t0) as (more & -> & <-). by rewrite length_app.
Qed.
End appending_tracks.


Lemma foldl_snoc {A B : Type} (f : A → B → A) (a : A) (l : list B) (x : B) :
  foldl f a (l ++ [x]) = f (foldl f a l) x.
Proof. by rewrite foldl_app. Qed.

Lemma martingale_track_appends (cap : option Z) (ib flag : Z) (t : list Z * Z) :
  ∃ x, (martingale_track cap ib flag t).1 = t.1 ++ [x].
Proof. unfold martingale_track. case_bool_decide; simpl; eauto. Qed.

Lemma d_alembert_track_appends (ib flag : Z) (t : list Z * Z) :
  ∃ x, (d_alembert_track ib flag t).1 = t.1 ++ [x].
Proof. unfold d_alembert_track. case_bool_decide; simpl; eauto. Qed.

Lemma fibonacci_track_appends (cap : option Z) (ib flag : Z)
    (t : list Z * (list Z * Z)) :
  ∃ x, (fibonacci_track cap ib flag t).1 = t.1 ++ [x].
Proof. unfold fibonacci_track. simpl. eauto. Qed.

Lemma last_balance_Some (bal : list Z) : bal ≠ [] → last bal = Some (last_balance bal).
Proof.
  intros Hne. unfold last_balance.
  destruct (last bal) eqn:Hl; [done|]. by apply last_None in Hl.
Qed.

(** ** Reading a view back into the dictionaries *)

Lemma martingale_view_Some (k : string) (st : martingale_state) (t : list Z * Z) :
  martingale_view k st = Some t →
  m_balances st !! k = Some t.1 ∧ m_bets st !! k = Some t.2.
Proof.
  unfold martingale_view. intros Hv.
  destruct (m_balances st !! k); [|done]. destruct (m_bets st !! k); [|done].
  simpl in Hv. by simplify_eq.
Qed.

Lemma d_alembert_view_Some (k : string) (st : d_alembert_state) (t : list Z * Z) :
  d_alembert_view k st = Some t →
  d_balances st !! k = Some t.1 ∧ d_bets st !! k = Some t.2.
Proof.
  unfold d_alembert_view. intros Hv.
  destruct (d_balances st !! k); [|done]. destruct (d_bets st !! k); [|done].
  simpl in Hv. by simplify_eq.
Qed.

Lemma fibonacci_view_Some (k : string) (st : fibonacci_state)
    (t : list Z * (list Z * Z)) :
  fibonacci_view k st = Some t →
  f_balances st !! k = Some t.1 ∧ f_sequences st !! k = Some t.2.1 ∧
  f_indices st !! k = Some t.2.2.
Proof.
  unfold fibonacci_view. intros Hv.
  destruct (f_balances st !! k); [|done]. destruct (f_sequences st !! k); [|done].
  destruct (f_indices st !! k); [|done].
  simpl in Hv. by simplify_eq.
Qed.

Lemma martingale_limit_view_Some (limit : Z) (k : string)
    (st : martingale_limit_state) (t : list Z * Z) :
  martingale_limit_view limit k st = Some t →
  (∃ inner, ml_results st !! limit = Some inner ∧ inner !! k = Some t.1) ∧
  ml_bets st !! k = Some t.2.
Proof.
  unfold martingale_limit_view. intros Hv.
  destruct (ml_results st !! limit) as [inner|]; [|done]. simpl in Hv.
  destruct (inner !! k) eqn:Hbal; [|done]. destruct (ml_bets st !! k); [|done].
  simpl in Hv. simplify_eq. split; [|done]. by exists inner.
Qed.

Lemma fibonacci_limit_view_Some (limit : Z) (k : string)
    (st : fibonacci_limit_state) (t : list Z * (list Z * Z)) :
  fibonacci_limit_view limit k st = Some t →
  (∃ inner, fl_results st !! limit = Some inner ∧ inner !! k = Some t.1) ∧
  fl_sequences st !! k = Some t.2.1 ∧ fl_indices st !! k = Some t.2.2.
Proof.
  unfold fibonacci_limit_view. intros Hv.
  destruct (fl_results st !! limit) as [inner|]; [|done]. simpl in Hv.
  destruct (inner !! k) eqn:Hbal; [|done].
  destruct (fl_sequences st !! k); [|done]. destruct (fl_indices st !! k); [|done].
  simpl in Hv. simplify_eq. split; [|done]. by exists inner.
Qed.

(** ** Martingale *)

(** C2. In [martingale_strategy] every bet type has a bet that starts at
    [initial_bet]; on a spin whose flag is a win the balance appended is the
    previous balance plus the current bet and the bet is reset to
    [initial_bet]; otherwise the balance appended is the previous balance
    minus the current bet and the next bet is twice the current bet.  The
    balances appended are the ones of the trajectory returned. *)
Theorem martingale_bet_progression (ib : Z) (pre : list row) (r : row)
    (post : list row) (k : string) :
  k ∈ bet_types →
  ∃ st st' res bal prev bet flag traj,
    martingale_run ib pre = Some st ∧
    martingale_run ib (pre ++ [r]) = Some st' ∧
    martingale_strategy (pre ++ r :: post) ib = Some res ∧
    m_balances st !! k = Some bal ∧ length bal = S (length pre) ∧
    last bal = Some prev ∧
    m_bets st !! k = Some bet ∧ (pre = [] → bet = ib) ∧
    win_flag r k = Some flag ∧
    (flag = 1 →
       m_balances st' !! k = Some (bal ++ [prev + bet]) ∧
       m_bets st' !! k = Some ib) ∧
    (flag ≠ 1 →
       m_balances st' !! k = Some (bal ++ [prev - bet]) ∧
       m_bets st' !! k = Some (bet * 2)) ∧
    res !! k = Some traj ∧
    (∃ bal', m_balances st' !! k = Some bal' ∧ bal' `prefix_of` traj).
Proof.
  intros Hk.
  pose (step := λ (r : row), martingale_track None ib (flag_of r k)).
  assert (Happ : ∀ r t, ∃ x, (step r t).1 = t.1 ++ [x])
    by (intros; apply martingale_track_appends).
  destruct (martingale_reach ib pre) as (st & Hst & Htr).
  destruct (martingale_reach ib (pre ++ [r])) as (st' & Hst' & Htr').
  destruct (martingale_reach ib (pre ++ r :: post)) as (fin & Hfin & Htrf).
  destruct (Htr k Hk) as [Hv [Hne _]].
  destruct (Htr' k Hk) as [Hv' _]. destruct (Htrf k Hk) as [Hvf _].
  apply martingale_view_Some in Hv as [Hbal Hbet].
  apply martingale_view_Some in Hv' as [Hbal' Hbet'].
  apply martingale_view_Some in Hvf as [Hbalf _].
  rewrite foldl_snoc in Hbal', Hbet'.
  pose proof (foldl_length fst step Happ pre ([0], ib)) as Hlen.
  pose proof (foldl_prefix fst step Happ (pre ++ [r]) post ([0], ib)) as Hpre.
  rewrite <- app_assoc, foldl_snoc in Hpre. simpl in Hpre.
  set (t := foldl (λ t r, martingale_track None ib (flag_of r k) t) ([0], ib) pre) in *.
  exists st, st', (m_balances fin), t.1, (last_balance t.1), t.2, (flag_of r k),
    (foldl (λ t r, martingale_track None ib (flag_of r k) t) ([0], ib)
       (pre ++ r :: post)).1.
  unfold martingale_strategy. rewrite Hfin. simpl.
  split_and!; try done.
  - by apply last_balance_Some.
  - by intros ->.
  - by apply win_flag_bet_type.
  - intros Hwin. revert Hbal' Hbet'. unfold martingale_track.
    rewrite bool_decide_true by done. simpl. done.
  - intros Hloss. revert Hbal' Hbet'. unfold martingale_track.
    rewrite bool_decide_false by done. simpl. done.
  - eexists. split; [exact Hbal'|]. exact Hpre.
Qed.

Lemma martingale_bet_progression_witness :
  "red" ∈ bet_types ∧
  ∃ st st' bal prev bet,
    martingale_run 10 [Row 0 1 0 1] = Some st ∧
    martingale_run 10 ([Row 0 1 0 1] ++ [Row 0 1 1 0]) = Some st' ∧
    m_balances st !! "red" = Some bal ∧ last bal = Some prev ∧
    m_bets st !! "red" = Some bet ∧
    m_balances st' !! "red" = Some (bal ++ [prev - bet]) ∧
    m_bets st' !! "red" = Some (bet * 2).
Proof.
  split; [compute_done|].
  destruct (martingale_bet_progression 10 [Row 0 1 0 1] (Row 0 1 1 0) [Row 1 0 1 0] "red")
    as (st & st' & res & bal & prev & bet & flag & traj & Hst & Hst' & _ & Hbal & _
        & Hprev & Hbet & _ & Hflag & _ & Hloss & _); [compute_done|].
  vm_compute in Hflag. injection Hflag as <-.
  destruct Hloss as [Hbal' Hbet']; [done|].
  exists st, st', bal, prev, bet.
  exact (conj Hst (conj Hst' (conj Hbal (conj Hprev (conj Hbet (conj Hbal' Hbet')))))).
Defined.

(** ** The loop over the table limits *)

Lemma dict_comprehension_lookup {K V : Type} `{Countable K} (f : K → V)
    (keys : list K) (k : K) :
  k ∈ keys → dict_comprehension f keys !! k = Some (f k).
Proof.
  unfold dict_comprehension. generalize (∅ : gmap K V).
  induction keys as [|k' keys IH] using rev_ind; intros m Hk.
  - by apply elem_of_nil in Hk.
  - rewrite foldl_app. simpl.
    destruct (decide (k = k')) as [->|Hne]; [by rewrite lookup_insert_eq|].
    rewrite lookup_insert_ne by done. apply IH.
    apply elem_of_app in Hk as [Hk|Hk]; [done|].
    apply list_elem_of_singleton in Hk. done.
Qed.

Lemma init_results_lookup (tls : list Z) (limit : Z) :
  limit ∈ tls → init_results tls !! limit = Some (per_bet_type [0]).
Proof. intros Hin. unfold init_results. by rewrite dict_comprehension_lookup. Qed.

Lemma init_results_wf (tls : list Z) (limit : Z) :
  limit ∈ tls → wf_results (init_results tls) limit.
Proof.
  intros Hin. exists (per_bet_type [0]). split; [by apply init_results_lookup|].
  intros k Hk. exists [0]. by rewrite per_bet_type_lookup.
Qed.

Section table_limit_passes.
Variable pass : Z → gmap Z (gmap string (list Z))
                → option (gmap Z (gmap string (list Z))).
Variable n : nat.

Hypothesis pass_spec : ∀ limit res,
  wf_results res limit →
  ∃ res', pass limit res = Some res' ∧
    (∀ limit', limit' ≠ limit → res' !! limit' = res !! limit') ∧
    (∀ inner k bal,
       res !! limit = Some inner → k ∈ bet_types → inner !! k = Some bal →
       ∃ inner' more, res' !! limit = Some inner' ∧
                      inner' !! k = Some (bal ++ more) ∧ length more = n).

Lemma pass_wf (limit limit' : Z) (res res' : gmap Z (gmap string (list Z))) :
  wf_results res limit → pass limit res = Some res' →
  wf_results res limit' → wf_results res' limit'.
Proof.
  intros Hwf Hpass Hwf'.
  destruct (pass_spec limit res Hwf) as (res1 & Hres1 & Hframe & Hgrow).
  rewrite Hpass in Hres1. injection Hres1 as <-.
  destruct (decide (limit' = limit)) as [->|Hne].
  - destruct Hwf as (inner & Hinner & Hbals).
    destruct (Hbals "red") as (bal0 & Hbal0 & _); [compute_done|].
    destruct (Hgrow inner "red" bal0 Hinner) as (inner' & _ & Hinner' & _);
      [compute_done|done|].
    exists inner'. split; [done|]. intros k Hk.
    destruct (Hbals k Hk) as (bal & Hbal & Hne).
    destruct (Hgrow inner k bal Hinner Hk Hbal) as (inner2 & more & Hi2 & Hb2 & _).
    rewrite Hinner' in Hi2. injection Hi2 as <-.
    exists (bal ++ more). split; [done|]. by destruct bal.
  - destruct Hwf' as (inner & Hinner & Hbals).
    exists inner. by rewrite Hframe.
Qed.

Lemma passes_total (tl : list Z) (res : gmap Z (gmap string (list Z))) :
  (∀ limit, limit ∈ tl → wf_results res limit) →
  ∃ res', for_each pass tl res = Some res' ∧
    (∀ limit, limit ∉ tl → res' !! limit = res !! limit) ∧
    (∀ limit, wf_results res limit → wf_results res' limit).
Proof.
  revert res. induction tl as [|l tl IH]; intros res Hwf.
  - by exists res.
  - rewrite for_each_cons.
    destruct (pass_spec l res) as (res1 & Hres1 & Hframe & _); [apply Hwf; left|].
    rewrite Hres1. simpl.
    destruct (IH res1) as (res' & Hrun & Hout & Hkeep).
    { intros l' Hl'. eapply pass_wf; [|done|]; apply Hwf; [left|by right]. }
    exists res'. split_and!; [done| |].
    + intros l' [Hne Hl']%not_elem_of_cons. rewrite Hout by done. by apply Hframe.
    + intros l' Hl'. apply Hkeep. eapply pass_wf; [|done..]. apply Hwf. left.
Qed.


Lemma passes_extend (tl : list Z) (res : gmap Z (gmap string (list Z)))
    (limit : Z) (inner : gmap string (list Z)) (k : string) (bal : list Z) :
  (∀ limit', limit' ∈ tl → wf_results res limit') →
  res !! limit = Some inner → k ∈ bet_types → inner !! k = Some bal →
  ∃ res' inner' more,
    for_each pass tl res = Some res' ∧ res' !! limit = Some inner' ∧
    inner' !! k = Some (bal ++ more).
Proof.
  revert res inner bal. induction tl as [|l tl IH]; intros res inner bal Hwf Hinner Hk Hbal.
  - exists res, inner, []. by rewrite app_nil_r.
  - rewrite for_each_cons.
    destruct (pass_spec l res) as (res1 & Hres1 & Hframe & Hgrow); [apply Hwf; left|].
    rewrite Hres1. simpl.
    assert (Hwf1 : ∀ l', l' ∈ tl → wf_results res1 l').
    { intros l' Hl'. eapply pass_wf; [|done|]; apply Hwf; [left|by right]. }
    destruct (decide (limit = l)) as [->|Hne].
    + destruct (Hgrow inner k bal Hinner Hk Hbal) as (inner1 & more1 & Hi1 & Hb1 & _).
      destruct (IH res1 inner1 (bal ++ more1) Hwf1 Hi1 Hk Hb1)
        as (res' & inner' & more & Hrun & Hi' & Hb').
      exists res', inner', (more1 ++ more). by rewrite app_assoc.
    + apply (IH res1 inner bal Hwf1); [|done..]. by rewrite Hframe.
Qed.

Lemma passes_split (tl1 : list Z) (limit : Z) (tl2 : list Z)
    (res : gmap Z (gmap string (list Z))) :
  (∀ l, l ∈ tl1 ++ limit :: tl2 → wf_results res l) →
  ∃ res0 res1 res2,
    for_each pass tl1 res = Some res0 ∧ wf_results res0 limit ∧
    pass limit res0 = Some res1 ∧
    for_each pass (tl1 ++ limit :: tl2) res = Some res2 ∧
    ∀ inner1 k bal1,
      res1 !! limit = Some inner1 → k ∈ bet_types → inner1 !! k = Some bal1 →
      ∃ inner2 more, res2 !! limit = Some inner2 ∧ inner2 !! k = Some (bal1 ++ more).
Proof.
  intros Hwf.
  destruct (passes_total tl1 res) as (res0 & Hrun0 & _ & Hkeep0).
  { intros l Hl. apply Hwf, elem_of_app. by left. }
  assert (Hwf0 : ∀ l, l ∈ limit :: tl2 → wf_results res0 l).
  { intros l Hl. apply Hkeep0, Hwf, elem_of_app. by right. }
  destruct (pass_spec limit res0) as (res1 & Hrun1 & _); [apply Hwf0; left|].
  assert (Hwf1 : ∀ l, l ∈ tl2 → wf_results res1 l).
  { intros l Hl. eapply pass_wf; [|done|]; apply Hwf0; [left|by right]. }
  destruct (passes_total tl2 res1 Hwf1) as (res2 & Hrun2 & _).
  exists res0, res1, res2. split_and!; [done|apply Hwf0; left|done| |].
  - rewrite for_each_app, Hrun0. simpl. by rewrite Hrun1.
  - intros inner1 k bal1 Hi1 Hk Hb1.
    destruct (passes_extend tl2 res1 limit inner1 k bal1 Hwf1 Hi1 Hk Hb1)
      as (res2' & inner2 & more & Hrun2' & Hi2 & Hb2).
    rewrite Hrun2 in Hrun2'. injection Hrun2' as <-. by exists inner2, more.
Qed.
End table_limit_passes.

Lemma martingale_limit_body_frame (ib limit : Z) (r : row) (k : string)
    (st st' : martingale_limit_state) (limit' : Z) :
  martingale_limit_body ib limit r k st = Some st' → limit' ≠ limit →
  ml_results st' !! limit' = ml_results st !! limit'.
Proof.
  unfold martingale_limit_body. intros Hbody Hne.
  repeat (apply bind_Some in Hbody as (? & ? & Hbody)).
  case_bool_decide.
  - injection Hbody as <-. simpl. by rewrite lookup_insert_ne.
  - apply bind_Some in Hbody as (? & ? & Hbody).
    injection Hbody as <-. simpl. by rewrite lookup_insert_ne.
Qed.

Lemma fibonacci_limit_body_frame (ib limit : Z) (r : row) (k : string)
    (st st' : fibonacci_limit_state) (limit' : Z) :
  fibonacci_limit_body ib limit r k st = Some st' → limit' ≠ limit →
  fl_results st' !! limit' = fl_results st !! limit'.
Proof.
  unfold fibonacci_limit_body. intros Hbody Hne.
  repeat (apply bind_Some in Hbody as (? & ? & Hbody)).
  case_bool_decide.
  - injection Hbody as <-. simpl. by rewrite lookup_insert_ne.
  - apply bind_Some in Hbody as ([? ?] & ? & Hbody).
    injection Hbody as <-. simpl. by rewrite lookup_insert_ne.
Qed.

Lemma martingale_limit_pass_spec (data : list row) (ib limit : Z)
    (res : gmap Z (gmap string (list Z))) :
  wf_results res limit →
  ∃ res', martingale_limit_pass data ib limit res = Some res' ∧
    (∀ limit', limit' ≠ limit → res' !! limit' = res !! limit') ∧
    (∀ inner k bal,
       res !! limit = Some inner → k ∈ bet_types → inner !! k = Some bal →
       ∃ inner' more, res' !! limit = Some inner' ∧
                      inner' !! k = Some (bal ++ more) ∧ length more = length data).
Proof.
  intros (inner & Hinner & Hbals).
  destruct (martingale_limit_reach ib limit data res inner Hinner Hbals)
    as (st & Hst & Htr).
  exists (ml_results st). unfold martingale_limit_pass. rewrite Hst. simpl.
  split_and!; [done| |].
  - intros limit' Hne. unfold martingale_limit_run in Hst.
    apply (for_each_preserves _ (λ s, ml_results s !! limit' = res !! limit')) in Hst;
      [done| |done].
    intros r s s' Hrow Hs.
    apply (for_each_preserves _ (λ s, ml_results s !! limit' = res !! limit')) in Hrow;
      [done| |done].
    intros k s1 s2 Hbody Hs1.
    by rewrite (martingale_limit_body_frame _ _ _ _ _ _ _ Hbody Hne).
  - intros inner0 k bal Hinner0 Hk Hbal. rewrite Hinner in Hinner0. injection Hinner0 as <-.
    destruct (Htr k Hk) as [Hv _].
    apply martingale_limit_view_Some in Hv as [(inner' & Hinner' & Hbal') _].
    rewrite Hbal in Hbal'. simpl in Hbal'.
    destruct (foldl_appends fst (λ r, martingale_track (Some limit) ib (flag_of r k))
                (λ r t, martingale_track_appends _ _ _ t) data (bal, ib))
      as (more & Hmore & Hlen).
    rewrite Hmore in Hbal'. by exists inner', more.
Qed.

Lemma fibonacci_limit_pass_spec (data : list row) (ib limit : Z)
    (res : gmap Z (gmap string (list Z))) :
  wf_results res limit →
  ∃ res', fibonacci_limit_pass data ib limit res = Some res' ∧
    (∀ limit', limit' ≠ limit → res' !! limit' = res !! limit') ∧
    (∀ inner k bal,
       res !! limit = Some inner → k ∈ bet_types → inner !! k = Some bal →
       ∃ inner' more, res' !! limit = Some inner' ∧
                      inner' !! k = Some (bal ++ more) ∧ length more = length data).
Proof.
  intros (inner & Hinner & Hbals).
  destruct (fibonacci_limit_reach ib limit data res inner Hinner Hbals)
    as (st & Hst & Htr).
  exists (fl_results st). unfold fibonacci_limit_pass. rewrite Hst. simpl.
  split_and!; [done| |].
  - intros limit' Hne. unfold fibonacci_limit_run in Hst.
    apply (for_each_preserves _ (λ s, fl_results s !! limit' = res !! limit')) in Hst;
      [done| |done].
    intros r s s' Hrow Hs.
    apply (for_each_preserves _ (λ s, fl_results s !! limit' = res !! limit')) in Hrow;
      [done| |done].
    intros k s1 s2 Hbody Hs1.
    by rewrite (fibonacci_limit_body_frame _ _ _ _ _ _ _ Hbody Hne).
  - intros inner0 k bal Hinner0 Hk Hbal. rewrite Hinner in Hinner0. injection Hinner0 as <-.
    destruct (Htr k Hk) as [Hv _].
    apply fibonacci_limit_view_Some in Hv as [(inner' & Hinner' & Hbal') _].
    rewrite Hbal in Hbal'. simpl in Hbal'.
    destruct (foldl_appends fst (λ r, fibonacci_track (Some limit) ib (flag_of r k))
                (λ r t, fibonacci_track_appends _ _ _ t) data (bal, ([1; 1], 0)))
      as (more & Hmore & Hlen).
    rewrite Hmore in Hbal'. by exists inner', more.
Qed.

Lemma fibonacci_limits_before (data : list row) (ib : Z) (tl1 : list Z)
    (limit : Z) (tl2 : list Z) :
  ∃ res0, for_each (fibonacci_limit_pass data ib) tl1
            (init_results (tl1 ++ limit :: tl2)) = Some res0 ∧
          wf_results res0 limit.
Proof.
  destruct (passes_total (fibonacci_limit_pass data ib) (length data)
              (fibonacci_limit_pass_spec data ib) tl1
              (init_results (tl1 ++ limit :: tl2))) as (res0 & Hrun & _ & Hkeep).
  - intros l Hl. apply init_results_wf. apply elem_of_app. by left.
  - exists res0. split; [done|]. apply Hkeep, init_results_wf.
    apply elem_of_app. right. left.
Qed.

Lemma fibonacci_limits_total (data : list row) (ib : Z) (tls : list Z) :
  is_Some (fibonacci_strategy_with_table_limits data ib tls).
Proof.
  destruct (passes_total (fibonacci_limit_pass data ib) (length data)
              (fibonacci_limit_pass_spec data ib) tls (init_results tls))
    as (res & Hrun & _); [intros l Hl; by apply init_results_wf|].
  by exists res.
Qed.

(** ** Martingale under a table limit *)

(** C5, as the code has it.  In the simulation of a table limit [limit]
    the wager of every spin is [min(current_bet, limit)], which never
    exceeds [limit]; a win resets the bet to [initial_bet], a loss sets it
    to [min(current_bet * 2, limit)]; and when [limit = initial_bet] with
    [0 ≤ initial_bet], every wager is [initial_bet].  The balances appended
    are the ones of the trajectory returned under [limit]. *)
Theorem martingale_limit_wager_capped (ib : Z) (tl1 : list Z) (limit : Z)
    (tl2 : list Z) (pre : list row) (r : row) (post : list row) (k : string) :
  k ∈ bet_types →
  ∃ res0 st st' res inner inner' bal prev cur flag traj,
    for_each (martingale_limit_pass (pre ++ r :: post) ib) tl1
      (init_results (tl1 ++ limit :: tl2)) = Some res0 ∧
    martingale_limit_run ib limit pre res0 = Some st ∧
    martingale_limit_run ib limit (pre ++ [r]) res0 = Some st' ∧
    martingale_strategy_with_table_limits (pre ++ r :: post) ib (tl1 ++ limit :: tl2)
      = Some res ∧
    ml_results st !! limit = Some inner ∧ inner !! k = Some bal ∧
    last bal = Some prev ∧
    ml_bets st !! k = Some cur ∧ (pre = [] → cur = ib) ∧
    win_flag r k = Some flag ∧
    Z.min cur limit ≤ limit ∧
    ml_results st' !! limit = Some inner' ∧
    (flag = 1 →
       inner' !! k = Some (bal ++ [prev + Z.min cur limit]) ∧
       ml_bets st' !! k = Some ib) ∧
    (flag ≠ 1 →
       inner' !! k = Some (bal ++ [prev - Z.min cur limit]) ∧
       ml_bets st' !! k = Some (Z.min (cur * 2) limit)) ∧
    (limit = ib → 0 ≤ ib → Z.min cur limit = ib) ∧
    res !! limit ≫= (.!! k) = Some traj ∧
    (∃ bal', inner' !! k = Some bal' ∧ bal' `prefix_of` traj).
Proof.
  intros Hk.
  set (data := pre ++ r :: post).
  pose (step := λ (r : row), martingale_track (Some limit) ib (flag_of r k)).
  assert (Happ : ∀ r t, ∃ x, (step r t).1 = t.1 ++ [x])
    by (intros; apply martingale_track_appends).
  destruct (passes_split (martingale_limit_pass data ib) (length data)
              (martingale_limit_pass_spec data ib) tl1 limit tl2
              (init_results (tl1 ++ limit :: tl2)))
    as (res0 & res1 & res2 & Hrun0 & Hwf0 & Hpass & Hall & Hext);
    [intros l Hl; by apply init_results_wf|].
  destruct Hwf0 as (inner0 & Hinner0 & Hbals0).
  destruct (martingale_limit_reach ib limit pre res0 inner0 Hinner0 Hbals0)
    as (st & Hst & Htr).
  destruct (martingale_limit_reach ib limit (pre ++ [r]) res0 inner0 Hinner0 Hbals0)
    as (st' & Hst' & Htr').
  destruct (martingale_limit_reach ib limit data res0 inner0 Hinner0 Hbals0)
    as (fin & Hfin & Htrf).
  unfold martingale_limit_pass in Hpass. rewrite Hfin in Hpass. injection Hpass as <-.
  destruct (Htr k Hk) as [Hv [Hne Hflat]].
  destruct (Htr' k Hk) as [Hv' _]. destruct (Htrf k Hk) as [Hvf _].
  apply martingale_limit_view_Some in Hv as [(inner & Hinner & Hbal) Hbet].
  apply martingale_limit_view_Some in Hv' as [(inner' & Hinner' & Hbal') Hbet'].
  apply martingale_limit_view_Some in Hvf as [(innerf & Hinnerf & Hbalf) _].
  rewrite foldl_snoc in Hbal', Hbet'.
  pose proof (foldl_prefix fst step Happ (pre ++ [r]) post
                (default [] (inner0 !! k), ib)) as Hpre.
  rewrite <- app_assoc, foldl_snoc in Hpre. simpl in Hpre. fold data in Hpre.
  destruct (Hext innerf k _ Hinnerf Hk Hbalf) as (inner2 & more & Hinner2 & Htraj).
  set (t := foldl (λ t r, martingale_track (Some limit) ib (flag_of r k) t)
              (default [] (inner0 !! k), ib) pre) in *.
  exists res0, st, st', res2, inner, inner', t.1, (last_balance t.1), t.2,
    (flag_of r k). eexists.
  split_and!; try done.
  - by apply last_balance_Some.
  - by intros ->.
  - by apply win_flag_bet_type.
  - lia.
  - intros Hwin. revert Hbal' Hbet'. unfold martingale_track.
    rewrite bool_decide_true by done. simpl. done.
  - intros Hloss. revert Hbal' Hbet'. unfold martingale_track.
    rewrite bool_decide_false by done. simpl. done.
  - intros -> Hib. rewrite (Hflat eq_refl Hib). lia.
  - rewrite Hinner2. simpl. exact Htraj.
  - eexists. split; [exact Hbal'|].
    etrans; [exact Hpre|]. by eexists.
Qed.

Lemma martingale_limit_wager_capped_witness :
  "red" ∈ bet_types ∧ 0 ≤ 10 ∧
  ∃ res0 st cur,
    for_each (martingale_limit_pass ([Row 0 1 0 1] ++ Row 0 1 1 0 :: [Row 1 0 1 0]) 10)
      [50] (init_results ([50] ++ 10 :: [100])) = Some res0 ∧
    martingale_limit_run 10 10 [Row 0 1 0 1] res0 = Some st ∧
    ml_bets st !! "red" = Some cur ∧
    Z.min cur 10 ≤ 10 ∧ Z.min cur 10 = 10.
Proof.
  split; [compute_done|]. split; [lia|].
  destruct (martingale_limit_wager_capped 10 [50] 10 [100] [Row 0 1 0 1] (Row 0 1 1 0)
              [Row 1 0 1 0] "red")
    as (res0 & st & st' & res & inner & inner' & bal & prev & cur & flag & traj
        & Hres0 & Hst & _ & _ & _ & _ & _ & Hcur & _ & _ & Hcap & _ & _ & _ & Hflat & _);
    [compute_done|].
  exists res0, st, cur.
  refine (conj Hres0 (conj Hst (conj Hcur (conj Hcap _)))).
  apply Hflat; [reflexivity|lia].
Defined.

(** Counterexample to C5 as stated, for a negative initial bet: with
    [limit = initial_bet = -5], the wager after one losing spin is
    [min(-10, -5) = -10], not the initial bet; the trajectory moves by 5
    and then by 10. *)
Lemma martingale_limit_flat_fails :
  (martingale_limit_run (-5) (-5) [Row 0 0 0 0] (init_results [-5])
     ≫= λ st, (λ cur, Z.min cur (-5)) <$> ml_bets st !! "red") = Some (-10) ∧
  (martingale_strategy_with_table_limits [Row 0 0 0 0; Row 0 0 0 0] (-5) [-5]
     ≫= λ res, res !! (-5) ≫= (.!! "red")) = Some [0; 5; 15] ∧
  -10 ≠ -5.
Proof. split_and!; [reflexivity|reflexivity|lia]. Qed.

(** ** Fibonacci *)

Lemma fibonacci_track_progress (cap : option Z) (ib : Z) (k : string)
    (rows : list row) (t : list Z * (list Z * Z)) :
  (foldl (λ t r, fibonacci_track cap ib (flag_of r k) t) t rows).2
  = foldl (λ p r, fibonacci_progress (flag_of r k) p) t.2 rows.
Proof. revert t. induction rows as [|r rows IH]; intros t; simpl; [done|]. by rewrite IH. Qed.

Lemma fibonacci_extend_app (s : list Z) (i : Z) : ∃ ext, fibonacci_extend s i = s ++ ext.
Proof.
  unfold fibonacci_extend. case_bool_decide; [by eexists|].
  exists []. by rewrite app_nil_r.
Qed.

Lemma fibonacci_progress_extends (k : string) (rows : list row) (p : list Z * Z) :
  p.1 `prefix_of` (foldl (λ p r, fibonacci_progress (flag_of r k) p) p rows).1.
Proof.
  revert p. induction rows as [|r rows IH]; intros p; simpl; [done|].
  etrans; [|apply IH]. unfold fibonacci_progress.
  case_bool_decide; simpl; [done|]. apply fibonacci_extend_app.
Qed.

Lemma fibonacci_progress_streak (k : string) (rows : list row) (p : list Z * Z) :
  k ∈ bet_types → losing_streak k rows →
  (foldl (λ p r, fibonacci_progress (flag_of r k) p) p rows).2
  = p.2 + Z.of_nat (length rows).
Proof.
  intros Hk Hlose. revert p.
  induction Hlose as [|r rows Hr Hrows IH]; intros p; simpl; [lia|].
  rewrite IH. unfold fibonacci_progress.
  rewrite (win_flag_bet_type r k Hk) in Hr.
  rewrite bool_decide_false by congruence. simpl. lia.
Qed.

Lemma fibonacci_inv_wager (t : list Z * (list Z * Z)) :
  fibonacci_inv t → getitem t.2.1 t.2.2 = Some (fib (Z.to_nat t.2.2)).
Proof.
  intros (_ & Hs & _ & Hi). rewrite getitem_nonneg by lia.
  rewrite Hs. apply fib_prefix_lookup. lia.
Qed.

Lemma fib_prefix_mono (n j1 j2 : nat) (a b : Z) :
  (j1 ≤ j2)%nat → fib_prefix n !! j1 = Some a → fib_prefix n !! j2 = Some b → a ≤ b.
Proof.
  intros Hle H1 H2.
  pose proof (lookup_lt_Some _ _ _ H1) as Hl1.
  pose proof (lookup_lt_Some _ _ _ H2) as Hl2.
  rewrite length_fib_prefix in Hl1, Hl2.
  rewrite fib_prefix_lookup in H1, H2 by done. simplify_eq. by apply fib_mono.
Qed.

Lemma fib_prefix_recurrence (n j : nat) (a b c : Z) :
  fib_prefix n !! j = Some a → fib_prefix n !! S j = Some b →
  fib_prefix n !! S (S j) = Some c → c = b + a.
Proof.
  intros H1 H2 H3.
  pose proof (lookup_lt_Some _ _ _ H3) as Hl. rewrite length_fib_prefix in Hl.
  rewrite fib_prefix_lookup in H1, H2, H3 by lia. simplify_eq. apply fib_SS.
Qed.

(** C4. Throughout a run of [fibonacci_strategy] the sequence of every bet
    type is a prefix of the classic Fibonacci sequence seeded 1, 1 (each
    term from the third on is the sum of the two before it), it is
    non-decreasing, and the sequence of a later moment of the run extends
    the one of an earlier moment. *)
Theorem fibonacci_sequence_invariant (ib : Z) (pre more : list row) (k : string) :
  k ∈ bet_types →
  ∃ st st2 s s2,
    fibonacci_run ib pre = Some st ∧
    fibonacci_run ib (pre ++ more) = Some st2 ∧
    f_sequences st !! k = Some s ∧ f_sequences st2 !! k = Some s2 ∧
    s = fib_prefix (length s) ∧
    s !! 0%nat = Some 1 ∧ s !! 1%nat = Some 1 ∧
    (∀ j a b c, s !! j = Some a → s !! S j = Some b → s !! S (S j) = Some c →
                c = b + a) ∧
    (∀ j1 j2 a b, (j1 ≤ j2)%nat → s !! j1 = Some a → s !! j2 = Some b → a ≤ b) ∧
    s `prefix_of` s2.
Proof.
  intros Hk.
  destruct (fibonacci_reach ib pre) as (st & Hst & Htr).
  destruct (fibonacci_reach ib (pre ++ more)) as (st2 & Hst2 & Htr2).
  destruct (Htr k Hk) as [Hv (_ & Hs & Hlen & _)]. destruct (Htr2 k Hk) as [Hv2 _].
  apply fibonacci_view_Some in Hv as (_ & Hseq & _).
  apply fibonacci_view_Some in Hv2 as (_ & Hseq2 & _).
  rewrite foldl_app in Hseq2.
  set (t := foldl (λ t r, fibonacci_track None ib (flag_of r k) t) ([0], ([1; 1], 0)) pre) in *.
  pose proof (fibonacci_track_progress None ib k more t) as Hprog.
  pose proof (fibonacci_progress_extends k more t.2) as Hext.
  rewrite <- Hprog in Hext.
  eexists st, st2, t.2.1, _. split_and!; [done|done|done|exact Hseq2| | | | | |].
  - done.
  - rewrite Hs. by rewrite fib_prefix_lookup by lia.
  - rewrite Hs. by rewrite fib_prefix_lookup by lia.
  - rewrite Hs. apply fib_prefix_recurrence.
  - rewrite Hs. apply fib_prefix_mono.
  - done.
Qed.

Lemma fibonacci_sequence_invariant_witness :
  "red" ∈ bet_types ∧
  ∃ st st2 s s2,
    fibonacci_run 10 [Row 0 1 0 1] = Some st ∧
    fibonacci_run 10 ([Row 0 1 0 1] ++ [Row 0 1 1 0]) = Some st2 ∧
    f_sequences st !! "red" = Some s ∧ f_sequences st2 !! "red" = Some s2 ∧
    s = fib_prefix (length s) ∧ s `prefix_of` s2.
Proof.
  split; [compute_done|].
  destruct (fibonacci_sequence_invariant 10 [Row 0 1 0 1] [Row 0 1 1 0] "red")
    as (st & st2 & s & s2 & Hst & Hst2 & Hs & Hs2 & Hfib & _ & _ & _ & _ & Hpre);
    [compute_done|].
  exists st, st2, s, s2.
  exact (conj Hst (conj Hst2 (conj Hs (conj Hs2 (conj Hfib Hpre))))).
Defined.

(** C3. In [fibonacci_strategy] every bet type has a sequence seeded
    [1, 1] and an index that starts at 0; the wager of a spin is
    [sequence[index] * initial_bet]; a win appends the balance plus the
    wager and moves the index to [max(0, index - 2)], leaving the sequence
    alone; a loss appends the balance minus the wager, adds one to the
    index and, when the new index has reached the length of the sequence,
    appends the sum of its last two terms; either way [sequence[index]] is
    defined at the next wager. *)
Theorem fibonacci_wager_progression (ib : Z) (pre : list row) (r : row)
    (post : list row) (k : string) :
  k ∈ bet_types →
  ∃ st st' res bal prev s i x flag traj,
    fibonacci_run ib pre = Some st ∧
    fibonacci_run ib (pre ++ [r]) = Some st' ∧
    fibonacci_strategy (pre ++ r :: post) ib = Some res ∧
    f_balances st !! k = Some bal ∧ length bal = S (length pre) ∧
    last bal = Some prev ∧
    f_sequences st !! k = Some s ∧ f_indices st !! k = Some i ∧
    (pre = [] → s = [1; 1] ∧ i = 0) ∧
    getitem s i = Some x ∧
    win_flag r k = Some flag ∧
    (flag = 1 →
       f_balances st' !! k = Some (bal ++ [prev + x * ib]) ∧
       f_indices st' !! k = Some (Z.max 0 (i - 2)) ∧
       f_sequences st' !! k = Some s) ∧
    (flag ≠ 1 →
       f_balances st' !! k = Some (bal ++ [prev - x * ib]) ∧
       f_indices st' !! k = Some (i + 1) ∧
       (i + 1 < Z.of_nat (length s) → f_sequences st' !! k = Some s) ∧
       (Z.of_nat (length s) ≤ i + 1 →
          ∃ a b, getitem s (-2) = Some a ∧ getitem s (-1) = Some b ∧
                 f_sequences st' !! k = Some (s ++ [b + a]))) ∧
    (∃ s' i' x', f_sequences st' !! k = Some s' ∧ f_indices st' !! k = Some i' ∧
                 getitem s' i' = Some x') ∧
    res !! k = Some traj ∧
    (∃ bal', f_balances st' !! k = Some bal' ∧ bal' `prefix_of` traj).
Proof.
  intros Hk.
  pose (step := λ (r : row), fibonacci_track None ib (flag_of r k)).
  assert (Happ : ∀ r t, ∃ x, (step r t).1 = t.1 ++ [x])
    by (intros; apply fibonacci_track_appends).
  destruct (fibonacci_reach ib pre) as (st & Hst & Htr).
  destruct (fibonacci_reach ib (pre ++ [r])) as (st' & Hst' & Htr').
  destruct (fibonacci_reach ib (pre ++ r :: post)) as (fin & Hfin & Htrf).
  destruct (Htr k Hk) as [Hv Hinv].
  destruct (Htr' k Hk) as [Hv' Hinv']. destruct (Htrf k Hk) as [Hvf _].
  apply fibonacci_view_Some in Hv as (Hbal & Hseq & Hidx).
  apply fibonacci_view_Some in Hv' as (Hbal' & Hseq' & Hidx').
  apply fibonacci_view_Some in Hvf as (Hbalf & _).
  pose proof (fibonacci_inv_wager _ Hinv') as Hnext.
  rewrite foldl_snoc in Hbal', Hseq', Hidx'.
  pose proof (foldl_length fst step Happ pre ([0], ([1; 1], 0))) as Hlen.
  pose proof (foldl_prefix fst step Happ (pre ++ [r]) post ([0], ([1; 1], 0))) as Hpre.
  rewrite <- app_assoc, foldl_snoc in Hpre. simpl in Hpre.
  set (t := foldl (λ t r, fibonacci_track None ib (flag_of r k) t)
              ([0], ([1; 1], 0)) pre) in *.
  pose proof (fibonacci_inv_wager _ Hinv) as Hwager.
  destruct Hinv as (Hne & Hs & Hlen2 & Hi).
  exists st, st', (f_balances fin), t.1, (last_balance t.1), t.2.1, t.2.2,
    (fib (Z.to_nat t.2.2)), (flag_of r k). eexists.
  unfold fibonacci_strategy. rewrite Hfin. simpl.
  split_and!; try done.
  - by apply last_balance_Some.
  - by intros ->.
  - by apply win_flag_bet_type.
  - intros Hwin. revert Hbal' Hseq' Hidx'.
    unfold fibonacci_track, fibonacci_progress.
    rewrite !bool_decide_true by done. simpl. rewrite Hwager. simpl. done.
  - intros Hloss. revert Hbal' Hseq' Hidx'.
    unfold fibonacci_track, fibonacci_progress.
    rewrite !bool_decide_false by done. simpl. rewrite Hwager. simpl.
    intros Hb Hs' Hi'. split_and!; [| done | |].
    + by rewrite Hb, Z.add_opp_r.
    + intros Hlt. by rewrite fibonacci_extend_keep in Hs' by done.
    + intros Hge. exists (default 0 (getitem t.2.1 (-2))), (default 0 (getitem t.2.1 (-1))).
      split_and!; [apply getitem_default; lia..|].
      revert Hs'. unfold fibonacci_extend. by rewrite bool_decide_true by done.
  - eexists _, _, _. split_and!; [exact Hseq'|exact Hidx'|].
    rewrite foldl_snoc in Hnext. exact Hnext.
  - eexists. split; [exact Hbal'|]. exact Hpre.
Qed.

Lemma fibonacci_wager_progression_witness :
  "red" ∈ bet_types ∧
  ∃ st st' bal prev s i x,
    fibonacci_run 10 [Row 0 1 0 1] = Some st ∧
    fibonacci_run 10 ([Row 0 1 0 1] ++ [Row 0 1 1 0]) = Some st' ∧
    f_balances st !! "red" = Some bal ∧ last bal = Some prev ∧
    f_sequences st !! "red" = Some s ∧ f_indices st !! "red" = Some i ∧
    getitem s i = Some x ∧
    f_balances st' !! "red" = Some (bal ++ [prev - x * 10]) ∧
    f_indices st' !! "red" = Some (i + 1).
Proof.
  split; [compute_done|].
  destruct (fibonacci_wager_progression 10 [Row 0 1 0 1] (Row 0 1 1 0) [Row 1 0 1 0] "red")
    as (st & st' & res & bal & prev & s & i & x & flag & traj & Hst & Hst' & _ & Hbal & _
        & Hprev & Hs & Hi & _ & Hx & Hflag & _ & Hloss & _); [compute_done|].
  vm_compute in Hflag. injection Hflag as <-.
  destruct Hloss as (Hbal' & Hi' & _); [done|].
  exists st, st', bal, prev, s, i, x.
  exact (conj Hst (conj Hst' (conj Hbal (conj Hprev (conj Hs (conj Hi (conj Hx
           (conj Hbal' Hi')))))))).
Defined.

(** C10. In [fibonacci_strategy] and in every simulation of
    [fibonacci_strategy_with_table_limits], when a bet type is about to
    wager its index is within the bounds of its sequence, so the read
    [sequences[bet_type][current_index]] succeeds; neither function raises.
    (A loop body touches the entries of its own bet type only, so the
    entries of a bet type at its wager are the ones at the start of the
    row.) *)
Theorem fibonacci_index_in_bounds (ib : Z) (pre post : list row)
    (tl1 : list Z) (limit : Z) (tl2 : list Z) (k : string) :
  k ∈ bet_types →
  (∃ st s i x,
     fibonacci_run ib pre = Some st ∧
     f_sequences st !! k = Some s ∧ f_indices st !! k = Some i ∧
     0 ≤ i < Z.of_nat (length s) ∧ getitem s i = Some x) ∧
  (∃ res0 st s i x,
     for_each (fibonacci_limit_pass (pre ++ post) ib) tl1
       (init_results (tl1 ++ limit :: tl2)) = Some res0 ∧
     fibonacci_limit_run ib limit pre res0 = Some st ∧
     fl_sequences st !! k = Some s ∧ fl_indices st !! k = Some i ∧
     0 ≤ i < Z.of_nat (length s) ∧ getitem s i = Some x) ∧
  is_Some (fibonacci_strategy (pre ++ post) ib) ∧
  is_Some (fibonacci_strategy_with_table_limits (pre ++ post) ib (tl1 ++ limit :: tl2)).
Proof.
  intros Hk. split_and!.
  - destruct (fibonacci_reach ib pre) as (st & Hst & Htr).
    destruct (Htr k Hk) as [Hv Hinv].
    apply fibonacci_view_Some in Hv as (_ & Hseq & Hidx).
    pose proof (fibonacci_inv_wager _ Hinv) as Hwager.
    destruct Hinv as (_ & _ & _ & Hi). by eexists st, _, _, _.
  - destruct (fibonacci_limits_before (pre ++ post) ib tl1 limit tl2)
      as (res0 & Hrun0 & inner0 & Hinner0 & Hbals0).
    destruct (fibonacci_limit_reach ib limit pre res0 inner0 Hinner0 Hbals0)
      as (st & Hst & Htr).
    destruct (Htr k Hk) as [Hv Hinv].
    apply fibonacci_limit_view_Some in Hv as (_ & Hseq & Hidx).
    pose proof (fibonacci_inv_wager _ Hinv) as Hwager.
    destruct Hinv as (_ & _ & _ & Hi). by eexists res0, st, _, _, _.
  - destruct (fibonacci_reach ib (pre ++ post)) as (st & Hst & _).
    unfold fibonacci_strategy. rewrite Hst. by eexists.
  - apply fibonacci_limits_total.
Qed.

Lemma fibonacci_index_in_bounds_witness :
  "red" ∈ bet_types ∧
  ∃ st s i x,
    fibonacci_run 10 [Row 0 1 0 1] = Some st ∧
    f_sequences st !! "red" = Some s ∧ f_indices st !! "red" = Some i ∧
    0 ≤ i < Z.of_nat (length s) ∧ getitem s i = Some x.
Proof.
  split; [compute_done|].
  destruct (fibonacci_index_in_bounds 10 [Row 0 1 0 1] [Row 1 0 1 0] [50] 25 [100] "red")
    as [Hbase _]; [compute_done|].
  exact Hbase.
Defined.

(** ** Fibonacci under a table limit *)

(** C6. In the simulation of a table limit [limit] the wager of every spin
    is [min(sequence[index] * initial_bet, limit)], which never exceeds
    [limit]; the sequence and the index of every bet type are, before and
    after the spin, the ones [fibonacci_strategy] has after the same rows;
    and on a losing streak the index is the number of spins played, with
    [sequence[index]] the Fibonacci number of that rank, while the wager
    stays capped: for a positive initial bet it is [limit] itself once
    the streak is [limit / initial_bet] spins long. *)
Theorem fibonacci_limit_wager_capped (ib : Z) (tl1 : list Z) (limit : Z)
    (tl2 : list Z) (pre : list row) (r : row) (post : list row) (k : string) :
  k ∈ bet_types →
  ∃ res0 st st' ust ust' res inner inner' bal prev s i x flag traj,
    for_each (fibonacci_limit_pass (pre ++ r :: post) ib) tl1
      (init_results (tl1 ++ limit :: tl2)) = Some res0 ∧
    fibonacci_limit_run ib limit pre res0 = Some st ∧
    fibonacci_limit_run ib limit (pre ++ [r]) res0 = Some st' ∧
    fibonacci_run ib pre = Some ust ∧
    fibonacci_run ib (pre ++ [r]) = Some ust' ∧
    fibonacci_strategy_with_table_limits (pre ++ r :: post) ib (tl1 ++ limit :: tl2)
      = Some res ∧
    fl_results st !! limit = Some inner ∧ inner !! k = Some bal ∧
    last bal = Some prev ∧
    fl_sequences st !! k = Some s ∧ fl_indices st !! k = Some i ∧
    getitem s i = Some x ∧
    win_flag r k = Some flag ∧
    Z.min (x * ib) limit ≤ limit ∧
    fl_results st' !! limit = Some inner' ∧
    inner' !! k = Some (bal ++ [if bool_decide (flag = 1)
                                then prev + Z.min (x * ib) limit
                                else prev - Z.min (x * ib) limit]) ∧
    f_sequences ust !! k = Some s ∧ f_indices ust !! k = Some i ∧
    fl_sequences st' !! k = f_sequences ust' !! k ∧
    fl_indices st' !! k = f_indices ust' !! k ∧
    (flag = 1 → fl_indices st' !! k = Some (Z.max 0 (i - 2))) ∧
    (flag ≠ 1 → fl_indices st' !! k = Some (i + 1)) ∧
    (losing_streak k pre → i = Z.of_nat (length pre) ∧ x = fib (length pre)) ∧
    (losing_streak k pre → 0 < ib → limit ≤ Z.of_nat (length pre) * ib →
       Z.min (x * ib) limit = limit) ∧
    res !! limit ≫= (.!! k) = Some traj ∧
    (∃ bal', inner' !! k = Some bal' ∧ bal' `prefix_of` traj).
Proof.
  intros Hk.
  set (data := pre ++ r :: post).
  pose (step := λ (r : row), fibonacci_track (Some limit) ib (flag_of r k)).
  assert (Happ : ∀ r t, ∃ x, (step r t).1 = t.1 ++ [x])
    by (intros; apply fibonacci_track_appends).
  destruct (passes_split (fibonacci_limit_pass data ib) (length data)
              (fibonacci_limit_pass_spec data ib) tl1 limit tl2
              (init_results (tl1 ++ limit :: tl2)))
    as (res0 & res1 & res2 & Hrun0 & Hwf0 & Hpass & Hall & Hext);
    [intros l Hl; by apply init_results_wf|].
  destruct Hwf0 as (inner0 & Hinner0 & Hbals0).
  destruct (fibonacci_limit_reach ib limit pre res0 inner0 Hinner0 Hbals0)
    as (st & Hst & Htr).
  destruct (fibonacci_limit_reach ib limit (pre ++ [r]) res0 inner0 Hinner0 Hbals0)
    as (st' & Hst' & Htr').
  destruct (fibonacci_limit_reach ib limit data res0 inner0 Hinner0 Hbals0)
    as (fin & Hfin & Htrf).
  destruct (fibonacci_reach ib pre) as (ust & Hust & Hutr).
  destruct (fibonacci_reach ib (pre ++ [r])) as (ust' & Hust' & Hutr').
  unfold fibonacci_limit_pass in Hpass. rewrite Hfin in Hpass. injection Hpass as <-.
  destruct (Htr k Hk) as [Hv Hinv].
  destruct (Htr' k Hk) as [Hv' _]. destruct (Htrf k Hk) as [Hvf _].
  destruct (Hutr k Hk) as [Huv _]. destruct (Hutr' k Hk) as [Huv' _].
  apply fibonacci_limit_view_Some in Hv as ((inner & Hinner & Hbal) & Hseq & Hidx).
  apply fibonacci_limit_view_Some in Hv' as ((inner' & Hinner' & Hbal') & Hseq' & Hidx').
  apply fibonacci_limit_view_Some in Hvf as ((innerf & Hinnerf & Hbalf) & _).
  apply fibonacci_view_Some in Huv as (_ & Huseq & Huidx).
  apply fibonacci_view_Some in Huv' as (_ & Huseq' & Huidx').
  rewrite fibonacci_track_progress in Huseq, Huidx, Huseq', Huidx'.
  pose proof (fibonacci_track_progress (Some limit) ib k pre
                (default [] (inner0 !! k), ([1; 1], 0))) as Hprog.
  pose proof (fibonacci_track_progress (Some limit) ib k (pre ++ [r])
                (default [] (inner0 !! k), ([1; 1], 0))) as Hprog'.
  simpl in Huseq, Huidx, Huseq', Huidx', Hprog, Hprog'.
  rewrite <- Hprog in Huseq, Huidx. rewrite <- Hprog' in Huseq', Huidx'.
  pose proof (foldl_prefix fst step Happ (pre ++ [r]) post
                (default [] (inner0 !! k), ([1; 1], 0))) as Hpre.
  rewrite <- app_assoc in Hpre. simpl in Hpre. fold data in Hpre.
  destruct (Hext innerf k _ Hinnerf Hk Hbalf) as (inner2 & more & Hinner2 & Htraj).
  pose proof (fibonacci_inv_wager _ Hinv) as Hwager.
  assert (Hstreak : losing_streak k pre →
            (foldl (λ t r, fibonacci_track (Some limit) ib (flag_of r k) t)
               (default [] (inner0 !! k), ([1; 1], 0)) pre).2.2
            = Z.of_nat (length pre)).
  { intros Hlose. rewrite Hprog. by rewrite fibonacci_progress_streak. }
  set (t' := foldl (λ t r, fibonacci_track (Some limit) ib (flag_of r k) t)
               (default [] (inner0 !! k), ([1; 1], 0)) (pre ++ [r])) in *.
  assert (Ht' : t' = fibonacci_track (Some limit) ib (flag_of r k)
                       (foldl (λ t r, fibonacci_track (Some limit) ib (flag_of r k) t)
                          (default [] (inner0 !! k), ([1; 1], 0)) pre))
    by (unfold t'; by rewrite foldl_snoc).
  set (t := foldl (λ t r, fibonacci_track (Some limit) ib (flag_of r k) t)
              (default [] (inner0 !! k), ([1; 1], 0)) pre) in *.
  destruct Hinv as (Hne & _).
  exists res0, st, st', ust, ust', res2, inner, inner', t.1, (last_balance t.1),
    t.2.1, t.2.2, (fib (Z.to_nat t.2.2)), (flag_of r k). eexists.
  split_and!; try done.
  - by apply last_balance_Some.
  - by apply win_flag_bet_type.
  - lia.
  - rewrite Hbal', Ht'. unfold fibonacci_track. simpl. rewrite Hwager. simpl.
    case_bool_decide; [done|]. by rewrite Z.add_opp_r.
  - by rewrite Hseq', Huseq'.
  - by rewrite Hidx', Huidx'.
  - intros Hwin. rewrite Hidx', Ht'. unfold fibonacci_track, fibonacci_progress.
    simpl. by rewrite bool_decide_true by done.
  - intros Hloss. rewrite Hidx', Ht'. unfold fibonacci_track, fibonacci_progress.
    simpl. by rewrite bool_decide_false by done.
  - intros Hlose. rewrite (Hstreak Hlose). split; [done|]. by rewrite Nat2Z.id.
  - intros Hlose Hib Hlim. rewrite (Hstreak Hlose), Nat2Z.id.
    pose proof (fib_ge (length pre)) as [Hge _]. apply Z.min_r. nia.
  - rewrite Hinner2. simpl. exact Htraj.
  - eexists. split; [exact Hbal'|].
    etrans; [exact Hpre|]. by eexists.
Qed.

Lemma fibonacci_limit_wager_capped_witness :
  "red" ∈ bet_types ∧
  ∃ res0 st ust s i x,
    for_each (fibonacci_limit_pass ([Row 0 1 0 1] ++ Row 0 1 1 0 :: [Row 1 0 1 0]) 10)
      [50] (init_results ([50] ++ 25 :: [100])) = Some res0 ∧
    fibonacci_limit_run 10 25 [Row 0 1 0 1] res0 = Some st ∧
    fibonacci_run 10 [Row 0 1 0 1] = Some ust ∧
    fl_sequences st !! "red" = Some s ∧ fl_indices st !! "red" = Some i ∧
    f_sequences ust !! "red" = Some s ∧ f_indices ust !! "red" = Some i ∧
    getitem s i = Some x ∧ Z.min (x * 10) 25 ≤ 25.
Proof.
  split; [compute_done|].
  destruct (fibonacci_limit_wager_capped 10 [50] 25 [100] [Row 0 1 0 1] (Row 0 1 1 0)
              [Row 1 0 1 0] "red")
    as (res0 & st & st' & ust & ust' & res & inner & inner' & bal & prev & s & i & x
        & flag & traj & Hres0 & Hst & _ & Hust & _ & _ & _ & _ & _ & Hs & Hi & Hx & _
        & Hcap & _ & _ & Hus & Hui & _); [compute_done|].
  exists res0, st, ust, s, i, x.
  exact (conj Hres0 (conj Hst (conj Hust (conj Hs (conj Hi (conj Hus (conj Hui
           (conj Hx Hcap)))))))).
Defined.

(** ** D'Alembert *)

(** C7, as the code has it.  In [d_alembert_strategy] the bet of every bet
    type starts at [initial_bet], becomes [max(initial_bet, bet -
    initial_bet)] on a win and [bet + initial_bet] on a loss; when
    [0 ≤ initial_bet] it is never less than [initial_bet]. *)
Theorem d_alembert_bet_floor (ib : Z) (pre : list row) (r : row)
    (post : list row) (k : string) :
  k ∈ bet_types →
  ∃ st st' bet flag,
    d_alembert_run ib pre = Some st ∧
    d_alembert_run ib (pre ++ [r]) = Some st' ∧
    is_Some (d_alembert_strategy (pre ++ r :: post) ib) ∧
    d_bets st !! k = Some bet ∧ (pre = [] → bet = ib) ∧
    win_flag r k = Some flag ∧
    (flag = 1 → d_bets st' !! k = Some (Z.max ib (bet - ib))) ∧
    (flag ≠ 1 → d_bets st' !! k = Some (bet + ib)) ∧
    (0 ≤ ib → ib ≤ bet).
Proof.
  intros Hk.
  destruct (d_alembert_reach ib pre) as (st & Hst & Htr).
  destruct (d_alembert_reach ib (pre ++ [r])) as (st' & Hst' & Htr').
  destruct (d_alembert_reach ib (pre ++ r :: post)) as (fin & Hfin & _).
  destruct (Htr k Hk) as [Hv [_ Hlow]]. destruct (Htr' k Hk) as [Hv' _].
  apply d_alembert_view_Some in Hv as [_ Hbet].
  apply d_alembert_view_Some in Hv' as [_ Hbet'].
  rewrite foldl_snoc in Hbet'.
  set (t := foldl (λ t r, d_alembert_track ib (flag_of r k) t) ([0], ib) pre) in *.
  exists st, st', t.2, (flag_of r k).
  unfold d_alembert_strategy. rewrite Hfin. simpl.
  split_and!; try done.
  - by intros ->.
  - by apply win_flag_bet_type.
  - intros Hwin. revert Hbet'. unfold d_alembert_track.
    by rewrite bool_decide_true by done.
  - intros Hloss. revert Hbet'. unfold d_alembert_track.
    by rewrite bool_decide_false by done.
Qed.

Lemma d_alembert_bet_floor_witness :
  "red" ∈ bet_types ∧ 0 ≤ 10 ∧
  ∃ st bet,
    d_alembert_run 10 [Row 0 1 0 1] = Some st ∧
    d_bets st !! "red" = Some bet ∧ 10 ≤ bet.
Proof.
  split; [compute_done|]. split; [lia|].
  destruct (d_alembert_bet_floor 10 [Row 0 1 0 1] (Row 0 1 1 0) [Row 1 0 1 0] "red")
    as (st & st' & bet & flag & Hst & _ & _ & Hbet & _ & _ & _ & _ & Hfloor);
    [compute_done|].
  exists st, bet. refine (conj Hst (conj Hbet _)). apply Hfloor. lia.
Defined.

(** Counterexample to C7 as stated, for a negative initial bet: with
    [initial_bet = -1], one losing spin leaves the bet at -2, below the
    initial bet. *)
Lemma d_alembert_bet_below_initial :
  (d_alembert_run (-1) [Row 0 0 0 0] ≫= λ st, d_bets st !! "red") = Some (-2) ∧
  ¬ (-1 ≤ -2).
Proof. split; [reflexivity|lia]. Qed.

(** ** No strategy *)

Lemma no_strategy_append_track (bet : Z) (r : row) (k : string)
    (bals : gmap string (list Z)) (bal : list Z) :
  k ∈ bet_types → bals !! k = Some bal → bal ≠ [] →
  ∃ bals', no_strategy_append bet r k (capitalize k +:+ " Bet Win") bals = Some bals' ∧
           bals' !! k = Some (no_strategy_track bet (flag_of r k) bal) ∧
           ∀ k', k' ≠ k → bals' !! k' = bals !! k'.
Proof.
  intros Hk Hbal Hne. unfold no_strategy_append, no_strategy_track.
  rewrite Hbal. simpl. rewrite (getitem_last _ Hne). simpl.
  pose proof (win_flag_bet_type r k Hk) as Hflag. unfold win_flag in Hflag.
  rewrite Hflag. simpl. eexists. split_and!; [done| |].
  - by rewrite lookup_insert_eq.
  - intros k' Hne'. by rewrite lookup_insert_ne.
Qed.

Lemma no_strategy_body_rows (g : nat → Z) (ib spin : Z) (r : row)
    (bals : gmap string (list Z)) (calls : nat) :
  no_strategy_body g ib (spin, r) (bals, calls)
  = for_each (λ k, no_strategy_append (no_strategy_bet g ib spin calls).1 r k
                     (capitalize k +:+ " Bet Win")) bet_types bals
      ≫= λ b, Some (b, (no_strategy_bet g ib spin calls).2).
Proof.
  unfold no_strategy_body. destruct (no_strategy_bet g ib spin calls) as [bet calls'].
  unfold bet_types. cbn [for_each fst snd].
  change (capitalize "red" +:+ " Bet Win") with "Red Bet Win".
  change (capitalize "black" +:+ " Bet Win") with "Black Bet Win".
  change (capitalize "even" +:+ " Bet Win") with "Even Bet Win".
  change (capitalize "odd" +:+ " Bet Win") with "Odd Bet Win".
  destruct (no_strategy_append bet r "red" "Red Bet Win" bals) as [b1|]; [|done]. simpl.
  destruct (no_strategy_append bet r "black" "Black Bet Win" b1) as [b2|]; [|done]. simpl.
  destruct (no_strategy_append bet r "even" "Even Bet Win" b2) as [b3|]; [|done]. simpl.
  by destruct (no_strategy_append bet r "odd" "Odd Bet Win" b3) as [b4|].
Qed.

Lemma no_strategy_bet_wager (g : nat → Z) (ib : Z) (n : nat) :
  no_strategy_bet g ib (Z.of_nat n) (pred n) = (no_strategy_wager g ib n, pred (S n)).
Proof.
  unfold no_strategy_bet. destruct n as [|j]; [done|].
  by rewrite bool_decide_false by lia.
Qed.

Lemma no_strategy_loop_tracked (g : nat → Z) (ib : Z) (rows : list row) (n : nat)
    (bals : gmap string (list Z)) (f : string → list Z) :
  tracked (λ k (m : gmap string (list Z)), m !! k) (λ bal, bal ≠ []) bals f →
  ∃ bals',
    no_strategy_loop g ib (Z.of_nat n) rows (bals, pred n)
      = Some (bals', pred (n + length rows)) ∧
    tracked (λ k (m : gmap string (list Z)), m !! k) (λ bal, bal ≠ []) bals'
      (λ k, no_strategy_fold g ib k n rows (f k)).
Proof.
  revert n bals f. induction rows as [|r rows IH]; intros n bals f Htr.
  - exists bals. by rewrite Nat.add_0_r.
  - unfold no_strategy_loop. simpl enumerate_from. rewrite for_each_cons.
    rewrite no_strategy_body_rows, no_strategy_bet_wager. cbn [fst snd].
    destruct (row_step (λ k (m : gmap string (list Z)), m !! k)
                (λ (x : Z * row) k, no_strategy_append x.1 x.2 k (capitalize k +:+ " Bet Win"))
                (λ (x : Z * row) k, no_strategy_track x.1 (flag_of x.2 k))
                (λ bal, bal ≠ [])) with (r := (no_strategy_wager g ib n, r))
                (s := bals) (f := f) as (bals1 & Hrow & Htr1).
    + intros [bet r'] k s t Hk Hs Ht. simpl. by apply no_strategy_append_track.
    + intros [bet r'] k t Ht. unfold no_strategy_track. by destruct t.
    + done.
    + cbn [fst snd] in Hrow. rewrite Hrow. cbn [mbind option_bind].
      replace (Z.of_nat n + 1) with (Z.of_nat (S n)) by lia.
      destruct (IH (S n) bals1 _ Htr1) as (bals' & Hloop & Htr').
      unfold no_strategy_loop in Hloop. rewrite Hloop.
      exists bals'. split; [|done]. do 2 f_equal. simpl. lia.
Qed.

Lemma no_strategy_fold_appends (g : nat → Z) (ib : Z) (k : string)
    (rows : list row) (n : nat) (bal : list Z) :
  ∃ more, no_strategy_fold g ib k n rows bal = bal ++ more ∧
          length more = length rows.
Proof.
  revert n bal. induction rows as [|r rows IH]; intros n bal; simpl.
  - exists []. by rewrite app_nil_r.
  - destruct (IH (S n) (no_strategy_track (no_strategy_wager g ib n) (flag_of r k) bal))
      as (more & -> & Hlen).
    unfold no_strategy_track. eexists (_ :: more).
    rewrite <- app_assoc. simpl. by rewrite Hlen.
Qed.

Lemma no_strategy_fold_app (g : nat → Z) (ib : Z) (k : string)
    (pre post : list row) (n : nat) (bal : list Z) :
  no_strategy_fold g ib k n (pre ++ post) bal
  = no_strategy_fold g ib k (n + length pre) post (no_strategy_fold g ib k n pre bal).
Proof.
  revert n bal. induction pre as [|r pre IH]; intros n bal; simpl.
  - by rewrite Nat.add_0_r.
  - rewrite IH. f_equal. lia.
Qed.

Lemma no_strategy_init_tracked :
  tracked (λ k (m : gmap string (list Z)), m !! k) (λ bal, bal ≠ [])
    (per_bet_type [0]) (λ _, [0]).
Proof. intros k Hk. by rewrite per_bet_type_lookup. Qed.

Lemma no_strategy_wager_range (g : nat → Z) (ib : Z) (j : nat) :
  5 ≤ no_strategy_wager g ib (S j) ≤ 20.
Proof. simpl. pose proof (Z.mod_pos_bound (g j) 16). lia. Qed.

(** C9, as the code has it.  In [no_strategy] the first spin wagers
    [initial_bet]; every later spin makes one call [random.randint(5, 20)],
    whose result lies in [[5, 20]] (and any value of that range can come
    out) and depends on the generator alone, not on the rows played; that
    one amount is the wager of all four bet types on the spin. *)
Theorem no_strategy_wagers (g : nat → Z) (ib : Z) (pre : list row) (r : row)
    (post : list row) :
  ∃ st st' res bet,
    no_strategy_loop g ib 0 pre (per_bet_type [0], 0%nat) = Some st ∧
    no_strategy_loop g ib 0 (pre ++ [r]) (per_bet_type [0], 0%nat) = Some st' ∧
    no_strategy g (pre ++ r :: post) ib = Some res ∧
    (pre = [] → bet = ib) ∧
    (pre ≠ [] → bet = 5 + Z.modulo (g (pred (length pre))) 16 ∧ 5 ≤ bet ≤ 20) ∧
    (∀ v, 5 ≤ v ≤ 20 → ∃ g', 5 + Z.modulo (g' (pred (length pre))) 16 = v) ∧
    ∀ k, k ∈ bet_types →
      ∃ bal prev flag traj,
        st.1 !! k = Some bal ∧ last bal = Some prev ∧
        win_flag r k = Some flag ∧
        st'.1 !! k
          = Some (bal ++ [prev + (if bool_decide (flag = 1) then bet else - bet)]) ∧
        res !! k = Some traj ∧
        bal ++ [prev + (if bool_decide (flag = 1) then bet else - bet)]
          `prefix_of` traj.
Proof.
  destruct (no_strategy_loop_tracked g ib pre 0 _ _ no_strategy_init_tracked)
    as (b & Hb & Htr).
  destruct (no_strategy_loop_tracked g ib (pre ++ [r]) 0 _ _ no_strategy_init_tracked)
    as (b' & Hb' & Htr').
  destruct (no_strategy_loop_tracked g ib (pre ++ r :: post) 0 _ _ no_strategy_init_tracked)
    as (bf & Hbf & Htrf).
  change (Z.of_nat 0) with 0 in Hb, Hb', Hbf.
  change (pred 0) with 0%nat in Hb, Hb', Hbf.
  eexists _, _, bf, (no_strategy_wager g ib (length pre)).
  split_and!; [exact Hb|exact Hb'| | | | |].
  - unfold no_strategy. by rewrite Hbf.
  - by intros ->.
  - intros Hne. destruct pre as [|r0 pre]; [done|]. simpl length.
    split; [done|]. apply no_strategy_wager_range.
  - intros v Hv. exists (λ _, v - 5). rewrite Z.mod_small by lia. lia.
  - intros k Hk. simpl.
    destruct (Htr k Hk) as [Hbal Hne]. destruct (Htr' k Hk) as [Hbal' _].
    destruct (Htrf k Hk) as [Hbalf _].
    rewrite no_strategy_fold_app in Hbal'. simpl in Hbal'.
    replace (pre ++ r :: post) with ((pre ++ [r]) ++ post) in Hbalf
      by (by rewrite <- app_assoc).
    rewrite no_strategy_fold_app in Hbalf.
    destruct (no_strategy_fold_appends g ib k post (0 + length (pre ++ [r]))
                (no_strategy_fold g ib k 0 (pre ++ [r]) [0])) as (more & Hmore & _).
    rewrite Hmore in Hbalf.
    rewrite no_strategy_fold_app in Hbalf. simpl in Hbalf.
    set (bal := no_strategy_fold g ib k 0 pre [0]) in *.
    exists bal, (last_balance bal), (flag_of r k). eexists.
    split_and!; [done|by apply last_balance_Some|by apply win_flag_bet_type
                 |exact Hbal'|exact Hbalf|by eexists].
Qed.

Lemma last_balance_app (bal : list Z) (x : Z) : last_balance (bal ++ [x]) = x.
Proof. unfold last_balance. by rewrite last_snoc. Qed.

(** Counterexample to C9 as stated, on the independence across bet
    types: the wager of a spin is drawn once and shared.  With two all-win
    spins and [initial_bet = 10], separate draws would allow red to wager 5
    and black to wager 20 on the second spin; no generator gives that
    outcome. *)
Lemma no_strategy_shares_draw :
  ¬ ∃ g res,
      no_strategy g [Row 1 1 1 1; Row 1 1 1 1] 10 = Some res ∧
      res !! "red" = Some [0; 10; 15] ∧ res !! "black" = Some [0; 10; 30].
Proof.
  intros (g & res & Hres & Hred & Hblack).
  destruct (no_strategy_loop_tracked g 10 [Row 1 1 1 1; Row 1 1 1 1] 0 _ _
              no_strategy_init_tracked) as (b & Hb & Htr).
  change (Z.of_nat 0) with 0 in Hb. change (pred 0) with 0%nat in Hb.
  unfold no_strategy in Hres. rewrite Hb in Hres. injection Hres as <-.
  destruct (Htr "red") as [H1 _]; [compute_done|].
  destruct (Htr "black") as [H2 _]; [compute_done|].
  rewrite Hred in H1. rewrite Hblack in H2.
  cbn [no_strategy_fold no_strategy_wager] in H1, H2.
  change (flag_of (Row 1 1 1 1) "red") with 1 in H1.
  change (flag_of (Row 1 1 1 1) "black") with 1 in H2.
  set (d := Z.modulo (g 0%nat) 16) in *.
  unfold no_strategy_track in H1, H2.
  rewrite !bool_decide_true in H1, H2 by reflexivity.
  rewrite !last_balance_app in H1, H2.
  change (last_balance [0]) with 0 in H1, H2.
  injection H1 as H1. injection H2 as H2. lia.
Qed.

(** ** Shape of the trajectories *)





(** ** The all-wins scenario *)

(** C8, as the code has it.  On four spins that win for every bet type,
    with [initial_bet = 10], [martingale_strategy], [fibonacci_strategy]
    and [d_alembert_strategy] return the red trajectory
    [[0, 10, 20, 30, 40]]; [no_strategy] returns 0, 10 and then the running
    sums of its three draws, which is that trajectory exactly when the
    three draws are 10. *)
Theorem all_wins_red_trajectory (g : nat → Z) :
  martingale_strategy (replicate 4 (Row 1 1 1 1)) 10 ≫= (.!! "red")
    = Some [0; 10; 20; 30; 40] ∧
  fibonacci_strategy (replicate 4 (Row 1 1 1 1)) 10 ≫= (.!! "red")
    = Some [0; 10; 20; 30; 40] ∧
  d_alembert_strategy (replicate 4 (Row 1 1 1 1)) 10 ≫= (.!! "red")
    = Some [0; 10; 20; 30; 40] ∧
  no_strategy g (replicate 4 (Row 1 1 1 1)) 10 ≫= (.!! "red")
    = Some [0; 10;
            10 + (randint 5 20 g 0).1;
            10 + (randint 5 20 g 0).1 + (randint 5 20 g 1).1;
            10 + (randint 5 20 g 0).1 + (randint 5 20 g 1).1 + (randint 5 20 g 2).1] ∧
  (no_strategy g (replicate 4 (Row 1 1 1 1)) 10 ≫= (.!! "red")
     = Some [0; 10; 20; 30; 40]
   ↔ (randint 5 20 g 0).1 = 10 ∧ (randint 5 20 g 1).1 = 10 ∧ (randint 5 20 g 2).1 = 10).
Proof.
  assert (Hns : no_strategy g (replicate 4 (Row 1 1 1 1)) 10 ≫= (.!! "red")
    = Some [0; 10;
            10 + (randint 5 20 g 0).1;
            10 + (randint 5 20 g 0).1 + (randint 5 20 g 1).1;
            10 + (randint 5 20 g 0).1 + (randint 5 20 g 1).1 + (randint 5 20 g 2).1]).
  { destruct (no_strategy_loop_tracked g 10 (replicate 4 (Row 1 1 1 1)) 0 _ _
                no_strategy_init_tracked) as (b & Hb & Htr).
    change (Z.of_nat 0) with 0 in Hb. change (pred 0) with 0%nat in Hb.
    destruct (Htr "red") as [Hred _]; [compute_done|].
    unfold no_strategy. rewrite Hb. cbn [fmap option_fmap option_map fst].
    cbn [mbind option_bind]. rewrite Hred. apply (f_equal Some).
    cbn [replicate no_strategy_fold no_strategy_wager].
    change (flag_of (Row 1 1 1 1) "red") with 1.
    unfold no_strategy_track, randint. cbn [fst].
    change (20 - 5 + 1) with 16.
    generalize (Z.modulo (g 0%nat) 16) (Z.modulo (g 1%nat) 16) (Z.modulo (g 2%nat) 16).
    intros d0 d1 d2.
    rewrite !bool_decide_true by reflexivity.
    rewrite !last_balance_app. change (last_balance [0]) with 0.
    reflexivity. }
  split_and!; [reflexivity..|exact Hns|].
  rewrite Hns. unfold randint. cbn [fst]. change (20 - 5 + 1) with 16.
  generalize (Z.modulo (g 0%nat) 16) (Z.modulo (g 1%nat) 16) (Z.modulo (g 2%nat) 16).
  intros d0 d1 d2. split.
  - intros Heq. injection Heq as H0 H1 H2. lia.
  - intros (H0 & H1 & H2). rewrite H0, H1, H2. reflexivity.
Qed.

(** Counterexample to C8 as stated, for [no_strategy]: when the three
    draws are 5, its red trajectory on the all-wins scenario is
    [[0, 10, 15, 20, 25]]. *)
Lemma no_strategy_all_wins_differs :
  no_strategy (λ _, 0) (replicate 4 (Row 1 1 1 1)) 10 ≫= (.!! "red")
    = Some [0; 10; 15; 20; 25] ∧
  Some [0; 10; 15; 20; 25] ≠ Some [0; 10; 20; 30; 40].
Proof. split; [reflexivity|discriminate]. Qed.

(** * Further properties *)

(** ** The trajectories as folds of the tracks *)

Lemma martingale_run_fold (ib : Z) (rows : list row) (k : string) :
  k ∈ bet_types →
  ∃ st, martingale_run ib rows = Some st ∧
    m_balances st !! k
      = Some (foldl (λ t r, martingale_track None ib (flag_of r k) t) ([0], ib) rows).1 ∧
    m_bets st !! k
      = Some (foldl (λ t r, martingale_track None ib (flag_of r k) t) ([0], ib) rows).2.
Proof.
  intros Hk. destruct (martingale_reach ib rows) as (st & Hst & Htr).
  destruct (Htr k Hk) as [Hv _]. apply martingale_view_Some in Hv as [Hbal Hbet].
  by exists st.
Qed.

Lemma martingale_strategy_fold (ib : Z) (data : list row) (k : string) :
  k ∈ bet_types →
  martingale_strategy data ib ≫= (.!! k)
  = Some (foldl (λ t r, martingale_track None ib (flag_of r k) t) ([0], ib) data).1.
Proof.
  intros Hk. destruct (martingale_run_fold ib data k Hk) as (st & Hst & Hbal & _).
  unfold martingale_strategy. by rewrite Hst.
Qed.

Lemma d_alembert_run_fold (ib : Z) (rows : list row) (k : string) :
  k ∈ bet_types →
  ∃ st, d_alembert_run ib rows = Some st ∧
    d_balances st !! k
      = Some (foldl (λ t r, d_alembert_track ib (flag_of r k) t) ([0], ib) rows).1 ∧
    d_bets st !! k
      = Some (foldl (λ t r, d_alembert_track ib (flag_of r k) t) ([0], ib) rows).2.
Proof.
  intros Hk. destruct (d_alembert_reach ib rows) as (st & Hst & Htr).
  destruct (Htr k Hk) as [Hv _]. apply d_alembert_view_Some in Hv as [Hbal Hbet].
  by exists st.
Qed.

Lemma d_alembert_strategy_fold (ib : Z) (data : list row) (k : string) :
  k ∈ bet_types →
  d_alembert_strategy data ib ≫= (.!! k)
  = Some (foldl (λ t r, d_alembert_track ib (flag_of r k) t) ([0], ib) data).1.
Proof.
  intros Hk. destruct (d_alembert_run_fold ib data k Hk) as (st & Hst & Hbal & _).
  unfold d_alembert_strategy. by rewrite Hst.
Qed.

Lemma fibonacci_run_fold (ib : Z) (rows : list row) (k : string) :
  k ∈ bet_types →
  ∃ st, fibonacci_run ib rows = Some st ∧
    f_balances st !! k
      = Some (foldl (λ t r, fibonacci_track None ib (flag_of r k) t)
                ([0], ([1; 1], 0)) rows).1 ∧
    f_sequences st !! k
      = Some (foldl (λ p r, fibonacci_progress (flag_of r k) p) ([1; 1], 0) rows).1 ∧
    f_indices st !! k
      = Some (foldl (λ p r, fibonacci_progress (flag_of r k) p) ([1; 1], 0) rows).2.
Proof.
  intros Hk. destruct (fibonacci_reach ib rows) as (st & Hst & Htr).
  destruct (Htr k Hk) as [Hv _]. apply fibonacci_view_Some in Hv as (Hbal & Hs & Hi).
  rewrite fibonacci_track_progress in Hs, Hi. by exists st.
Qed.

Lemma fibonacci_strategy_fold (ib : Z) (data : list row) (k : string) :
  k ∈ bet_types →
  fibonacci_strategy data ib ≫= (.!! k)
  = Some (foldl (λ t r, fibonacci_track None ib (flag_of r k) t)
            ([0], ([1; 1], 0)) data).1.
Proof.
  intros Hk. destruct (fibonacci_run_fold ib data k Hk) as (st & Hst & Hbal & _).
  unfold fibonacci_strategy. by rewrite Hst.
Qed.

Lemma no_strategy_fold_eq (g : nat → Z) (ib : Z) (data : list row) (k : string) :
  k ∈ bet_types →
  no_strategy g data ib ≫= (.!! k) = Some (no_strategy_fold g ib k 0 data [0]).
Proof.
  intros Hk.
  destruct (no_strategy_loop_tracked g ib data 0 _ _ no_strategy_init_tracked)
    as (b & Hb & Htr).
  change (Z.of_nat 0) with 0 in Hb. change (pred 0) with 0%nat in Hb.
  destruct (Htr k Hk) as [Hbal _].
  unfold no_strategy. by rewrite Hb.
Qed.

Lemma martingale_limits_fold (data : list row) (ib : Z) (tl1 : list Z) (limit : Z)
    (tl2 : list Z) (k : string) :
  k ∈ bet_types → limit ∉ tl1 → limit ∉ tl2 →
  martingale_strategy_with_table_limits data ib (tl1 ++ limit :: tl2)
    ≫= (λ res, res !! limit ≫= (.!! k))
  = Some (foldl (λ t r, martingale_track (Some limit) ib (flag_of r k) t)
            ([0], ib) data).1.
Proof.
  intros Hk Hnot1 Hnot2. unfold martingale_strategy_with_table_limits.
  set (tls := tl1 ++ limit :: tl2).
  assert (Hwf : ∀ l, l ∈ tls → wf_results (init_results tls) l)
    by (intros l Hl; by apply init_results_wf).
  assert (Hin : limit ∈ tls) by (apply elem_of_app; right; left).
  destruct (passes_total (martingale_limit_pass data ib) (length data)
              (martingale_limit_pass_spec data ib) tl1 (init_results tls))
    as (res1 & Hrun1 & Hout1 & Hkeep1).
  { intros l Hl. apply Hwf, elem_of_app. by left. }
  assert (Hres1 : res1 !! limit = Some (per_bet_type [0])).
  { rewrite Hout1 by done. by apply init_results_lookup. }
  destruct (martingale_limit_reach ib limit data res1 (per_bet_type [0]) Hres1)
    as (st & Hst & Htr).
  { intros k' Hk'. exists [0]. by rewrite per_bet_type_lookup. }
  destruct (Htr k Hk) as [Hv _].
  apply martingale_limit_view_Some in Hv as [(inner & Hinner & Hbal) _].
  rewrite per_bet_type_lookup in Hbal by done. simpl in Hbal.
  destruct (passes_total (martingale_limit_pass data ib) (length data)
              (martingale_limit_pass_spec data ib) tl2 (ml_results st))
    as (res3 & Hrun3 & Hout3 & _).
  { intros l Hl. eapply (pass_wf (martingale_limit_pass data ib) (length data)
                           (martingale_limit_pass_spec data ib) limit l res1).
    - apply Hkeep1, Hwf, Hin.
    - unfold martingale_limit_pass. by rewrite Hst.
    - apply Hkeep1, Hwf, elem_of_app. right. by right. }
  assert (Hpass : martingale_limit_pass data ib limit res1 = Some (ml_results st))
    by (unfold martingale_limit_pass; by rewrite Hst).
  subst tls. rewrite for_each_app, Hrun1. cbn [mbind option_bind].
  rewrite for_each_cons, Hpass. cbn [mbind option_bind].
  rewrite Hrun3. cbn [mbind option_bind].
  rewrite Hout3 by done. rewrite Hinner. cbn [mbind option_bind]. exact Hbal.
Qed.

Lemma fibonacci_limits_fold (data : list row) (ib : Z) (tl1 : list Z) (limit : Z)
    (tl2 : list Z) (k : string) :
  k ∈ bet_types → limit ∉ tl1 → limit ∉ tl2 →
  fibonacci_strategy_with_table_limits data ib (tl1 ++ limit :: tl2)
    ≫= (λ res, res !! limit ≫= (.!! k))
  = Some (foldl (λ t r, fibonacci_track (Some limit) ib (flag_of r k) t)
            ([0], ([1; 1], 0)) data).1.
Proof.
  intros Hk Hnot1 Hnot2. unfold fibonacci_strategy_with_table_limits.
  set (tls := tl1 ++ limit :: tl2).
  assert (Hwf : ∀ l, l ∈ tls → wf_results (init_results tls) l)
    by (intros l Hl; by apply init_results_wf).
  assert (Hin : limit ∈ tls) by (apply elem_of_app; right; left).
  destruct (passes_total (fibonacci_limit_pass data ib) (length data)
              (fibonacci_limit_pass_spec data ib) tl1 (init_results tls))
    as (res1 & Hrun1 & Hout1 & Hkeep1).
  { intros l Hl. apply Hwf, elem_of_app. by left. }
  assert (Hres1 : res1 !! limit = Some (per_bet_type [0])).
  { rewrite Hout1 by done. by apply init_results_lookup. }
  destruct (fibonacci_limit_reach ib limit data res1 (per_bet_type [0]) Hres1)
    as (st & Hst & Htr).
  { intros k' Hk'. exists [0]. by rewrite per_bet_type_lookup. }
  destruct (Htr k Hk) as [Hv _].
  apply fibonacci_limit_view_Some in Hv as [(inner & Hinner & Hbal) _].
  rewrite per_bet_type_lookup in Hbal by done. simpl in Hbal.
  destruct (passes_total (fibonacci_limit_pass data ib) (length data)
              (fibonacci_limit_pass_spec data ib) tl2 (fl_results st))
    as (res3 & Hrun3 & Hout3 & _).
  { intros l Hl. eapply (pass_wf (fibonacci_limit_pass data ib) (length data)
                           (fibonacci_limit_pass_spec data ib) limit l res1).
    - apply Hkeep1, Hwf, Hin.
    - unfold fibonacci_limit_pass. by rewrite Hst.
    - apply Hkeep1, Hwf, elem_of_app. right. by right. }
  assert (Hpass : fibonacci_limit_pass data ib limit res1 = Some (fl_results st))
    by (unfold fibonacci_limit_pass; by rewrite Hst).
  subst tls. rewrite for_each_app, Hrun1. cbn [mbind option_bind].
  rewrite for_each_cons, Hpass. cbn [mbind option_bind].
  rewrite Hrun3. cbn [mbind option_bind].
  rewrite Hout3 by done. rewrite Hinner. cbn [mbind option_bind]. exact Hbal.
Qed.

(** ** Playing more spins extends the trajectories *)

(** X1. The simulators are causal: the trajectory of a bet type over the
    first spins of a data set is a prefix of its trajectory over the whole
    data set ([no_strategy] with the same generator; the table-limit
    variants under a limit listed once). *)
Theorem trajectories_extend (g : nat → Z) (ib : Z) (pre post : list row)
    (tl1 : list Z) (limit : Z) (tl2 : list Z) (k : string) :
  k ∈ bet_types →
  (∃ t1 t2, no_strategy g pre ib ≫= (.!! k) = Some t1 ∧
            no_strategy g (pre ++ post) ib ≫= (.!! k) = Some t2 ∧
            t1 `prefix_of` t2) ∧
  (∃ t1 t2, martingale_strategy pre ib ≫= (.!! k) = Some t1 ∧
            martingale_strategy (pre ++ post) ib ≫= (.!! k) = Some t2 ∧
            t1 `prefix_of` t2) ∧
  (∃ t1 t2, fibonacci_strategy pre ib ≫= (.!! k) = Some t1 ∧
            fibonacci_strategy (pre ++ post) ib ≫= (.!! k) = Some t2 ∧
            t1 `prefix_of` t2) ∧
  (∃ t1 t2, d_alembert_strategy pre ib ≫= (.!! k) = Some t1 ∧
            d_alembert_strategy (pre ++ post) ib ≫= (.!! k) = Some t2 ∧
            t1 `prefix_of` t2) ∧
  (limit ∉ tl1 → limit ∉ tl2 →
   ∃ t1 t2,
     martingale_strategy_with_table_limits pre ib (tl1 ++ limit :: tl2)
       ≫= (λ res, res !! limit ≫= (.!! k)) = Some t1 ∧
     martingale_strategy_with_table_limits (pre ++ post) ib (tl1 ++ limit :: tl2)
       ≫= (λ res, res !! limit ≫= (.!! k)) = Some t2 ∧
     t1 `prefix_of` t2) ∧
  (limit ∉ tl1 → limit ∉ tl2 →
   ∃ t1 t2,
     fibonacci_strategy_with_table_limits pre ib (tl1 ++ limit :: tl2)
       ≫= (λ res, res !! limit ≫= (.!! k)) = Some t1 ∧
     fibonacci_strategy_with_table_limits (pre ++ post) ib (tl1 ++ limit :: tl2)
       ≫= (λ res, res !! limit ≫= (.!! k)) = Some t2 ∧
     t1 `prefix_of` t2).
Proof.
  intros Hk. split_and!.
  - eexists _, _. rewrite !no_strategy_fold_eq by done.
    split_and!; [done..|].
    rewrite no_strategy_fold_app.
    destruct (no_strategy_fold_appends g ib k post (0 + length pre)
                (no_strategy_fold g ib k 0 pre [0])) as (more & -> & _).
    by eexists.
  - eexists _, _. rewrite !martingale_strategy_fold by done.
    split_and!; [done..|].
    apply (foldl_prefix fst (λ r, martingale_track None ib (flag_of r k))).
    intros. apply martingale_track_appends.
  - eexists _, _. rewrite !fibonacci_strategy_fold by done.
    split_and!; [done..|].
    apply (foldl_prefix fst (λ r, fibonacci_track None ib (flag_of r k))).
    intros. apply fibonacci_track_appends.
  - eexists _, _. rewrite !d_alembert_strategy_fold by done.
    split_and!; [done..|].
    apply (foldl_prefix fst (λ r, d_alembert_track ib (flag_of r k))).
    intros. apply d_alembert_track_appends.
  - intros Hnot1 Hnot2. eexists _, _. rewrite !martingale_limits_fold by done.
    split_and!; [done..|].
    apply (foldl_prefix fst (λ r, martingale_track (Some limit) ib (flag_of r k))).
    intros. apply martingale_track_appends.
  - intros Hnot1 Hnot2. eexists _, _. rewrite !fibonacci_limits_fold by done.
    split_and!; [done..|].
    apply (foldl_prefix fst (λ r, fibonacci_track (Some limit) ib (flag_of r k))).
    intros. apply fibonacci_track_appends.
Qed.

Lemma trajectories_extend_witness :
  "red" ∈ bet_types ∧ (25 ∉ [50]) ∧ (25 ∉ [100]) ∧
  (∃ t1 t2, martingale_strategy [Row 0 1 0 1] 10 ≫= (.!! "red") = Some t1 ∧
            martingale_strategy ([Row 0 1 0 1] ++ [Row 1 0 1 0]) 10 ≫= (.!! "red")
              = Some t2 ∧
            t1 `prefix_of` t2) ∧
  (∃ t1 t2,
     fibonacci_strategy_with_table_limits [Row 0 1 0 1] 10 ([50] ++ 25 :: [100])
       ≫= (λ res, res !! 25 ≫= (.!! "red")) = Some t1 ∧
     fibonacci_strategy_with_table_limits ([Row 0 1 0 1] ++ [Row 1 0 1 0]) 10
       ([50] ++ 25 :: [100])
       ≫= (λ res, res !! 25 ≫= (.!! "red")) = Some t2 ∧
     t1 `prefix_of` t2).
Proof.
  assert (H1 : 25 ∉ [50]) by compute_done.
  assert (H2 : 25 ∉ [100]) by compute_done.
  split; [compute_done|]. split; [exact H1|]. split; [exact H2|].
  destruct (trajectories_extend (λ _ : nat, 7) 10 [Row 0 1 0 1] [Row 1 0 1 0]
              [50] 25 [100] "red") as (_ & Hm & _ & _ & _ & Hfl); [compute_done|].
  split; [exact Hm|exact (Hfl H1 H2)].
Defined.

(** ** A bet type only sees its own outcomes *)

Lemma foldl_Forall2 {T R : Type} (step : R → T → T) (rows rows' : list R) (t : T) :
  Forall2 (λ r r', ∀ t, step r t = step r' t) rows rows' →
  foldl (λ t r, step r t) t rows = foldl (λ t r, step r t) t rows'.
Proof.
  intros Hrows. revert t. induction Hrows as [|r r' rows rows' Hr _ IH]; intros t.
  - done.
  - simpl. rewrite Hr. apply IH.
Qed.

Lemma same_flag_decide (r r' : row) (k : string) :
  k ∈ bet_types →
  (win_flag r k = Some 1 ↔ win_flag r' k = Some 1) →
  bool_decide (flag_of r k = 1) = bool_decide (flag_of r' k = 1).
Proof.
  intros Hk. rewrite !(win_flag_bet_type _ k Hk). intros Hiff.
  apply bool_decide_ext. split; intros H.
  - assert (Some (flag_of r' k) = Some 1) as [= ->]; [|done]. apply Hiff. by rewrite H.
  - assert (Some (flag_of r k) = Some 1) as [= ->]; [|done]. apply Hiff. by rewrite H.
Qed.

Lemma same_outcomes_tracks {T : Type} (step : Z → T → T) (k : string)
    (data data' : list row) :
  k ∈ bet_types →
  (∀ f f' t, bool_decide (f = 1) = bool_decide (f' = 1) → step f t = step f' t) →
  same_outcomes k data data' →
  Forall2 (λ r r', ∀ t, step (flag_of r k) t = step (flag_of r' k) t) data data'.
Proof.
  intros Hk Hstep Hsame. eapply Forall2_impl; [exact Hsame|].
  intros r r' Hiff t. simpl in Hiff. apply Hstep. by apply same_flag_decide.
Qed.

Lemma martingale_track_flag (cap : option Z) (ib f f' : Z) (t : list Z * Z) :
  bool_decide (f = 1) = bool_decide (f' = 1) →
  martingale_track cap ib f t = martingale_track cap ib f' t.
Proof. intros H. unfold martingale_track. by rewrite H. Qed.

Lemma d_alembert_track_flag (ib f f' : Z) (t : list Z * Z) :
  bool_decide (f = 1) = bool_decide (f' = 1) →
  d_alembert_track ib f t = d_alembert_track ib f' t.
Proof. intros H. unfold d_alembert_track. by rewrite H. Qed.

Lemma fibonacci_track_flag (cap : option Z) (ib f f' : Z) (t : list Z * (list Z * Z)) :
  bool_decide (f = 1) = bool_decide (f' = 1) →
  fibonacci_track cap ib f t = fibonacci_track cap ib f' t.
Proof. intros H. unfold fibonacci_track, fibonacci_progress. by rewrite H. Qed.

Lemma no_strategy_fold_same (g : nat → Z) (ib : Z) (k : string) (data data' : list row)
    (n : nat) (bal : list Z) :
  k ∈ bet_types → same_outcomes k data data' →
  no_strategy_fold g ib k n data bal = no_strategy_fold g ib k n data' bal.
Proof.
  intros Hk Hsame. revert n bal.
  induction Hsame as [|r r' data data' Hr _ IH]; intros n bal; [done|].
  simpl. unfold no_strategy_track. rewrite (same_flag_decide r r' k Hk Hr). apply IH.
Qed.

(** X2. The four bet types are simulated independently, and of a win flag
    only whether it equals 1 matters: when a bet type wins the same spins
    in two data sets, its trajectory is the same for both, whatever the
    other columns hold ([no_strategy] with the same generator; the
    table-limit variants under a limit listed once). *)
Theorem trajectory_of_own_outcomes (g : nat → Z) (ib : Z) (data data' : list row)
    (tl1 : list Z) (limit : Z) (tl2 : list Z) (k : string) :
  k ∈ bet_types → same_outcomes k data data' →
  no_strategy g data ib ≫= (.!! k) = no_strategy g data' ib ≫= (.!! k) ∧
  martingale_strategy data ib ≫= (.!! k) = martingale_strategy data' ib ≫= (.!! k) ∧
  fibonacci_strategy data ib ≫= (.!! k) = fibonacci_strategy data' ib ≫= (.!! k) ∧
  d_alembert_strategy data ib ≫= (.!! k) = d_alembert_strategy data' ib ≫= (.!! k) ∧
  (limit ∉ tl1 → limit ∉ tl2 →
   martingale_strategy_with_table_limits data ib (tl1 ++ limit :: tl2)
     ≫= (λ res, res !! limit ≫= (.!! k))
   = martingale_strategy_with_table_limits data' ib (tl1 ++ limit :: tl2)
       ≫= (λ res, res !! limit ≫= (.!! k))) ∧
  (limit ∉ tl1 → limit ∉ tl2 →
   fibonacci_strategy_with_table_limits data ib (tl1 ++ limit :: tl2)
     ≫= (λ res, res !! limit ≫= (.!! k))
   = fibonacci_strategy_with_table_limits data' ib (tl1 ++ limit :: tl2)
       ≫= (λ res, res !! limit ≫= (.!! k))).
Proof.
  intros Hk Hsame. split_and!.
  - rewrite !no_strategy_fold_eq by done. f_equal. by apply no_strategy_fold_same.
  - rewrite !martingale_strategy_fold by done. do 2 f_equal.
    apply (foldl_Forall2 (martingale_track None ib ∘ (λ r, flag_of r k))).
    apply (same_outcomes_tracks (martingale_track None ib)); [done| |done].
    intros. by apply martingale_track_flag.
  - rewrite !fibonacci_strategy_fold by done. do 2 f_equal.
    apply (foldl_Forall2 (fibonacci_track None ib ∘ (λ r, flag_of r k))).
    apply (same_outcomes_tracks (fibonacci_track None ib)); [done| |done].
    intros. by apply fibonacci_track_flag.
  - rewrite !d_alembert_strategy_fold by done. do 2 f_equal.
    apply (foldl_Forall2 (d_alembert_track ib ∘ (λ r, flag_of r k))).
    apply (same_outcomes_tracks (d_alembert_track ib)); [done| |done].
    intros. by apply d_alembert_track_flag.
  - intros Hnot1 Hnot2. rewrite !martingale_limits_fold by done. do 2 f_equal.
    apply (foldl_Forall2 (martingale_track (Some limit) ib ∘ (λ r, flag_of r k))).
    apply (same_outcomes_tracks (martingale_track (Some limit) ib)); [done| |done].
    intros. by apply martingale_track_flag.
  - intros Hnot1 Hnot2. rewrite !fibonacci_limits_fold by done. do 2 f_equal.
    apply (foldl_Forall2 (fibonacci_track (Some limit) ib ∘ (λ r, flag_of r k))).
    apply (same_outcomes_tracks (fibonacci_track (Some limit) ib)); [done| |done].
    intros. by apply fibonacci_track_flag.
Qed.

Lemma trajectory_of_own_outcomes_witness :
  "red" ∈ bet_types ∧
  same_outcomes "red" [Row 0 1 0 1; Row 1 0 1 0] [Row 7 0 0 0; Row 1 1 1 1] ∧
  martingale_strategy [Row 0 1 0 1; Row 1 0 1 0] 10 ≫= (.!! "red")
  = martingale_strategy [Row 7 0 0 0; Row 1 1 1 1] 10 ≫= (.!! "red").
Proof.
  assert (Hs : same_outcomes "red" [Row 0 1 0 1; Row 1 0 1 0]
                 [Row 7 0 0 0; Row 1 1 1 1]).
  { repeat constructor; by vm_compute. }
  split; [compute_done|]. split; [exact Hs|].
  destruct (trajectory_of_own_outcomes (λ _ : nat, 7) 10 [Row 0 1 0 1; Row 1 0 1 0]
              [Row 7 0 0 0; Row 1 1 1 1] [50] 25 [100] "red")
    as (_ & Hm & _); [compute_done|exact Hs|].
  exact Hm.
Defined.

(** ** The balance after each spin *)

Section trajectory_entries.
Context {T R : Type}.
Variable bal : T → list Z.
Variable step : R → T → T.
Hypothesis step_appends : ∀ r t, ∃ x, bal (step r t) = bal t ++ [x].

Lemma foldl_lookup_take (rows : list R) (t0 : T) (j : nat) :
  bal t0 ≠ [] → (j ≤ length rows)%nat →
  bal (foldl (λ t r, step r t) t0 rows) !! pred (length (bal t0) + j)
  = last (bal (foldl (λ t r, step r t) t0 (take j rows))).
Proof.
  intros Hne Hj.
  rewrite <- (take_drop j rows) at 1. rewrite foldl_app.
  destruct (foldl_appends bal step step_appends (drop j rows)
              (foldl (λ t r, step r t) t0 (take j rows))) as (more & -> & _).
  pose proof (foldl_length bal step step_appends (take j rows) t0) as Hlen.
  rewrite length_take_le in Hlen by done.
  rewrite last_lookup, Hlen. apply lookup_app_l.
  rewrite Hlen. destruct (bal t0); [done|]. simpl. lia.
Qed.
End trajectory_entries.

Lemma flag_of_won (r : row) (k : string) :
  k ∈ bet_types →
  bool_decide (flag_of r k = 1) = bool_decide (win_flag r k = Some 1).
Proof.
  intros Hk. rewrite (win_flag_bet_type r k Hk).
  apply bool_decide_ext. split; [by intros ->|by intros [= ->]].
Qed.

Lemma wins_snoc (k : string) (rows : list row) (r : row) :
  wins k (rows ++ [r])
  = (wins k rows + (if bool_decide (win_flag r k = Some 1%Z) then 1 else 0))%nat.
Proof.
  unfold wins. rewrite filter_app, length_app. f_equal.
  rewrite filter_cons, filter_nil. case_bool_decide.
  - by rewrite decide_True.
  - by rewrite decide_False.
Qed.

Lemma losing_run_snoc (k : string) (rows : list row) (r : row) :
  losing_run k (rows ++ [r])
  = if bool_decide (win_flag r k = Some 1) then O else S (losing_run k rows).
Proof. unfold losing_run. by rewrite foldl_snoc. Qed.

Lemma martingale_fold_closed (ib : Z) (k : string) (rows : list row) :
  k ∈ bet_types →
  (foldl (λ t r, martingale_track None ib (flag_of r k) t) ([0], ib) rows).2
  = ib * 2 ^ Z.of_nat (losing_run k rows) ∧
  last_balance (foldl (λ t r, martingale_track None ib (flag_of r k) t) ([0], ib) rows).1
  = ib * (Z.of_nat (wins k rows) - (2 ^ Z.of_nat (losing_run k rows) - 1)).
Proof.
  intros Hk. induction rows as [|r rows [IHbet IHbal]] using rev_ind.
  - change (losing_run k []) with 0%nat. change (wins k []) with 0%nat.
    simpl. change (last_balance [0]) with 0. change (Z.of_nat 0) with 0.
    rewrite Z.pow_0_r. lia.
  - rewrite foldl_snoc, wins_snoc, losing_run_snoc.
    unfold martingale_track at 1 3. rewrite (flag_of_won r k Hk).
    case_bool_decide; simpl.
    + split; [lia|]. rewrite last_balance_app, IHbal, IHbet. lia.
    + rewrite last_balance_app, IHbal, IHbet.
      rewrite Nat2Z.inj_succ, Z.pow_succ_r by lia. split; lia.
Qed.

(** X3. [martingale_strategy] in closed form: after [j] spins the balance
    of a bet type is [initial_bet * (wins - (2 ^ streak - 1))], where
    [wins] counts the spins it has won and [streak] the spins it has lost
    since its last win, and its next bet is [initial_bet * 2 ^ streak].
    So each win brings the balance to [initial_bet] times the number of
    wins. *)
Theorem martingale_closed_form (ib : Z) (data : list row) (k : string) (j : nat) :
  k ∈ bet_types → (j ≤ length data)%nat →
  ∃ traj,
    martingale_strategy data ib ≫= (.!! k) = Some traj ∧
    traj !! j
      = Some (ib * (Z.of_nat (wins k (take j data))
                    - (2 ^ Z.of_nat (losing_run k (take j data)) - 1))) ∧
    martingale_run ib (take j data) ≫= (λ st, m_bets st !! k)
      = Some (ib * 2 ^ Z.of_nat (losing_run k (take j data))).
Proof.
  intros Hk Hj. eexists. split; [by apply martingale_strategy_fold|].
  destruct (martingale_fold_closed ib k (take j data) Hk) as [Hbet Hbal].
  split.
  - pose proof (foldl_lookup_take fst (λ r, martingale_track None ib (flag_of r k))
                  (λ r t, martingale_track_appends _ _ _ t) data ([0], ib) j) as Hl.
    simpl in Hl. rewrite Hl by done.
    rewrite <- Hbal. apply last_balance_Some.
    destruct (foldl_appends fst (λ r, martingale_track None ib (flag_of r k))
                (λ r t, martingale_track_appends _ _ _ t) (take j data) ([0], ib))
      as (more & -> & _). done.
  - destruct (martingale_run_fold ib (take j data) k Hk) as (st & -> & _ & Hb).
    simpl. by rewrite Hb, Hbet.
Qed.

Lemma martingale_closed_form_witness :
  "red" ∈ bet_types ∧ (2 ≤ length [Row 0 1 0 1; Row 0 1 1 0; Row 1 0 1 0])%nat ∧
  ∃ traj,
    martingale_strategy [Row 0 1 0 1; Row 0 1 1 0; Row 1 0 1 0] 10 ≫= (.!! "red")
      = Some traj ∧
    traj !! 2%nat = Some (-30).
Proof.
  split; [compute_done|]. split; [simpl; lia|].
  destruct (martingale_closed_form 10 [Row 0 1 0 1; Row 0 1 1 0; Row 1 0 1 0] "red" 2)
    as (traj & Htraj & Hj & _); [compute_done|simpl; lia|].
  exists traj. split; [exact Htraj|]. exact Hj.
Defined.

Section trajectory_steps.
Context {T R : Type}.
Variable bal : T → list Z.
Variable step : R → T → T.
Hypothesis step_appends : ∀ r t, ∃ x, bal (step r t) = bal t ++ [x].

Lemma foldl_lookup_step (rows : list R) (t0 : T) (j : nat) (r : R) :
  bal t0 ≠ [] → rows !! j = Some r →
  bal (foldl (λ t r, step r t) t0 rows) !! pred (length (bal t0) + S j)
  = last (bal (step r (foldl (λ t r, step r t) t0 (take j rows)))).
Proof.
  intros Hne Hr. pose proof (lookup_lt_Some _ _ _ Hr) as Hlt.
  rewrite (foldl_lookup_take bal step step_appends) by (done || lia).
  by rewrite (take_S_r _ _ _ Hr), foldl_snoc.
Qed.

Lemma foldl_entry (rows : list R) (t0 : T) (j : nat) :
  length (bal t0) = 1%nat → (j ≤ length rows)%nat →
  bal (foldl (λ t r, step r t) t0 rows) !! j
  = last (bal (foldl (λ t r, step r t) t0 (take j rows))).
Proof.
  intros Hlen Hj.
  rewrite <- (foldl_lookup_take bal step step_appends rows t0 j); [|by destruct (bal t0)|done].
  by rewrite Hlen.
Qed.

Lemma foldl_entry_step (rows : list R) (t0 : T) (j : nat) (r : R) :
  length (bal t0) = 1%nat → rows !! j = Some r →
  bal (foldl (λ t r, step r t) t0 rows) !! S j
  = last (bal (step r (foldl (λ t r, step r t) t0 (take j rows)))).
Proof.
  intros Hlen Hr.
  rewrite <- (foldl_lookup_step rows t0 j r); [|by destruct (bal t0)|done].
  by rewrite Hlen.
Qed.

Lemma foldl_bal_nonempty (rows : list R) (t0 : T) :
  bal t0 ≠ [] → bal (foldl (λ t r, step r t) t0 rows) ≠ [].
Proof.
  intros Hne. destruct (foldl_appends bal step step_appends rows t0) as (more & -> & _).
  by destruct (bal t0).
Qed.
End trajectory_steps.

(** ** D'Alembert: the bet is a multiple of the initial bet *)

Lemma d_alembert_level_snoc (k : string) (rows : list row) (r : row) :
  d_alembert_level k (rows ++ [r])
  = if bool_decide (win_flag r k = Some 1)
    then pred (d_alembert_level k rows) else S (d_alembert_level k rows).
Proof. unfold d_alembert_level. by rewrite foldl_snoc. Qed.

Lemma d_alembert_level_le (k : string) (rows : list row) :
  (d_alembert_level k rows ≤ length rows)%nat.
Proof.
  induction rows as [|r rows IH] using rev_ind; [done|].
  rewrite d_alembert_level_snoc, length_app. simpl. case_bool_decide; lia.
Qed.

Lemma d_alembert_fold_level (ib : Z) (k : string) (rows : list row) :
  0 ≤ ib → k ∈ bet_types →
  (foldl (λ t r, d_alembert_track ib (flag_of r k) t) ([0], ib) rows).2
  = ib * (1 + Z.of_nat (d_alembert_level k rows)).
Proof.
  intros Hib Hk. induction rows as [|r rows IH] using rev_ind.
  - simpl. change (d_alembert_level k []) with 0%nat. lia.
  - rewrite foldl_snoc, d_alembert_level_snoc.
    unfold d_alembert_track at 1. rewrite (flag_of_won r k Hk).
    case_bool_decide; simpl; rewrite IH.
    + destruct (d_alembert_level k rows) as [|l]; simpl pred; nia.
    + lia.
Qed.

(** X4. In [d_alembert_strategy] with a non-negative initial bet, the
    wager of a bet type on spin [j] is [initial_bet * (1 + level)], where
    the level goes up by one on each loss and down by one, not below zero,
    on each win; the level never exceeds the number of spins played, so the
    wager grows at most linearly; the balance moves by exactly that wager,
    up on a win and down on a loss. *)
Theorem d_alembert_steps (ib : Z) (data : list row) (k : string) (j : nat) (r : row) :
  0 ≤ ib → k ∈ bet_types → data !! j = Some r →
  ∃ traj a,
    d_alembert_strategy data ib ≫= (.!! k) = Some traj ∧
    traj !! j = Some a ∧
    traj !! S j
      = Some (if bool_decide (win_flag r k = Some 1)
              then a + ib * (1 + Z.of_nat (d_alembert_level k (take j data)))
              else a - ib * (1 + Z.of_nat (d_alembert_level k (take j data)))) ∧
    d_alembert_run ib (take j data) ≫= (λ st, d_bets st !! k)
      = Some (ib * (1 + Z.of_nat (d_alembert_level k (take j data)))) ∧
    (d_alembert_level k (take j data) ≤ j)%nat.
Proof.
  intros Hib Hk Hr. pose proof (lookup_lt_Some _ _ _ Hr) as Hlt.
  pose (step := λ (r : row), d_alembert_track ib (flag_of r k)).
  assert (Happ : ∀ r t, ∃ x, (step r t).1 = t.1 ++ [x])
    by (intros; apply d_alembert_track_appends).
  pose proof (d_alembert_fold_level ib k (take j data) Hib Hk) as Hbet.
  set (t := foldl (λ t r, d_alembert_track ib (flag_of r k) t) ([0], ib) (take j data)) in *.
  exists (foldl (λ t r, d_alembert_track ib (flag_of r k) t) ([0], ib) data).1,
    (last_balance t.1).
  split_and!.
  - by apply d_alembert_strategy_fold.
  - pose proof (foldl_entry fst step Happ data ([0], ib) j) as He.
    unfold step in He. cbn beta in He. rewrite He by (done || lia).
    apply last_balance_Some. by apply (foldl_bal_nonempty fst step Happ).
  - pose proof (foldl_entry_step fst step Happ data ([0], ib) j r) as He.
    unfold step in He. cbn beta in He. rewrite He by done.
    fold t. unfold d_alembert_track. rewrite (flag_of_won r k Hk).
    case_bool_decide; simpl; by rewrite last_snoc, Hbet.
  - destruct (d_alembert_run_fold ib (take j data) k Hk) as (st & -> & _ & Hb).
    simpl. rewrite Hb. f_equal. exact Hbet.
  - etrans; [apply d_alembert_level_le|]. rewrite length_take. lia.
Qed.

Lemma d_alembert_steps_witness :
  0 ≤ 10 ∧ "red" ∈ bet_types ∧
  [Row 0 1 0 1; Row 0 1 1 0; Row 1 0 1 0] !! 2%nat = Some (Row 1 0 1 0) ∧
  ∃ traj a,
    d_alembert_strategy [Row 0 1 0 1; Row 0 1 1 0; Row 1 0 1 0] 10 ≫= (.!! "red")
      = Some traj ∧
    traj !! 2%nat = Some a ∧ traj !! 3%nat = Some (a + 10 * (1 + 2)).
Proof.
  split; [lia|]. split; [compute_done|]. split; [reflexivity|].
  destruct (d_alembert_steps 10 [Row 0 1 0 1; Row 0 1 1 0; Row 1 0 1 0] "red" 2
              (Row 1 0 1 0)) as (traj & a & Htraj & Ha & Hb & _);
    [lia|compute_done|reflexivity|].
  exists traj, a. split; [exact Htraj|]. split; [exact Ha|]. exact Hb.
Defined.

(** ** Fibonacci: the wager is a Fibonacci number times the initial bet *)

Lemma fibonacci_index_snoc (k : string) (rows : list row) (r : row) :
  fibonacci_index k (rows ++ [r])
  = if bool_decide (win_flag r k = Some 1)
    then (fibonacci_index k rows - 2)%nat else S (fibonacci_index k rows).
Proof. unfold fibonacci_index. by rewrite foldl_snoc. Qed.

Lemma fibonacci_index_le (k : string) (rows : list row) :
  (fibonacci_index k rows ≤ length rows)%nat.
Proof.
  induction rows as [|r rows IH] using rev_ind; [done|].
  rewrite fibonacci_index_snoc, length_app. simpl. case_bool_decide; lia.
Qed.

Lemma fibonacci_fold_index (k : string) (rows : list row) :
  k ∈ bet_types →
  (foldl (λ p r, fibonacci_progress (flag_of r k) p) ([1; 1], 0) rows).2
  = Z.of_nat (fibonacci_index k rows).
Proof.
  intros Hk. induction rows as [|r rows IH] using rev_ind; [done|].
  rewrite foldl_snoc, fibonacci_index_snoc.
  unfold fibonacci_progress at 1. rewrite (flag_of_won r k Hk).
  case_bool_decide; simpl; rewrite IH; lia.
Qed.

Lemma fibonacci_fold_inv (cap : option Z) (ib : Z) (k : string) (rows : list row) :
  fibonacci_inv (foldl (λ t r, fibonacci_track cap ib (flag_of r k) t)
                   ([0], ([1; 1], 0)) rows).
Proof.
  induction rows as [|r rows IH] using rev_ind.
  - by apply fibonacci_inv_init.
  - rewrite foldl_snoc. by apply fibonacci_track_inv.
Qed.

Lemma fibonacci_fold_wager (cap : option Z) (ib : Z) (k : string) (rows : list row) :
  k ∈ bet_types →
  default 0 (getitem
               (foldl (λ t r, fibonacci_track cap ib (flag_of r k) t)
                  ([0], ([1; 1], 0)) rows).2.1
               (foldl (λ t r, fibonacci_track cap ib (flag_of r k) t)
                  ([0], ([1; 1], 0)) rows).2.2)
  = fib (fibonacci_index k rows).
Proof.
  intros Hk. rewrite (fibonacci_inv_wager _ (fibonacci_fold_inv cap ib k rows)).
  simpl. rewrite fibonacci_track_progress. simpl.
  by rewrite fibonacci_fold_index, Nat2Z.id.
Qed.

Lemma fibonacci_progress_length (k : string) (rows : list row) :
  (length (foldl (λ p r, fibonacci_progress (flag_of r k) p) ([1%Z; 1%Z], 0%Z) rows).1
   ≤ 2 + length rows)%nat.
Proof.
  induction rows as [|r rows IH] using rev_ind; [done|].
  rewrite foldl_snoc, length_app. unfold fibonacci_progress at 1.
  case_bool_decide; simpl; [lia|].
  unfold fibonacci_extend. case_bool_decide; [|lia].
  rewrite length_app. simpl. lia.
Qed.

(** X5. In [fibonacci_strategy] the wager of a bet type on spin [j] is
    [fib(index) * initial_bet], where the index goes up by one on each loss
    and down by two, not below zero, on each win; the balance moves by
    exactly that wager, and under a table limit listed once by
    [min(fib(index) * initial_bet, limit)].  The index never exceeds the
    number of spins played and the stored sequence is the Fibonacci prefix
    of some length between 2 and that number plus 2. *)
Theorem fibonacci_steps (ib : Z) (data : list row) (tl1 : list Z) (limit : Z)
    (tl2 : list Z) (k : string) (j : nat) (r : row) :
  k ∈ bet_types → data !! j = Some r →
  (∃ traj a,
     fibonacci_strategy data ib ≫= (.!! k) = Some traj ∧
     traj !! j = Some a ∧
     traj !! S j
       = Some (if bool_decide (win_flag r k = Some 1)
               then a + fib (fibonacci_index k (take j data)) * ib
               else a - fib (fibonacci_index k (take j data)) * ib)) ∧
  (limit ∉ tl1 → limit ∉ tl2 →
   ∃ traj a,
     fibonacci_strategy_with_table_limits data ib (tl1 ++ limit :: tl2)
       ≫= (λ res, res !! limit ≫= (.!! k)) = Some traj ∧
     traj !! j = Some a ∧
     traj !! S j
       = Some (if bool_decide (win_flag r k = Some 1)
               then a + Z.min (fib (fibonacci_index k (take j data)) * ib) limit
               else a - Z.min (fib (fibonacci_index k (take j data)) * ib) limit)) ∧
  fibonacci_run ib (take j data) ≫= (λ st, f_indices st !! k)
    = Some (Z.of_nat (fibonacci_index k (take j data))) ∧
  (fibonacci_index k (take j data) ≤ j)%nat ∧
  (∃ n, (2 ≤ n ≤ j + 2)%nat ∧
        fibonacci_run ib (take j data) ≫= (λ st, f_sequences st !! k)
          = Some (fib_prefix n)).
Proof.
  intros Hk Hr. pose proof (lookup_lt_Some _ _ _ Hr) as Hlt.
  assert (Hstep : ∀ cap, ∃ a,
    (foldl (λ t r, fibonacci_track cap ib (flag_of r k) t) ([0], ([1; 1], 0)) data).1
      !! j = Some a ∧
    (foldl (λ t r, fibonacci_track cap ib (flag_of r k) t) ([0], ([1; 1], 0)) data).1
      !! S j
    = Some (if bool_decide (win_flag r k = Some 1)
            then a + clamp cap (fib (fibonacci_index k (take j data)) * ib)
            else a - clamp cap (fib (fibonacci_index k (take j data)) * ib))).
  { intros cap.
    pose (step := λ (r : row), fibonacci_track cap ib (flag_of r k)).
    assert (Happ : ∀ r t, ∃ x, (step r t).1 = t.1 ++ [x])
      by (intros; apply fibonacci_track_appends).
    pose proof (fibonacci_fold_wager cap ib k (take j data) Hk) as Hw.
    set (t := foldl (λ t r, fibonacci_track cap ib (flag_of r k) t)
                ([0], ([1; 1], 0)) (take j data)) in *.
    exists (last_balance t.1). split.
    - pose proof (foldl_entry fst step Happ data ([0], ([1; 1], 0)) j) as He.
      unfold step in He. cbn beta in He. rewrite He by (done || lia).
      apply last_balance_Some. by apply (foldl_bal_nonempty fst step Happ).
    - pose proof (foldl_entry_step fst step Happ data ([0], ([1; 1], 0)) j r) as He.
      unfold step in He. cbn beta in He. rewrite He by done.
      fold t. unfold fibonacci_track. rewrite (flag_of_won r k Hk).
      simpl. rewrite last_snoc, Hw.
      case_bool_decide; [done|]. by rewrite Z.add_opp_r. }
  split_and!.
  - destruct (Hstep None) as (a & Ha & Hb). eexists _, a.
    split; [by apply fibonacci_strategy_fold|]. by split.
  - intros Hnot1 Hnot2. destruct (Hstep (Some limit)) as (a & Ha & Hb). eexists _, a.
    split; [by apply fibonacci_limits_fold|]. by split.
  - destruct (fibonacci_run_fold ib (take j data) k Hk) as (st & -> & _ & _ & Hi).
    simpl. by rewrite Hi, fibonacci_fold_index.
  - etrans; [apply fibonacci_index_le|]. rewrite length_take. lia.
  - destruct (fibonacci_run_fold ib (take j data) k Hk) as (st & -> & _ & Hs & _).
    pose proof (fibonacci_fold_inv None ib k (take j data)) as (_ & Hpre & Hlen & _).
    rewrite fibonacci_track_progress in Hpre, Hlen. simpl in Hpre, Hlen.
    pose proof (fibonacci_progress_length k (take j data)) as Hle.
    rewrite length_take in Hle.
    eexists. split; [|simpl; rewrite Hs; f_equal; exact Hpre]. lia.
Qed.

Lemma fibonacci_steps_witness :
  "red" ∈ bet_types ∧
  [Row 0 1 0 1; Row 0 1 1 0; Row 0 0 1 0] !! 2%nat = Some (Row 0 0 1 0) ∧
  (25 ∉ [50]) ∧ (25 ∉ [100]) ∧
  (∃ traj a,
     fibonacci_strategy [Row 0 1 0 1; Row 0 1 1 0; Row 0 0 1 0] 10 ≫= (.!! "red")
       = Some traj ∧
     traj !! 2%nat = Some a ∧ traj !! 3%nat = Some (a - 2 * 10)) ∧
  (∃ traj a,
     fibonacci_strategy_with_table_limits [Row 0 1 0 1; Row 0 1 1 0; Row 0 0 1 0] 10
       ([50] ++ 25 :: [100])
       ≫= (λ res, res !! 25 ≫= (.!! "red")) = Some traj ∧
     traj !! 2%nat = Some a ∧ traj !! 3%nat = Some (a - Z.min (2 * 10) 25)).
Proof.
  assert (H1 : 25 ∉ [50]) by compute_done.
  assert (H2 : 25 ∉ [100]) by compute_done.
  split; [compute_done|]. split; [reflexivity|]. split; [exact H1|]. split; [exact H2|].
  destruct (fibonacci_steps 10 [Row 0 1 0 1; Row 0 1 1 0; Row 0 0 1 0] [50] 25 [100]
              "red" 2 (Row 0 0 1 0)) as (Hbase & Hlim & _);
    [compute_done|reflexivity|].
  split; [exact Hbase|exact (Hlim H1 H2)].
Defined.

(** ** A table limit that is never reached *)

Lemma losing_run_le (k : string) (rows : list row) :
  (losing_run k rows ≤ length rows)%nat.
Proof.
  induction rows as [|r rows IH] using rev_ind; [done|].
  rewrite losing_run_snoc, length_app. simpl. case_bool_decide; lia.
Qed.

Lemma martingale_bets_below (ib limit : Z) (n m : nat) :
  ib ≤ limit → ib * 2 ^ Z.of_nat m ≤ limit → (n ≤ m)%nat →
  ib * 2 ^ Z.of_nat n ≤ limit.
Proof.
  intros Hib Hm Hn. destruct (decide (0 ≤ ib)) as [Hpos|Hneg].
  - etrans; [|exact Hm]. apply Z.mul_le_mono_nonneg_l; [done|].
    apply Z.pow_le_mono_r; lia.
  - pose proof (Z.pow_pos_nonneg 2 (Z.of_nat n)). nia.
Qed.

Lemma martingale_fold_uncapped (ib limit : Z) (k : string) (rows : list row) :
  k ∈ bet_types → ib ≤ limit → ib * 2 ^ Z.of_nat (length rows) ≤ limit →
  foldl (λ t r, martingale_track (Some limit) ib (flag_of r k) t) ([0], ib) rows
  = foldl (λ t r, martingale_track None ib (flag_of r k) t) ([0], ib) rows.
Proof.
  intros Hk Hib. induction rows as [|r rows IH] using rev_ind; intros Hlim; [done|].
  rewrite length_app in Hlim. simpl in Hlim.
  pose proof (losing_run_le k rows) as Hrun.
  rewrite !foldl_snoc, IH by (apply (martingale_bets_below ib limit _ _ Hib Hlim); lia).
  destruct (martingale_fold_closed ib k rows Hk) as [Hbet _].
  set (t := foldl (λ t r, martingale_track None ib (flag_of r k) t) ([0], ib) rows) in *.
  unfold martingale_track, clamp. rewrite Hbet.
  rewrite Z.min_l by (apply (martingale_bets_below ib limit _ _ Hib Hlim); lia).
  rewrite Z.min_l; [done|].
  replace (ib * 2 ^ Z.of_nat (losing_run k rows) * 2)
    with (ib * 2 ^ Z.of_nat (S (losing_run k rows)))
    by (rewrite Nat2Z.inj_succ, Z.pow_succ_r by lia; lia).
  apply (martingale_bets_below ib limit _ _ Hib Hlim). lia.
Qed.

Lemma fibonacci_wagers_below (ib limit : Z) (n m : nat) :
  ib ≤ limit → fib m * ib ≤ limit → (n ≤ m)%nat → fib n * ib ≤ limit.
Proof.
  intros Hib Hm Hn. destruct (decide (0 ≤ ib)) as [Hpos|Hneg].
  - etrans; [|exact Hm]. apply Z.mul_le_mono_nonneg_r; [done|]. by apply fib_mono.
  - pose proof (fib_pos n) as [Hn0 _]. nia.
Qed.

Lemma fibonacci_fold_uncapped (ib limit : Z) (k : string) (rows : list row) :
  k ∈ bet_types → ib ≤ limit → fib (length rows) * ib ≤ limit →
  foldl (λ t r, fibonacci_track (Some limit) ib (flag_of r k) t) ([0], ([1; 1], 0)) rows
  = foldl (λ t r, fibonacci_track None ib (flag_of r k) t) ([0], ([1; 1], 0)) rows.
Proof.
  intros Hk Hib. induction rows as [|r rows IH] using rev_ind; intros Hlim; [done|].
  rewrite length_app in Hlim. simpl in Hlim.
  pose proof (fibonacci_index_le k rows) as Hidx.
  rewrite !foldl_snoc, IH by (apply (fibonacci_wagers_below ib limit _ _ Hib Hlim); lia).
  pose proof (fibonacci_fold_wager None ib k rows Hk) as Hw.
  set (t := foldl (λ t r, fibonacci_track None ib (flag_of r k) t)
              ([0], ([1; 1], 0)) rows) in *.
  unfold fibonacci_track, clamp. rewrite Hw.
  rewrite Z.min_l; [done|].
  apply (fibonacci_wagers_below ib limit _ _ Hib Hlim). lia.
Qed.

(** X6. A table limit that the wagers cannot reach changes nothing: when
    [initial_bet ≤ limit] and [initial_bet * 2 ^ len(data) ≤ limit], the
    trajectories of [martingale_strategy_with_table_limits] under [limit]
    (listed once) are those of [martingale_strategy]; when
    [initial_bet ≤ limit] and [fib(len(data)) * initial_bet ≤ limit], those
    of [fibonacci_strategy_with_table_limits] are those of
    [fibonacci_strategy]. *)
Theorem high_limit_unconstrained (data : list row) (ib : Z) (tl1 : list Z)
    (limit : Z) (tl2 : list Z) (k : string) :
  k ∈ bet_types → limit ∉ tl1 → limit ∉ tl2 → ib ≤ limit →
  (ib * 2 ^ Z.of_nat (length data) ≤ limit →
   martingale_strategy_with_table_limits data ib (tl1 ++ limit :: tl2)
     ≫= (λ res, res !! limit ≫= (.!! k))
   = martingale_strategy data ib ≫= (.!! k)) ∧
  (fib (length data) * ib ≤ limit →
   fibonacci_strategy_with_table_limits data ib (tl1 ++ limit :: tl2)
     ≫= (λ res, res !! limit ≫= (.!! k))
   = fibonacci_strategy data ib ≫= (.!! k)).
Proof.
  intros Hk Hnot1 Hnot2 Hib. split; intros Hlim.
  - rewrite martingale_limits_fold, martingale_strategy_fold by done.
    by rewrite martingale_fold_uncapped.
  - rewrite fibonacci_limits_fold, fibonacci_strategy_fold by done.
    by rewrite fibonacci_fold_uncapped.
Qed.

Lemma high_limit_unconstrained_witness :
  "red" ∈ bet_types ∧ (100 ∉ [50]) ∧ (100 ∉ [25]) ∧ 10 ≤ 100 ∧
  10 * 2 ^ Z.of_nat (length [Row 0 1 0 1; Row 0 1 1 0]) ≤ 100 ∧
  fib (length [Row 0 1 0 1; Row 0 1 1 0]) * 10 ≤ 100 ∧
  martingale_strategy_with_table_limits [Row 0 1 0 1; Row 0 1 1 0] 10
    ([50] ++ 100 :: [25]) ≫= (λ res, res !! 100 ≫= (.!! "red"))
  = martingale_strategy [Row 0 1 0 1; Row 0 1 1 0] 10 ≫= (.!! "red") ∧
  fibonacci_strategy_with_table_limits [Row 0 1 0 1; Row 0 1 1 0] 10
    ([50] ++ 100 :: [25]) ≫= (λ res, res !! 100 ≫= (.!! "red"))
  = fibonacci_strategy [Row 0 1 0 1; Row 0 1 1 0] 10 ≫= (.!! "red").
Proof.
  assert (H1 : 100 ∉ [50]) by compute_done.
  assert (H2 : 100 ∉ [25]) by compute_done.
  assert (Hm : 10 * 2 ^ Z.of_nat (length [Row 0 1 0 1; Row 0 1 1 0]) ≤ 100)
    by (simpl; lia).
  assert (Hf : fib (length [Row 0 1 0 1; Row 0 1 1 0]) * 10 ≤ 100) by (simpl; lia).
  split; [compute_done|]. split; [exact H1|]. split; [exact H2|]. split; [lia|].
  split; [exact Hm|]. split; [exact Hf|].
  destruct (high_limit_unconstrained [Row 0 1 0 1; Row 0 1 1 0] 10 [50] 100 [25] "red")
    as [Hmart Hfib]; [compute_done|exact H1|exact H2|lia|].
  split; [exact (Hmart Hm)|exact (Hfib Hf)].
Defined.

(** ** Table limits listed more than once *)

Lemma dict_comprehension_lookup_None {K V : Type} `{Countable K} (f : K → V)
    (keys : list K) (k : K) :
  k ∉ keys → dict_comprehension f keys !! k = None.
Proof.
  unfold dict_comprehension. assert (Hm : (∅ : gmap K V) !! k = None) by done.
  revert Hm. generalize (∅ : gmap K V).
  induction keys as [|k' keys IH]; intros m Hm Hk; [done|].
  apply not_elem_of_cons in Hk as [Hne Hk]. simpl. apply IH; [|done].
  by rewrite lookup_insert_ne.
Qed.

Lemma occurrences_cons (limit l : Z) (tl : list Z) :
  occurrences limit (l :: tl)
  = ((if bool_decide (l = limit) then 1 else 0) + occurrences limit tl)%nat.
Proof.
  unfold occurrences. rewrite filter_cons. case_bool_decide.
  - by rewrite decide_True.
  - by rewrite decide_False.
Qed.

Lemma occurrences_replicate (limit : Z) (c : nat) :
  occurrences limit (replicate c limit) = c.
Proof.
  induction c as [|c IH]; [done|]. simpl. rewrite occurrences_cons, IH.
  by rewrite bool_decide_true.
Qed.

Lemma occurrences_pos (limit : Z) (tl : list Z) :
  limit ∈ tl → (0 < occurrences limit tl)%nat.
Proof.
  induction tl as [|l tl IH]; intros Hin; [by apply elem_of_nil in Hin|].
  rewrite occurrences_cons. apply elem_of_cons in Hin as [->|Hin].
  - rewrite bool_decide_true by done. lia.
  - specialize (IH Hin). lia.
Qed.

Section table_limit_replays.
Variable pass : Z → gmap Z (gmap string (list Z))
                → option (gmap Z (gmap string (list Z))).
Variable n : nat.
Variable replay : Z → string → list Z → list Z.

Hypothesis replay_appends : ∀ limit k bal,
  ∃ more, replay limit k bal = bal ++ more ∧ length more = n.

Hypothesis pass_replays : ∀ limit res,
  wf_results res limit →
  ∃ res', pass limit res = Some res' ∧
    (∀ limit', limit' ≠ limit → res' !! limit' = res !! limit') ∧
    (∀ inner k bal,
       res !! limit = Some inner → k ∈ bet_types → inner !! k = Some bal →
       ∃ inner', res' !! limit = Some inner' ∧
                 inner' !! k = Some (replay limit k bal)).

Lemma pass_replays_spec (limit : Z) (res : gmap Z (gmap string (list Z))) :
  wf_results res limit →
  ∃ res', pass limit res = Some res' ∧
    (∀ limit', limit' ≠ limit → res' !! limit' = res !! limit') ∧
    (∀ inner k bal,
       res !! limit = Some inner → k ∈ bet_types → inner !! k = Some bal →
       ∃ inner' more, res' !! limit = Some inner' ∧
                      inner' !! k = Some (bal ++ more) ∧ length more = n).
Proof.
  intros Hwf. destruct (pass_replays limit res Hwf) as (res' & Hp & Hframe & Hgrow).
  exists res'. split; [exact Hp|]. split; [exact Hframe|].
  intros inner k bal Hi Hk Hb.
  destruct (Hgrow inner k bal Hi Hk Hb) as (inner' & Hi' & Hb').
  destruct (replay_appends limit k bal) as (more & Hm & Hlen).
  exists inner', more. by rewrite <- Hm.
Qed.

Lemma replays_appends (limit : Z) (k : string) (c : nat) (bal : list Z) :
  ∃ more, Nat.iter c (replay limit k) bal = bal ++ more ∧
          length more = (c * n)%nat.
Proof.
  induction c as [|c (more & IH & Hlen)].
  - exists []. by rewrite app_nil_r.
  - simpl. rewrite IH.
    destruct (replay_appends limit k (bal ++ more)) as (more' & -> & Hlen').
    exists (more ++ more'). rewrite app_assoc. split; [done|].
    rewrite length_app. lia.
Qed.

Lemma passes_replay (tl : list Z) (res : gmap Z (gmap string (list Z)))
    (limit : Z) (inner : gmap string (list Z)) (k : string) (bal : list Z) :
  (∀ limit', limit' ∈ tl → wf_results res limit') →
  res !! limit = Some inner → k ∈ bet_types → inner !! k = Some bal →
  ∃ res' inner',
    for_each pass tl res = Some res' ∧ res' !! limit = Some inner' ∧
    inner' !! k = Some (Nat.iter (occurrences limit tl) (replay limit k) bal).
Proof.
  revert res inner bal.
  induction tl as [|l tl IH]; intros res inner bal Hwf Hinner Hk Hbal.
  - by exists res, inner.
  - rewrite for_each_cons, occurrences_cons.
    destruct (pass_replays l res) as (res1 & Hres1 & Hframe & Hgrow); [apply Hwf; left|].
    rewrite Hres1. cbn [mbind option_bind].
    assert (Hwf1 : ∀ l', l' ∈ tl → wf_results res1 l').
    { intros l' Hl'.
      eapply (pass_wf pass n pass_replays_spec l l' res);
        [apply Hwf; left|done|apply Hwf; by right]. }
    case_bool_decide as Hl.
    + subst l.
      destruct (Hgrow inner k bal Hinner Hk Hbal) as (inner1 & Hi1 & Hb1).
      destruct (IH res1 inner1 (replay limit k bal) Hwf1 Hi1 Hk Hb1)
        as (res' & inner' & Hrun & Hi' & Hb').
      exists res', inner'. split; [done|]. split; [done|].
      rewrite Hb'. change (1 + occurrences limit tl)%nat with (S (occurrences limit tl)).
      by rewrite Nat.iter_succ_r.
    + apply (IH res1 inner bal Hwf1); [|done..]. rewrite Hframe; [done|]. congruence.
Qed.

Lemma limits_replay (tls : list Z) (limit : Z) (k : string) :
  limit ∈ tls → k ∈ bet_types →
  ∃ res traj,
    for_each pass tls (init_results tls) = Some res ∧
    (∀ l, is_Some (res !! l) ↔ l ∈ tls) ∧
    res !! limit ≫= (.!! k) = Some traj ∧
    for_each pass (replicate (occurrences limit tls) limit)
      (init_results (replicate (occurrences limit tls) limit))
      ≫= (λ res, res !! limit ≫= (.!! k)) = Some traj ∧
    head traj = Some 0 ∧
    length traj = S (occurrences limit tls * n).
Proof.
  intros Hin Hk. set (c := occurrences limit tls).
  assert (Hwf : ∀ l, l ∈ tls → wf_results (init_results tls) l)
    by (intros l Hl; by apply init_results_wf).
  destruct (passes_replay tls (init_results tls) limit (per_bet_type [0]) k [0] Hwf)
    as (res & inner & Hrun & Hinner & Htraj);
    [by apply init_results_lookup|done|by apply per_bet_type_lookup|].
  fold c in Htraj.
  destruct (passes_total pass n pass_replays_spec tls (init_results tls) Hwf)
    as (res' & Hrun' & Hout & Hkeep).
  rewrite Hrun in Hrun'. injection Hrun' as <-.
  assert (Hc : limit ∈ replicate c limit).
  { apply elem_of_replicate. split; [done|].
    pose proof (occurrences_pos limit tls Hin) as Hpos. fold c in Hpos. lia. }
  destruct (passes_replay (replicate c limit) (init_results (replicate c limit)) limit
              (per_bet_type [0]) k [0])
    as (res2 & inner2 & Hrun2 & Hinner2 & Htraj2);
    [intros l Hl; by apply init_results_wf|by apply init_results_lookup|done
    |by apply per_bet_type_lookup|].
  rewrite occurrences_replicate in Htraj2.
  destruct (replays_appends limit k c [0]) as (more & Hmore & Hlen).
  exists res, (Nat.iter c (replay limit k) [0]). split; [exact Hrun|]. split_and!.
  - intros l. split.
    + intros Hl. destruct (decide (l ∈ tls)) as [|Hnot]; [done|].
      rewrite (Hout l Hnot) in Hl. unfold init_results in Hl.
      rewrite dict_comprehension_lookup_None in Hl by done. by destruct Hl.
    + intros Hl. destruct (Hkeep l (Hwf l Hl)) as (inner' & -> & _). by eexists.
  - rewrite Hinner. exact Htraj.
  - rewrite Hrun2. cbn [mbind option_bind]. rewrite Hinner2. exact Htraj2.
  - by rewrite Hmore.
  - rewrite Hmore. simpl. by rewrite Hlen.
Qed.
End table_limit_replays.

Lemma martingale_limit_pass_replays (data : list row) (ib limit : Z)
    (res : gmap Z (gmap string (list Z))) :
  wf_results res limit →
  ∃ res', martingale_limit_pass data ib limit res = Some res' ∧
    (∀ limit', limit' ≠ limit → res' !! limit' = res !! limit') ∧
    (∀ inner k bal,
       res !! limit = Some inner → k ∈ bet_types → inner !! k = Some bal →
       ∃ inner', res' !! limit = Some inner' ∧
         inner' !! k
         = Some (foldl (λ t r, martingale_track (Some limit) ib (flag_of r k) t)
                   (bal, ib) data).1).
Proof.
  intros Hwf.
  destruct (martingale_limit_pass_spec data ib limit res Hwf) as (res' & Hp & Hframe & _).
  exists res'. split; [exact Hp|]. split; [exact Hframe|].
  destruct Hwf as (inner & Hinner & Hbals).
  intros inner0 k bal Hi0 Hk Hbal. rewrite Hinner in Hi0. injection Hi0 as <-.
  destruct (martingale_limit_reach ib limit data res inner Hinner Hbals)
    as (st & Hst & Htr).
  unfold martingale_limit_pass in Hp. rewrite Hst in Hp. injection Hp as <-.
  destruct (Htr k Hk) as [Hv _].
  apply martingale_limit_view_Some in Hv as [(inner' & Hinner' & Hbal') _].
  rewrite Hbal in Hbal'. by exists inner'.
Qed.

Lemma fibonacci_limit_pass_replays (data : list row) (ib limit : Z)
    (res : gmap Z (gmap string (list Z))) :
  wf_results res limit →
  ∃ res', fibonacci_limit_pass data ib limit res = Some res' ∧
    (∀ limit', limit' ≠ limit → res' !! limit' = res !! limit') ∧
    (∀ inner k bal,
       res !! limit = Some inner → k ∈ bet_types → inner !! k = Some bal →
       ∃ inner', res' !! limit = Some inner' ∧
         inner' !! k
         = Some (foldl (λ t r, fibonacci_track (Some limit) ib (flag_of r k) t)
                   (bal, ([1; 1], 0)) data).1).
Proof.
  intros Hwf.
  destruct (fibonacci_limit_pass_spec data ib limit res Hwf) as (res' & Hp & Hframe & _).
  exists res'. split; [exact Hp|]. split; [exact Hframe|].
  destruct Hwf as (inner & Hinner & Hbals).
  intros inner0 k bal Hi0 Hk Hbal. rewrite Hinner in Hi0. injection Hi0 as <-.
  destruct (fibonacci_limit_reach ib limit data res inner Hinner Hbals)
    as (st & Hst & Htr).
  unfold fibonacci_limit_pass in Hp. rewrite Hst in Hp. injection Hp as <-.
  destruct (Htr k Hk) as [Hv _].
  apply fibonacci_limit_view_Some in Hv as [(inner' & Hinner' & Hbal') _].
  rewrite Hbal in Hbal'. by exists inner'.
Qed.

(** X7. Both table-limit variants return, for every list of limits, a
    dictionary whose keys are exactly the listed limits.  The trajectory
    under a limit depends on the other limits not at all, and on the list
    only through the number of times the limit is listed: it is the one
    returned for that limit listed alone that many times, and it holds 0
    followed by one balance per spin for each time the limit is listed. *)
Theorem repeated_limits_replay (data : list row) (ib : Z) (tls : list Z)
    (limit : Z) (k : string) :
  limit ∈ tls → k ∈ bet_types →
  ∃ mres fres mt ft,
    martingale_strategy_with_table_limits data ib tls = Some mres ∧
    fibonacci_strategy_with_table_limits data ib tls = Some fres ∧
    (∀ l, is_Some (mres !! l) ↔ l ∈ tls) ∧
    (∀ l, is_Some (fres !! l) ↔ l ∈ tls) ∧
    mres !! limit ≫= (.!! k) = Some mt ∧
    fres !! limit ≫= (.!! k) = Some ft ∧
    martingale_strategy_with_table_limits data ib
      (replicate (occurrences limit tls) limit)
      ≫= (λ res, res !! limit ≫= (.!! k)) = Some mt ∧
    fibonacci_strategy_with_table_limits data ib
      (replicate (occurrences limit tls) limit)
      ≫= (λ res, res !! limit ≫= (.!! k)) = Some ft ∧
    head mt = Some 0 ∧ head ft = Some 0 ∧
    length mt = S (occurrences limit tls * length data) ∧
    length ft = S (occurrences limit tls * length data).
Proof.
  intros Hin Hk.
  destruct (limits_replay (martingale_limit_pass data ib) (length data)
              (λ limit k bal,
                 (foldl (λ t r, martingale_track (Some limit) ib (flag_of r k) t)
                    (bal, ib) data).1)
              (λ limit k bal,
                 foldl_appends fst (λ r, martingale_track (Some limit) ib (flag_of r k))
                   (λ r t, martingale_track_appends _ _ _ t) data (bal, ib))
              (martingale_limit_pass_replays data ib) tls limit k Hin Hk)
    as (mres & mt & Hm & Hmk & Hmt & Hmr & Hmh & Hml).
  destruct (limits_replay (fibonacci_limit_pass data ib) (length data)
              (λ limit k bal,
                 (foldl (λ t r, fibonacci_track (Some limit) ib (flag_of r k) t)
                    (bal, ([1; 1], 0)) data).1)
              (λ limit k bal,
                 foldl_appends fst (λ r, fibonacci_track (Some limit) ib (flag_of r k))
                   (λ r t, fibonacci_track_appends _ _ _ t) data (bal, ([1; 1], 0)))
              (fibonacci_limit_pass_replays data ib) tls limit k Hin Hk)
    as (fres & ft & Hf & Hfk & Hft & Hfr & Hfh & Hfl).
  exists mres, fres, mt, ft.
  exact (conj Hm (conj Hf (conj Hmk (conj Hfk (conj Hmt (conj Hft (conj Hmr
           (conj Hfr (conj Hmh (conj Hfh (conj Hml Hfl))))))))))).
Qed.

Lemma repeated_limits_replay_witness :
  25 ∈ [25; 50; 25] ∧ "red" ∈ bet_types ∧
  ∃ mt ft,
    martingale_strategy_with_table_limits [Row 0 1 0 1; Row 1 0 1 0] 10 [25; 50; 25]
      ≫= (λ res, res !! 25 ≫= (.!! "red")) = Some mt ∧
    fibonacci_strategy_with_table_limits [Row 0 1 0 1; Row 1 0 1 0] 10 [25; 50; 25]
      ≫= (λ res, res !! 25 ≫= (.!! "red")) = Some ft ∧
    length mt = 5%nat ∧ length ft = 5%nat.
Proof.
  assert (Hin : 25 ∈ [25; 50; 25]) by compute_done.
  split; [exact Hin|]. split; [compute_done|].
  destruct (repeated_limits_replay [Row 0 1 0 1; Row 1 0 1 0] 10 [25; 50; 25] 25 "red")
    as (mres & fres & mt & ft & Hm & Hf & _ & _ & Hmt & Hft & _ & _ & _ & _ & Hml & Hfl);
    [exact Hin|compute_done|].
  exists mt, ft. rewrite Hm, Hf. cbn [mbind option_bind].
  exact (conj Hmt (conj Hft (conj Hml Hfl))).
Defined.

(** ** No strategy: one draw for the four bet types *)

Lemma last_balance_opp (bal : list Z) :
  last_balance (Z.opp <$> bal) = - last_balance bal.
Proof. unfold last_balance. rewrite fmap_last. by destruct (last bal). Qed.

Lemma no_strategy_fold_opp (g : nat → Z) (ib : Z) (k k' : string) (data : list row)
    (n : nat) (bal : list Z) :
  k ∈ bet_types → k' ∈ bet_types → opposite_outcomes k k' data →
  no_strategy_fold g ib k' n data (Z.opp <$> bal)
  = Z.opp <$> no_strategy_fold g ib k n data bal.
Proof.
  intros Hk Hk' Hopp. revert n bal.
  induction Hopp as [|r data Hr _ IH]; intros n bal; [done|].
  cbn [no_strategy_fold]. rewrite <- IH. f_equal.
  unfold no_strategy_track. rewrite fmap_app, last_balance_opp.
  rewrite !flag_of_won by done. cbn [fmap list_fmap]. do 2 f_equal.
  destruct (decide (win_flag r k = Some 1)) as [Hw|Hl].
  - rewrite (bool_decide_true _ Hw).
    rewrite bool_decide_false by (by apply Hr). lia.
  - rewrite (bool_decide_false _ Hl).
    rewrite bool_decide_true; [lia|].
    destruct (decide (win_flag r k' = Some 1)) as [|Hl']; [done|].
    by apply Hr in Hl'.
Qed.

(** X8. [no_strategy] stakes one amount per spin for the four bet types:
    when on every spin exactly one of two bet types wins (red and black on
    a spin that is not zero, say), what one of them has won the other has
    lost, spin after spin. *)
Theorem no_strategy_opposite_bets (g : nat → Z) (ib : Z) (data : list row)
    (k k' : string) :
  k ∈ bet_types → k' ∈ bet_types → opposite_outcomes k k' data →
  ∃ traj,
    no_strategy g data ib ≫= (.!! k) = Some traj ∧
    no_strategy g data ib ≫= (.!! k') = Some (Z.opp <$> traj).
Proof.
  intros Hk Hk' Hopp. eexists. split; [by apply no_strategy_fold_eq|].
  rewrite no_strategy_fold_eq by done. f_equal.
  by apply (no_strategy_fold_opp g ib k k' data 0 [0]).
Qed.

Lemma no_strategy_opposite_bets_witness :
  "red" ∈ bet_types ∧ "black" ∈ bet_types ∧
  opposite_outcomes "red" "black" [Row 0 1 0 1; Row 1 0 1 0; Row 0 1 1 0] ∧
  ∃ traj,
    no_strategy (λ n, Z.of_nat n) [Row 0 1 0 1; Row 1 0 1 0; Row 0 1 1 0] 10
      ≫= (.!! "red") = Some traj ∧
    no_strategy (λ n, Z.of_nat n) [Row 0 1 0 1; Row 1 0 1 0; Row 0 1 1 0] 10
      ≫= (.!! "black") = Some (Z.opp <$> traj).
Proof.
  assert (Hopp : opposite_outcomes "red" "black"
                   [Row 0 1 0 1; Row 1 0 1 0; Row 0 1 1 0]).
  { repeat constructor; vm_compute; intuition congruence. }
  split; [compute_done|]. split; [compute_done|]. split; [exact Hopp|].
  apply (no_strategy_opposite_bets (λ n, Z.of_nat n) 10
           [Row 0 1 0 1; Row 1 0 1 0; Row 0 1 1 0] "red" "black");
    [compute_done|compute_done|exact Hopp].
Defined.

(** ** Changing the unit of the stakes *)

Lemma last_balance_scale (c : Z) (bal : list Z) :
  last_balance (Z.mul c <$> bal) = c * last_balance bal.
Proof. unfold last_balance. rewrite fmap_last. destruct (last bal); simpl; lia. Qed.

Lemma clamp_scale (c : Z) (cap : option Z) (x : Z) :
  cap = None ∨ 0 ≤ c → clamp (Z.mul c <$> cap) (c * x) = c * clamp cap x.
Proof.
  intros [->|Hc]; [done|]. destruct cap as [l|]; simpl; [|done].
  by apply Z.mul_min_distr_nonneg_l.
Qed.

Lemma martingale_fold_scale (c : Z) (cap : option Z) (ib : Z) (k : string)
    (rows : list row) (bal : list Z) (bet : Z) :
  cap = None ∨ 0 ≤ c →
  foldl (λ t r, martingale_track (Z.mul c <$> cap) (c * ib) (flag_of r k) t)
    (Z.mul c <$> bal, c * bet) rows
  = (Z.mul c <$> (foldl (λ t r, martingale_track cap ib (flag_of r k) t)
                    (bal, bet) rows).1,
     c * (foldl (λ t r, martingale_track cap ib (flag_of r k) t) (bal, bet) rows).2).
Proof.
  intros Hc. induction rows as [|r rows IH] using rev_ind; [done|].
  rewrite !foldl_snoc, IH.
  set (t := foldl (λ t r, martingale_track cap ib (flag_of r k) t) (bal, bet) rows).
  unfold martingale_track. cbn [fst snd].
  rewrite last_balance_scale, (clamp_scale c cap t.2 Hc).
  replace (c * t.2 * 2) with (c * (t.2 * 2)) by lia.
  rewrite (clamp_scale c cap (t.2 * 2) Hc).
  case_bool_decide; cbn [fst snd]; rewrite fmap_app; cbn [fmap list_fmap];
    do 3 f_equal; lia.
Qed.

Lemma d_alembert_fold_scale (c ib : Z) (k : string) (rows : list row)
    (bal : list Z) (bet : Z) :
  0 ≤ c →
  foldl (λ t r, d_alembert_track (c * ib) (flag_of r k) t) (Z.mul c <$> bal, c * bet) rows
  = (Z.mul c <$> (foldl (λ t r, d_alembert_track ib (flag_of r k) t) (bal, bet) rows).1,
     c * (foldl (λ t r, d_alembert_track ib (flag_of r k) t) (bal, bet) rows).2).
Proof.
  intros Hc. induction rows as [|r rows IH] using rev_ind; [done|].
  rewrite !foldl_snoc, IH.
  set (t := foldl (λ t r, d_alembert_track ib (flag_of r k) t) (bal, bet) rows).
  unfold d_alembert_track. cbn [fst snd]. rewrite last_balance_scale.
  replace (c * t.2 - c * ib) with (c * (t.2 - ib)) by lia.
  rewrite (Z.mul_max_distr_nonneg_l _ _ _ Hc).
  case_bool_decide; cbn [fst snd]; rewrite fmap_app; cbn [fmap list_fmap];
    do 3 f_equal; lia.
Qed.

Lemma fibonacci_fold_scale (c : Z) (cap : option Z) (ib : Z) (k : string)
    (rows : list row) (bal : list Z) (p : list Z * Z) :
  cap = None ∨ 0 ≤ c →
  foldl (λ t r, fibonacci_track (Z.mul c <$> cap) (c * ib) (flag_of r k) t)
    (Z.mul c <$> bal, p) rows
  = (Z.mul c <$> (foldl (λ t r, fibonacci_track cap ib (flag_of r k) t)
                    (bal, p) rows).1,
     (foldl (λ t r, fibonacci_track cap ib (flag_of r k) t) (bal, p) rows).2).
Proof.
  intros Hc. induction rows as [|r rows IH] using rev_ind; [done|].
  rewrite !foldl_snoc, IH.
  set (t := foldl (λ t r, fibonacci_track cap ib (flag_of r k) t) (bal, p) rows).
  unfold fibonacci_track. cbn [fst snd]. rewrite last_balance_scale.
  replace (default 0 (getitem t.2.1 t.2.2) * (c * ib))
    with (c * (default 0 (getitem t.2.1 t.2.2) * ib)) by lia.
  rewrite (clamp_scale c cap _ Hc).
  rewrite fmap_app. cbn [fmap list_fmap]. do 3 f_equal.
  case_bool_decide; lia.
Qed.

Lemma not_elem_of_scale (c limit : Z) (tl : list Z) :
  0 < c → limit ∉ tl → c * limit ∉ Z.mul c <$> tl.
Proof.
  intros Hc Hnot (l & Heq & Hl)%list_elem_of_fmap.
  apply Z.mul_reg_l in Heq; [|lia]. by subst l.
Qed.

(** X9. Changing the unit of the stakes changes nothing else: with the
    initial bet multiplied by [c], the trajectories of
    [martingale_strategy] and [fibonacci_strategy] are multiplied by [c],
    and so are those of [d_alembert_strategy] when [0 ≤ c]; with [0 < c]
    and the table limits multiplied by [c] as well, so are those of the
    two table-limit variants (under a limit listed once). *)
Theorem trajectories_scale (c ib : Z) (data : list row) (tl1 : list Z) (limit : Z)
    (tl2 : list Z) (k : string) :
  k ∈ bet_types →
  martingale_strategy data (c * ib) ≫= (.!! k)
    = fmap (Z.mul c) <$> (martingale_strategy data ib ≫= (.!! k)) ∧
  fibonacci_strategy data (c * ib) ≫= (.!! k)
    = fmap (Z.mul c) <$> (fibonacci_strategy data ib ≫= (.!! k)) ∧
  (0 ≤ c →
   d_alembert_strategy data (c * ib) ≫= (.!! k)
     = fmap (Z.mul c) <$> (d_alembert_strategy data ib ≫= (.!! k))) ∧
  (0 < c → limit ∉ tl1 → limit ∉ tl2 →
   martingale_strategy_with_table_limits data (c * ib)
     (Z.mul c <$> (tl1 ++ limit :: tl2))
     ≫= (λ res, res !! (c * limit) ≫= (.!! k))
   = fmap (Z.mul c)
       <$> (martingale_strategy_with_table_limits data ib (tl1 ++ limit :: tl2)
              ≫= (λ res, res !! limit ≫= (.!! k)))) ∧
  (0 < c → limit ∉ tl1 → limit ∉ tl2 →
   fibonacci_strategy_with_table_limits data (c * ib)
     (Z.mul c <$> (tl1 ++ limit :: tl2))
     ≫= (λ res, res !! (c * limit) ≫= (.!! k))
   = fmap (Z.mul c)
       <$> (fibonacci_strategy_with_table_limits data ib (tl1 ++ limit :: tl2)
              ≫= (λ res, res !! limit ≫= (.!! k)))).
Proof.
  intros Hk. split_and!.
  - rewrite !martingale_strategy_fold by done. cbn [fmap option_fmap option_map].
    pose proof (martingale_fold_scale c None ib k data [0] ib (or_introl eq_refl)) as He.
    cbn [fmap option_fmap option_map list_fmap] in He.
    rewrite Z.mul_0_r in He. by rewrite He.
  - rewrite !fibonacci_strategy_fold by done. cbn [fmap option_fmap option_map].
    pose proof (fibonacci_fold_scale c None ib k data [0] ([1; 1], 0)
                  (or_introl eq_refl)) as He.
    cbn [fmap option_fmap option_map list_fmap] in He.
    rewrite Z.mul_0_r in He. by rewrite He.
  - intros Hc. rewrite !d_alembert_strategy_fold by done.
    cbn [fmap option_fmap option_map].
    pose proof (d_alembert_fold_scale c ib k data [0] ib Hc) as He.
    cbn [fmap list_fmap] in He. rewrite Z.mul_0_r in He. by rewrite He.
  - intros Hc Hnot1 Hnot2. rewrite fmap_app, fmap_cons.
    rewrite !martingale_limits_fold by (done || by apply not_elem_of_scale).
    cbn [fmap option_fmap option_map].
    pose proof (martingale_fold_scale c (Some limit) ib k data [0] ib
                  (or_intror (Z.lt_le_incl _ _ Hc))) as He.
    cbn [fmap option_fmap option_map list_fmap] in He.
    rewrite Z.mul_0_r in He. by rewrite He.
  - intros Hc Hnot1 Hnot2. rewrite fmap_app, fmap_cons.
    rewrite !fibonacci_limits_fold by (done || by apply not_elem_of_scale).
    cbn [fmap option_fmap option_map].
    pose proof (fibonacci_fold_scale c (Some limit) ib k data [0] ([1; 1], 0)
                  (or_intror (Z.lt_le_incl _ _ Hc))) as He.
    cbn [fmap option_fmap option_map list_fmap] in He.
    rewrite Z.mul_0_r in He. by rewrite He.
Qed.

Lemma trajectories_scale_witness :
  "red" ∈ bet_types ∧ 0 ≤ 3 ∧ 0 < 3 ∧ (25 ∉ [50]) ∧ (25 ∉ [100]) ∧
  d_alembert_strategy [Row 0 1 0 1; Row 1 0 1 0] (3 * 10) ≫= (.!! "red")
    = fmap (Z.mul 3) <$> (d_alembert_strategy [Row 0 1 0 1; Row 1 0 1 0] 10
                            ≫= (.!! "red")) ∧
  martingale_strategy_with_table_limits [Row 0 1 0 1; Row 1 0 1 0] (3 * 10)
    (Z.mul 3 <$> ([50] ++ 25 :: [100]))
    ≫= (λ res, res !! (3 * 25) ≫= (.!! "red"))
  = fmap (Z.mul 3)
      <$> (martingale_strategy_with_table_limits [Row 0 1 0 1; Row 1 0 1 0] 10
             ([50] ++ 25 :: [100])
             ≫= (λ res, res !! 25 ≫= (.!! "red"))).
Proof.
  assert (H1 : 25 ∉ [50]) by compute_done.
  assert (H2 : 25 ∉ [100]) by compute_done.
  assert (Hc : 0 < 3) by lia. assert (Hc' : 0 ≤ 3) by lia.
  split; [compute_done|]. split; [exact Hc'|]. split; [exact Hc|].
  split; [exact H1|]. split; [exact H2|].
  destruct (trajectories_scale 3 10 [Row 0 1 0 1; Row 1 0 1 0] [50] 25 [100] "red")
    as (_ & _ & Hd & Hm & _); [compute_done|].
  split; [exact (Hd Hc')|exact (Hm Hc H1 H2)].
Defined.

(** ** What a table limit bounds *)

Section bounded_steps.
Context {T R : Type}.
Variable bal : T → list Z.
Variable step : R → T → T.
Variable inv : T → Prop.
Variable bound : Z.
Hypothesis step_appends : ∀ r t, ∃ x, bal (step r t) = bal t ++ [x].
Hypothesis step_bounded : ∀ r t,
  inv t →
  inv (step r t) ∧
  - bound ≤ last_balance (bal (step r t)) - last_balance (bal t) ≤ bound.

Lemma foldl_bounded (rows : list R) (t0 : T) :
  inv t0 → last_balance (bal t0) = 0 →
  inv (foldl (λ t r, step r t) t0 rows) ∧
  - (Z.of_nat (length rows) * bound)
    ≤ last_balance (bal (foldl (λ t r, step r t) t0 rows))
    ≤ Z.of_nat (length rows) * bound.
Proof.
  intros Hinv H0. induction rows as [|r rows [IHinv IH]] using rev_ind.
  - simpl. split; [done|]. rewrite H0. lia.
  - rewrite foldl_snoc, length_app. simpl.
    destruct (step_bounded r _ IHinv) as [Hinv' Hstep]. split; [done|]. lia.
Qed.

Lemma foldl_bounded_entries (rows : list R) (t0 : T) (j : nat) (r : R) :
  inv t0 → bal t0 = [0] → rows !! j = Some r →
  ∃ a a',
    bal (foldl (λ t r, step r t) t0 rows) !! j = Some a ∧
    bal (foldl (λ t r, step r t) t0 rows) !! S j = Some a' ∧
    - bound ≤ a' - a ≤ bound ∧
    - (Z.of_nat j * bound) ≤ a ≤ Z.of_nat j * bound.
Proof.
  intros Hinv H0 Hr. pose proof (lookup_lt_Some _ _ _ Hr) as Hlt.
  assert (Hlen : length (bal t0) = 1%nat) by (by rewrite H0).
  assert (Hne : bal t0 ≠ []) by (by rewrite H0).
  destruct (foldl_bounded (take j rows) t0 Hinv) as [Hinvj Hj]; [by rewrite H0|].
  rewrite length_take_le in Hj by lia.
  destruct (step_bounded r _ Hinvj) as [_ Hstep].
  exists (last_balance (bal (foldl (λ t r, step r t) t0 (take j rows)))),
    (last_balance (bal (step r (foldl (λ t r, step r t) t0 (take j rows))))).
  split; [|split; [|exact (conj Hstep Hj)]].
  - rewrite (foldl_entry bal step step_appends) by (done || lia).
    apply last_balance_Some. by apply (foldl_bal_nonempty bal step step_appends).
  - rewrite (foldl_entry_step bal step step_appends rows t0 j r) by done.
    apply last_balance_Some.
    destruct (step_appends r (foldl (λ t r, step r t) t0 (take j rows))) as (x & ->).
    by intros [_ [=]]%app_eq_nil.
Qed.
End bounded_steps.

Lemma martingale_track_bounded (ib limit flag : Z) (t : list Z * Z) :
  0 ≤ ib → 0 ≤ limit → 0 ≤ t.2 →
  0 ≤ (martingale_track (Some limit) ib flag t).2 ∧
  - limit ≤ last_balance (martingale_track (Some limit) ib flag t).1 - last_balance t.1
    ≤ limit.
Proof.
  intros Hib Hlimit Hbet. unfold martingale_track, clamp.
  case_bool_decide; cbn [fst snd]; rewrite last_balance_app; lia.
Qed.

Lemma fibonacci_track_bounded (ib limit flag : Z) (t : list Z * (list Z * Z)) :
  0 ≤ ib → 0 ≤ limit → fibonacci_inv t →
  fibonacci_inv (fibonacci_track (Some limit) ib flag t) ∧
  - limit ≤ last_balance (fibonacci_track (Some limit) ib flag t).1 - last_balance t.1
    ≤ limit.
Proof.
  intros Hib Hlimit Hinv. split; [by apply fibonacci_track_inv|].
  unfold fibonacci_track, clamp. cbn [fst snd].
  rewrite last_balance_app, (fibonacci_inv_wager t Hinv). cbn [default from_option id].
  pose proof (fib_pos (Z.to_nat t.2.2)) as [Hfib _].
  assert (Hw : 0 ≤ fib (Z.to_nat t.2.2) * ib) by (apply Z.mul_nonneg_nonneg; lia).
  case_bool_decide; lia.
Qed.

(** X10. What a table limit bounds.  With a non-negative initial bet and a
    non-negative limit (listed once), the two table-limit variants move
    the balance of a bet type by at most [limit] on every spin, so that
    after [j] spins it lies within [j * limit] of zero. *)
Theorem table_limit_bounds (data : list row) (ib : Z) (tl1 : list Z) (limit : Z)
    (tl2 : list Z) (k : string) (j : nat) (r : row) :
  k ∈ bet_types → limit ∉ tl1 → limit ∉ tl2 → 0 ≤ ib → 0 ≤ limit →
  data !! j = Some r →
  ∃ mt ft a a' b b',
    martingale_strategy_with_table_limits data ib (tl1 ++ limit :: tl2)
      ≫= (λ res, res !! limit ≫= (.!! k)) = Some mt ∧
    fibonacci_strategy_with_table_limits data ib (tl1 ++ limit :: tl2)
      ≫= (λ res, res !! limit ≫= (.!! k)) = Some ft ∧
    mt !! j = Some a ∧ mt !! S j = Some a' ∧
    ft !! j = Some b ∧ ft !! S j = Some b' ∧
    - limit ≤ a' - a ≤ limit ∧ - limit ≤ b' - b ≤ limit ∧
    - (Z.of_nat j * limit) ≤ a ≤ Z.of_nat j * limit ∧
    - (Z.of_nat j * limit) ≤ b ≤ Z.of_nat j * limit.
Proof.
  intros Hk Hnot1 Hnot2 Hib Hlimit Hr.
  destruct (foldl_bounded_entries fst
              (λ r, martingale_track (Some limit) ib (flag_of r k))
              (λ t, 0 ≤ t.2) limit
              (λ r t, martingale_track_appends _ _ _ t)
              (λ r t, martingale_track_bounded ib limit _ t Hib Hlimit)
              data ([0], ib) j r Hib eq_refl Hr)
    as (a & a' & Ha & Ha' & Hstep & Hbound).
  destruct (foldl_bounded_entries fst
              (λ r, fibonacci_track (Some limit) ib (flag_of r k))
              fibonacci_inv limit
              (λ r t, fibonacci_track_appends _ _ _ t)
              (λ r t, fibonacci_track_bounded ib limit _ t Hib Hlimit)
              data ([0], ([1; 1], 0)) j r)
    as (b & b' & Hb & Hb' & Hstepb & Hboundb);
    [by apply fibonacci_inv_init|done|done|].
  eexists _, _, a, a', b, b'.
  split; [by apply martingale_limits_fold|].
  split; [by apply fibonacci_limits_fold|].
  exact (conj Ha (conj Ha' (conj Hb (conj Hb' (conj Hstep (conj Hstepb
           (conj Hbound Hboundb))))))).
Qed.

Lemma table_limit_bounds_witness :
  "red" ∈ bet_types ∧ (25 ∉ [50]) ∧ (25 ∉ [100]) ∧ 0 ≤ 10 ∧ 0 ≤ 25 ∧
  [Row 0 1 0 1; Row 0 1 1 0; Row 0 0 1 0] !! 2%nat = Some (Row 0 0 1 0) ∧
  ∃ mt a a',
    martingale_strategy_with_table_limits [Row 0 1 0 1; Row 0 1 1 0; Row 0 0 1 0] 10
      ([50] ++ 25 :: [100]) ≫= (λ res, res !! 25 ≫= (.!! "red")) = Some mt ∧
    mt !! 2%nat = Some a ∧ mt !! 3%nat = Some a' ∧ - 25 ≤ a' - a ≤ 25.
Proof.
  assert (H1 : 25 ∉ [50]) by compute_done.
  assert (H2 : 25 ∉ [100]) by compute_done.
  split; [compute_done|]. split; [exact H1|]. split; [exact H2|].
  split; [lia|]. split; [lia|]. split; [reflexivity|].
  destruct (table_limit_bounds [Row 0 1 0 1; Row 0 1 1 0; Row 0 0 1 0] 10 [50] 25 [100]
              "red" 2 (Row 0 0 1 0))
    as (mt & ft & a & a' & b & b' & Hm & _ & Ha & Ha' & _ & _ & Hstep & _);
    [compute_done|exact H1|exact H2|lia|lia|reflexivity|].
  exists mt, a, a'. exact (conj Hm (conj Ha (conj Ha' Hstep))).
Defined.

(** ** Plotting what was simulated *)

Lemma for_each_is_Some {A S : Type} (body : A → S → option S) (ok : A → Prop)
    (xs : list A) (s : S) :
  (∀ x s, is_Some (body x s) ↔ ok x) →
  is_Some (for_each body xs s) ↔ Forall ok xs.
Proof.
  intros Hbody. revert s. induction xs as [|x xs IH]; intros s.
  - simpl. split; [by constructor|by eexists].
  - rewrite for_each_cons, Forall_cons. split.
    + intros [s' Hrun]. apply bind_Some in Hrun as (s1 & Hx & Hrun).
      split; [apply (Hbody x s); by eexists|]. apply (IH s1). by eexists.
    + intros [Hx Hxs]. apply (Hbody x s) in Hx as [s1 Hx]. rewrite Hx.
      cbn [mbind option_bind]. by apply IH.
Qed.

Lemma plot_limit_line_is_Some (row col : Z)
    (strategy_data : gmap Z (gmap string (list Z))) (k : string) (limit : Z)
    (calls : list plot_call) :
  is_Some (plot_limit_line row col strategy_data k limit calls)
  ↔ is_Some (strategy_data !! limit ≫= (.!! k)).
Proof.
  unfold plot_limit_line. destruct (strategy_data !! limit) as [inner|]; simpl.
  - destruct (inner !! k); simpl; split; intros [? ?]; by eauto.
  - split; by intros [? ?].
Qed.

Lemma plot_axes_is_Some (row : Z) (name : string)
    (strategy_data : gmap Z (gmap string (list Z))) (tls : list Z)
    (x : Z * string) (calls : list plot_call) :
  is_Some (plot_axes row name strategy_data tls x calls)
  ↔ Forall (λ limit, is_Some (strategy_data !! limit ≫= (.!! x.2))) tls.
Proof.
  destruct x as [col k]. unfold plot_axes. cbn [snd].
  rewrite <- (for_each_is_Some (plot_limit_line row col strategy_data k) _ tls calls)
    by (intros; apply plot_limit_line_is_Some).
  destruct (for_each _ tls calls); simpl; split; intros [? ?]; by eauto.
Qed.

Lemma plot_strategy_row_is_Some (tls : list Z) (row : Z) (name : string)
    (strategy_data : gmap Z (gmap string (list Z))) (calls : list plot_call) :
  is_Some (plot_strategy_row tls (row, (name, strategy_data)) calls)
  ↔ ∀ limit k, limit ∈ tls → k ∈ bet_types →
      is_Some (strategy_data !! limit ≫= (.!! k)).
Proof.
  unfold plot_strategy_row.
  rewrite (for_each_is_Some (plot_axes row name strategy_data tls)
             (λ x, Forall (λ limit, is_Some (strategy_data !! limit ≫= (.!! x.2))) tls))
    by (intros; apply plot_axes_is_Some).
  change (enumerate bet_types) with [(0, "red"); (1, "black"); (2, "even"); (3, "odd")].
  rewrite !Forall_cons. cbn [snd]. setoid_rewrite Forall_forall. split.
  - intros (Hred & Hblack & Heven & Hodd & _) limit k Hl Hk. revert k Hk.
    apply (bet_type_cases (λ k, is_Some (strategy_data !! limit ≫= (.!! k))));
      [by apply Hred|by apply Hblack|by apply Heven|by apply Hodd].
  - intros Hall. split_and!; [..|intros x Hx; by apply elem_of_nil in Hx];
      intros limit Hl; apply Hall; (done || compute_done).
Qed.

Lemma plot_strategies_2x4_is_Some
    (martingale_data fibonacci_data : gmap Z (gmap string (list Z))) (tls : list Z) :
  is_Some (plot_strategies_2x4 martingale_data fibonacci_data tls)
  ↔ ∀ limit k, limit ∈ tls → k ∈ bet_types →
      is_Some (martingale_data !! limit ≫= (.!! k)) ∧
      is_Some (fibonacci_data !! limit ≫= (.!! k)).
Proof.
  unfold plot_strategies_2x4.
  change (enumerate [("Martingale", martingale_data); ("Fibonacci", fibonacci_data)])
    with [(0, ("Martingale", martingale_data)); (1, ("Fibonacci", fibonacci_data))].
  rewrite !for_each_cons. cbn [for_each]. split.
  - intros [calls Hrun]. apply bind_Some in Hrun as (calls2 & Hrun & _).
    apply bind_Some in Hrun as (calls1 & Hm & Hf).
    apply bind_Some in Hf as (calls2' & Hf & _).
    intros limit k Hl Hk. split.
    + apply (plot_strategy_row_is_Some tls 0 "Martingale" martingale_data [subplots 2 4]);
        [by eexists|done..].
    + apply (plot_strategy_row_is_Some tls 1 "Fibonacci" fibonacci_data calls1);
        [by eexists|done..].
  - intros Hall.
    destruct (proj2 (plot_strategy_row_is_Some tls 0 "Martingale" martingale_data
                       [subplots 2 4])) as [calls1 ->];
      [intros limit k Hl Hk; by apply Hall|].
    cbn [mbind option_bind].
    destruct (proj2 (plot_strategy_row_is_Some tls 1 "Fibonacci" fibonacci_data calls1))
      as [calls2 ->]; [intros limit k Hl Hk; by apply Hall|].
    cbn [mbind option_bind]. by eexists.
Qed.

Section table_limit_keys.
Variable pass : Z → gmap Z (gmap string (list Z))
                → option (gmap Z (gmap string (list Z))).
Variable n : nat.

Hypothesis pass_spec : ∀ limit res,
  wf_results res limit →
  ∃ res', pass limit res = Some res' ∧
    (∀ limit', limit' ≠ limit → res' !! limit' = res !! limit') ∧
    (∀ inner k bal,
       res !! limit = Some inner → k ∈ bet_types → inner !! k = Some bal →
       ∃ inner' more, res' !! limit = Some inner' ∧
                      inner' !! k = Some (bal ++ more) ∧ length more = n).

Lemma limits_keys (tls : list Z) :
  ∃ res, for_each pass tls (init_results tls) = Some res ∧
    ∀ limit,
      (limit ∈ tls → ∀ k, k ∈ bet_types → is_Some (res !! limit ≫= (.!! k))) ∧
      (limit ∉ tls → res !! limit = None).
Proof.
  assert (Hwf : ∀ l, l ∈ tls → wf_results (init_results tls) l)
    by (intros l Hl; by apply init_results_wf).
  destruct (passes_total pass n pass_spec tls (init_results tls) Hwf)
    as (res & Hrun & Hout & Hkeep).
  exists res. split; [exact Hrun|]. intros limit. split.
  - intros Hl k Hk. destruct (Hkeep limit (Hwf limit Hl)) as (inner & -> & Hbals).
    destruct (Hbals k Hk) as (bal & Hbal & _). cbn [mbind option_bind].
    rewrite Hbal. by eexists.
  - intros Hl. rewrite (Hout limit Hl). unfold init_results.
    by apply dict_comprehension_lookup_None.
Qed.
End table_limit_keys.

(** X11. [plot_strategies_2x4] raises [KeyError] exactly when one of the
    two dictionaries lacks a limit of [table_limits] or, under such a
    limit, one of the four bet types.  On the dictionaries returned by
    the two table-limit variants it therefore succeeds exactly when every
    limit to plot was among the limits simulated. *)
Theorem plot_strategies_2x4_key_error
    (martingale_data fibonacci_data : gmap Z (gmap string (list Z)))
    (data : list row) (ib : Z) (simulated table_limits : list Z) :
  (is_Some (plot_strategies_2x4 martingale_data fibonacci_data table_limits)
   ↔ ∀ limit k, limit ∈ table_limits → k ∈ bet_types →
       is_Some (martingale_data !! limit ≫= (.!! k)) ∧
       is_Some (fibonacci_data !! limit ≫= (.!! k))) ∧
  ∃ mres fres,
    martingale_strategy_with_table_limits data ib simulated = Some mres ∧
    fibonacci_strategy_with_table_limits data ib simulated = Some fres ∧
    (is_Some (plot_strategies_2x4 mres fres table_limits)
     ↔ table_limits ⊆ simulated).
Proof.
  split; [apply plot_strategies_2x4_is_Some|].
  destruct (limits_keys (martingale_limit_pass data ib) (length data)
              (martingale_limit_pass_spec data ib) simulated) as (mres & Hm & Hmk).
  destruct (limits_keys (fibonacci_limit_pass data ib) (length data)
              (fibonacci_limit_pass_spec data ib) simulated) as (fres & Hf & Hfk).
  exists mres, fres. split; [exact Hm|]. split; [exact Hf|].
  rewrite plot_strategies_2x4_is_Some. split.
  - intros Hall limit Hl. destruct (decide (limit ∈ simulated)) as [|Hnot]; [done|].
    destruct (Hall limit "red" Hl) as [[traj Htraj] _]; [compute_done|].
    destruct (Hmk limit) as [_ Hnone]. by rewrite (Hnone Hnot) in Htraj.
  - intros Hsub limit k Hl Hk. apply Hsub in Hl. split.
    + by apply (Hmk limit).
    + by apply (Hfk limit).
Qed.

Lemma plot_strategies_2x4_key_error_witness :
  ∃ mres fres,
    martingale_strategy_with_table_limits [Row 0 1 0 1] 10 [25; 50] = Some mres ∧
    fibonacci_strategy_with_table_limits [Row 0 1 0 1] 10 [25; 50] = Some fres ∧
    is_Some (plot_strategies_2x4 mres fres [50]) ∧
    ¬ is_Some (plot_strategies_2x4 mres fres [50; 100]).
Proof.
  destruct (plot_strategies_2x4_key_error ∅ ∅ [Row 0 1 0 1] 10 [25; 50] [50])
    as (_ & mres & fres & Hm & Hf & Hplot).
  destruct (plot_strategies_2x4_key_error ∅ ∅ [Row 0 1 0 1] 10 [25; 50] [50; 100])
    as (_ & mres' & fres' & Hm' & Hf' & Hplot').
  rewrite Hm in Hm'. injection Hm' as <-. rewrite Hf in Hf'. injection Hf' as <-.
  exists mres, fres. split; [exact Hm|]. split; [exact Hf|]. split.
  - apply Hplot. intros l Hl. apply list_elem_of_singleton in Hl as ->. compute_done.
  - intros Hsome. apply Hplot' in Hsome.
    assert (Hin : 100 ∈ [25; 50]) by (apply Hsome; compute_done).
    revert Hin. compute_done.
Defined.

(** ** The lines of the figure *)

Lemma lines_on_app (r c : Z) (calls calls' : list plot_call) :
  lines_on r c (calls ++ calls') = lines_on r c calls ++ lines_on r c calls'.
Proof. apply omap_app. Qed.

Lemma lines_on_plots (r c row col : Z) (lines : list (list Z * string)) :
  lines_on r c ((λ line, ax_plot row col line.1 line.2) <$> lines)
  = if bool_decide (row = r ∧ col = c) then lines else [].
Proof.
  induction lines as [|[ys label] lines IH].
  - by case_bool_decide.
  - unfold lines_on in *. cbn [fmap list_fmap omap list_omap fst snd]. rewrite IH.
    by case_bool_decide.
Qed.

Lemma plot_limit_lines_calls (row col : Z)
    (strategy_data : gmap Z (gmap string (list Z))) (k : string) (tls : list Z)
    (calls calls' : list plot_call) :
  for_each (plot_limit_line row col strategy_data k) tls calls = Some calls' →
  ∃ lines, mapM (limit_line strategy_data k) tls = Some lines ∧
           calls' = calls ++ ((λ line, ax_plot row col line.1 line.2) <$> lines).
Proof.
  revert calls. induction tls as [|limit tls IH]; intros calls Hrun.
  - injection Hrun as <-. exists []. by rewrite app_nil_r.
  - rewrite for_each_cons in Hrun. apply bind_Some in Hrun as (calls1 & Hline & Hrun).
    unfold plot_limit_line in Hline.
    apply bind_Some in Hline as (inner & Hinner & Hline).
    apply bind_Some in Hline as (balances & Hbal & Hline). injection Hline as <-.
    destruct (IH _ Hrun) as (lines & Hlines & ->).
    exists ((balances, "Table Limit: $" +:+ pretty limit) :: lines). split.
    + apply mapM_Some. constructor; [|by apply mapM_Some].
      unfold limit_line. rewrite Hinner. cbn [mbind option_bind].
      by rewrite Hbal.
    + by rewrite <- app_assoc.
Qed.

Lemma plot_axes_calls (row : Z) (name : string)
    (strategy_data : gmap Z (gmap string (list Z))) (tls : list Z) (col : Z)
    (k : string) (calls calls' : list plot_call) :
  plot_axes row name strategy_data tls (col, k) calls = Some calls' →
  ∃ lines new,
    mapM (limit_line strategy_data k) tls = Some lines ∧ calls' = calls ++ new ∧
    ∀ r c, lines_on r c new = if bool_decide (row = r ∧ col = c) then lines else [].
Proof.
  unfold plot_axes. intros Hrun. apply bind_Some in Hrun as (calls1 & Hlines & Hrun).
  destruct (plot_limit_lines_calls _ _ _ _ _ _ _ Hlines) as (lines & Hmap & ->).
  injection Hrun as <-. exists lines.
  case_bool_decide; eexists; (split; [exact Hmap|]);
    (split; [rewrite <- !app_assoc; reflexivity|]);
    intros r c; rewrite !lines_on_app, lines_on_plots;
    unfold lines_on; cbn [omap list_omap]; by rewrite !app_nil_r.
Qed.

Lemma plot_axes_loop (row : Z) (name : string)
    (strategy_data : gmap Z (gmap string (list Z))) (tls : list Z)
    (cols : list (Z * string)) (calls calls' : list plot_call) :
  for_each (plot_axes row name strategy_data tls) cols calls = Some calls' →
  NoDup cols.*1 →
  ∃ new, calls' = calls ++ new ∧
    (∀ r c, r ≠ row ∨ c ∉ cols.*1 → lines_on r c new = []) ∧
    (∀ c k, (c, k) ∈ cols →
       mapM (limit_line strategy_data k) tls = Some (lines_on row c new)).
Proof.
  revert calls. induction cols as [|[c0 k0] cols IH]; intros calls Hrun Hnodup.
  - injection Hrun as <-. exists []. rewrite app_nil_r. split; [done|]. split; [done|].
    intros c k Hin. by apply elem_of_nil in Hin.
  - rewrite for_each_cons in Hrun. apply bind_Some in Hrun as (calls1 & Haxes & Hrun).
    cbn [fmap list_fmap fst] in Hnodup. apply NoDup_cons in Hnodup as [Hc0 Hnodup].
    destruct (plot_axes_calls _ _ _ _ _ _ _ _ Haxes) as (lines & new0 & Hmap & -> & Hnew0).
    destruct (IH _ Hrun Hnodup) as (new & -> & Hout & Hin).
    exists (new0 ++ new). split; [by rewrite app_assoc|]. split.
    + intros r c Hrc. rewrite lines_on_app, Hnew0.
      rewrite bool_decide_false.
      * apply Hout. destruct Hrc as [Hr|Hc]; [by left|right].
        cbn [fmap list_fmap fst] in Hc. by apply not_elem_of_cons in Hc as [_ Hc].
      * intros [<- <-]. destruct Hrc as [Hr|Hc]; [done|].
        cbn [fmap list_fmap fst] in Hc. apply not_elem_of_cons in Hc as [Hc _]. done.
    + intros c k Hck. rewrite lines_on_app, Hnew0.
      apply elem_of_cons in Hck as [[= -> ->]|Hck].
      * rewrite bool_decide_true by done. rewrite (Hout row c0) by (by right).
        by rewrite app_nil_r.
      * assert (Hc : c ∈ cols.*1) by (apply list_elem_of_fmap; by exists (c, k)).
        rewrite bool_decide_false by (intros [_ ->]; done).
        by apply Hin.
Qed.

Lemma plot_rows_loop (tls : list Z)
    (rows : list (Z * (string * gmap Z (gmap string (list Z)))))
    (calls calls' : list plot_call) :
  for_each (plot_strategy_row tls) rows calls = Some calls' →
  NoDup rows.*1 →
  ∃ new, calls' = calls ++ new ∧
    (∀ r c, r ∉ rows.*1 → lines_on r c new = []) ∧
    (∀ r name strategy_data c k,
       (r, (name, strategy_data)) ∈ rows → (c, k) ∈ enumerate bet_types →
       mapM (limit_line strategy_data k) tls = Some (lines_on r c new)).
Proof.
  revert calls. induction rows as [|[r0 [name0 sd0]] rows IH]; intros calls Hrun Hnodup.
  - injection Hrun as <-. exists []. rewrite app_nil_r. split; [done|]. split; [done|].
    intros r name sd c k Hin. by apply elem_of_nil in Hin.
  - rewrite for_each_cons in Hrun. apply bind_Some in Hrun as (calls1 & Hrow & Hrun).
    cbn [fmap list_fmap fst] in Hnodup. apply NoDup_cons in Hnodup as [Hr0 Hnodup].
    unfold plot_strategy_row in Hrow.
    destruct (plot_axes_loop _ _ _ _ _ _ _ Hrow) as (new0 & -> & Hout0 & Hin0);
      [compute_done|].
    destruct (IH _ Hrun Hnodup) as (new & -> & Hout & Hin).
    exists (new0 ++ new). split; [by rewrite app_assoc|]. split.
    + intros r c Hr. cbn [fmap list_fmap fst] in Hr.
      apply not_elem_of_cons in Hr as [Hne Hr].
      rewrite lines_on_app, (Hout0 r c) by (by left). by apply Hout.
    + intros r name sd c k Hrow' Hck. rewrite lines_on_app.
      apply elem_of_cons in Hrow' as [[= -> -> ->]|Hrow'].
      * rewrite (Hout r0 c Hr0), app_nil_r. by apply Hin0.
      * assert (Hr : r ∈ rows.*1)
          by (apply list_elem_of_fmap; by exists (r, (name, sd))).
        rewrite (Hout0 r c) by (left; intros ->; done).
        by apply (Hin r name sd).
Qed.

(** X12. What the figure of [plot_strategies_2x4] shows.  When the
    function returns, the axes in row 0 (Martingale) and row 1 (Fibonacci)
    and in the column of a bet type carry exactly one line per entry of
    [table_limits], in that order: the balances stored for that limit and
    bet type, labelled with the limit. *)
Theorem plot_strategies_2x4_lines
    (martingale_data fibonacci_data : gmap Z (gmap string (list Z)))
    (table_limits : list Z) (calls : list plot_call) (col : Z) (k : string) :
  plot_strategies_2x4 martingale_data fibonacci_data table_limits = Some calls →
  (col, k) ∈ enumerate bet_types →
  mapM (limit_line martingale_data k) table_limits = Some (lines_on 0 col calls) ∧
  mapM (limit_line fibonacci_data k) table_limits = Some (lines_on 1 col calls).
Proof.
  unfold plot_strategies_2x4. intros Hrun Hk.
  apply bind_Some in Hrun as (calls1 & Hrun & Hcalls). injection Hcalls as <-.
  destruct (plot_rows_loop _ _ _ _ Hrun) as (new & -> & _ & Hin).
  { change (NoDup [0; 1]). compute_done. }
  rewrite !lines_on_app.
  change (lines_on 0 col [subplots 2 4]) with (@nil (list Z * string)).
  change (lines_on 1 col [subplots 2 4]) with (@nil (list Z * string)).
  change (lines_on 0 col [tight_layout; show]) with (@nil (list Z * string)).
  change (lines_on 1 col [tight_layout; show]) with (@nil (list Z * string)).
  rewrite !app_nil_r. cbn [app]. split.
  - apply (Hin 0 "Martingale" martingale_data col k); [left|done].
  - apply (Hin 1 "Fibonacci" fibonacci_data col k); [right; left|done].
Qed.

Lemma plot_strategies_2x4_lines_witness :
  ∃ calls,
    plot_strategies_2x4 {[25 := per_bet_type [0; 10]; 50 := per_bet_type [0; 20]]}
      {[25 := per_bet_type [0; -10]; 50 := per_bet_type [0; -20]]} [50; 25]
    = Some calls ∧
    (1, "black") ∈ enumerate bet_types ∧
    mapM (limit_line {[25 := per_bet_type [0; -10]; 50 := per_bet_type [0; -20]]}
            "black") [50; 25]
    = Some (lines_on 1 1 calls).
Proof.
  eexists. split; [vm_compute; reflexivity|]. split; [compute_done|].
  apply (plot_strategies_2x4_lines
           {[25 := per_bet_type [0; 10]; 50 := per_bet_type [0; 20]]}
           {[25 := per_bet_type [0; -10]; 50 := per_bet_type [0; -20]]}
           [50; 25] _ 1 "black"); [vm_compute; reflexivity|compute_done].
Defined.
